(** * Rate limiting, retry and circuit breaking in the social agent

    A shallow embedding of the control layer of the agent:
    - [utils.py]: the multi-window token bucket [RateLimiter], the
      timestamp-list decorator [rate_limit] and the decorator
      [retry_with_backoff];
    - [retry.py]: the decorator [retry_with_backoff] with a delay cap and
      an exception filter;
    - [circuit_breaker.py]: the class [CircuitBreaker] and its decorator;
    - [rate_limiter.py]: the timestamp-list [RateLimiter] and [rate_limit];
    - [x_api_client.py]: [XAPIClient.post_tweet].

    Conventions.  Python floats (token counts, clock readings, delays) are
    read as exact rationals [Q]; Python ints are [Z].  The modules
    [Binary64] and [Binary64Breaker] repeat the token bucket and the
    circuit breaker with the floats as they are, IEEE binary64: what
    depends on the outcome of a comparison of clock readings is stated
    there, and what rounding changes is measured there.  Every call of
    [time.time()] is an explicit argument [now], and [time.sleep] is an
    event of a trace.  A Python exception is a value of [exn]; a call that
    may raise returns an [outcome].  Objects mutated in place are passed
    and returned explicitly, also when the call raises. *)

From Stdlib Require Import QArith Qminmax Qpower Lqa ZArith Lia PrimFloat.
From stdpp Require Import gmap strings list fin_maps pretty.

Local Open Scope Z_scope.

(** ** Exceptions and outcomes *)

(** An exception instance: the method resolution order of its class (the
    class itself first) and its message. *)
Record exn := Exn { exc_mro : list string; exc_msg : string }.

Definition exc_class (e : exn) : string := hd ""%string (exc_mro e).

(** [isinstance(e, c)] *)
Definition isinstance (e : exn) (c : string) : bool :=
  existsb (String.eqb c) (exc_mro e).

(** [isinstance(e, (c1, ..., cn))], the test of an [except] clause. *)
Definition isinstance_any (e : exn) (cs : list string) : bool :=
  existsb (isinstance e) cs.

Definition Exception (msg : string) : exn :=
  Exn ["Exception"; "BaseException"]%string msg.
Definition KeyError (msg : string) : exn :=
  Exn ["KeyError"; "LookupError"; "Exception"; "BaseException"]%string msg.
Definition ZeroDivisionError (msg : string) : exn :=
  Exn ["ZeroDivisionError"; "ArithmeticError"; "Exception"; "BaseException"]%string msg.
Definition ValueError (msg : string) : exn :=
  Exn ["ValueError"; "Exception"; "BaseException"]%string msg.
Definition TypeError (msg : string) : exn :=
  Exn ["TypeError"; "Exception"; "BaseException"]%string msg.
Definition KeyboardInterrupt : exn :=
  Exn ["KeyboardInterrupt"; "BaseException"]%string ""%string.

Inductive outcome (A : Type) : Type :=
| Return (a : A)
| Raise (e : exn).
Arguments Return {A} a.
Arguments Raise {A} e.

Definition is_raise {A} (o : outcome A) : bool :=
  match o with Raise _ => true | Return _ => false end.

(** Python's [x < y] on numbers. *)
Definition Qltb (x y : Q) : bool := negb (Qle_bool y x).

(** ** utils.py *)

Module Utils.

(** One entry of the [limits] dictionary:
    [{'max_requests': ..., 'time_window': ...}]. *)
Record Limit := { max_requests : Z; time_window : Z }.

(** [RateLimiter]: [limits] is a dictionary in insertion order (the order
    of iteration of [acquire]); [tokens] and [last_update] are
    dictionaries keyed by window name. *)
Record RateLimiter := {
  limits : list (string * Limit);
  tokens : gmap string Q;
  last_update : gmap string Q
}.

(** [RateLimiter.__init__]: every bucket starts full; [clock i] is the
    reading of [time.time()] taken for the [i]-th window. *)
Definition init (lims : list (string * Limit)) (clock : nat -> Q) : RateLimiter :=
  {| limits := lims;
     tokens := list_to_map (map (fun wl => (fst wl, inject_Z (max_requests (snd wl)))) lims);
     last_update := list_to_map (imap (fun i wl => (fst wl, clock i)) lims) |}.

(** The value assigned to [self.tokens[window]] by the refill:
    [min(max_requests, tokens + time_passed * max_requests / time_window)]. *)
Definition refill (lim : Limit) (tok lu now : Q) : Q :=
  Qmin (inject_Z (max_requests lim))
       (tok + (now - lu) * inject_Z (max_requests lim) / inject_Z (time_window lim))%Q.

(** First loop of [acquire]: refill each window in turn and stop at the
    first one left with less than one token.  The dictionaries are
    returned as they are at the point of return or raise. *)
Fixpoint acquire_check (now : Q) (ls : list (string * Limit))
    (tk lu : gmap string Q) : outcome bool * gmap string Q * gmap string Q :=
  match ls with
  | [] => (Return true, tk, lu)
  | (w, lim) :: rest =>
      match lu !! w with
      | None => (Raise (KeyError w), tk, lu)
      | Some l =>
          match tk !! w with
          | None => (Raise (KeyError w), tk, lu)
          | Some t =>
              if time_window lim =? 0
              then (Raise (ZeroDivisionError "float division by zero"), tk, lu)
              else
                let t' := refill lim t l now in
                let tk' := <[w := t']> tk in
                let lu' := <[w := now]> lu in
                if Qltb t' 1 then (Return false, tk', lu')
                else acquire_check now rest tk' lu'
          end
      end
  end.

(** Second loop of [acquire]: [self.tokens[window] -= 1] for every window. *)
Fixpoint deduct (ls : list (string * Limit)) (tk : gmap string Q)
    : outcome unit * gmap string Q :=
  match ls with
  | [] => (Return tt, tk)
  | (w, _) :: rest =>
      match tk !! w with
      | None => (Raise (KeyError w), tk)
      | Some t => deduct rest (<[w := (t - 1)%Q]> tk)
      end
  end.

(** [RateLimiter.acquire], with [now = time.time()]. *)
Definition acquire (rl : RateLimiter) (now : Q) : outcome bool * RateLimiter :=
  match acquire_check now (limits rl) (tokens rl) (last_update rl) with
  | (Return true, tk, lu) =>
      match deduct (limits rl) tk with
      | (Return _, tk') =>
          (Return true, {| limits := limits rl; tokens := tk'; last_update := lu |})
      | (Raise e, tk') =>
          (Raise e, {| limits := limits rl; tokens := tk'; last_update := lu |})
      end
  | (o, tk, lu) =>
      (o, {| limits := limits rl; tokens := tk; last_update := lu |})
  end.

(** A sequence of [acquire] calls at the given clock readings: the results
    in order and the final limiter. *)
Fixpoint acquire_all (rl : RateLimiter) (ts : list Q)
    : list (outcome bool) * RateLimiter :=
  match ts with
  | [] => ([], rl)
  | t :: ts' =>
      let '(o, rl1) := acquire rl t in
      let '(os, rl2) := acquire_all rl1 ts' in
      (o :: os, rl2)
  end.

(** *** The decorator [rate_limit] of utils.py *)

(** [while requests and requests[0] < now - time_window: requests.pop(0)] *)
Fixpoint drop_old (now : Q) (time_window : Z) (requests : list Q) : list Q :=
  match requests with
  | [] => []
  | r :: rest =>
      if Qltb r (now - inject_Z time_window)%Q
      then drop_old now time_window rest
      else requests
  end.

(** The wrapper built by [rate_limit(max_requests, time_window)(func)]:
    [requests] is the list captured by the closure, [name] is
    [func.__name__], and [func] is run only when the call is admitted. *)
Definition rate_limit {St V : Type} (max_requests time_window : Z) (name : string)
    (func : St -> outcome V * St)
    (requests : list Q) (now : Q) (st : St) : outcome V * St * list Q :=
  let requests1 := drop_old now time_window requests in
  if Z.of_nat (length requests1) >=? max_requests
  then (Raise (Exception ("Rate limit exceeded for " +:+ name)), st, requests1)
  else let '(o, st1) := func st in (o, st1, requests1 ++ [now]).

(** A series of calls of one decorated function, at the clock readings
    [ts]: the closure keeps [requests] from call to call. *)
Fixpoint rate_limit_all {St V : Type} (max_requests time_window : Z) (name : string)
    (func : St -> outcome V * St)
    (requests : list Q) (ts : list Q) (st : St) : list (outcome V) * St * list Q :=
  match ts with
  | [] => ([], st, requests)
  | now :: ts' =>
      let '(o, st1, requests1) :=
        rate_limit max_requests time_window name func requests now st in
      let '(os, st2, requests2) :=
        rate_limit_all max_requests time_window name func requests1 ts' st1 in
      (o :: os, st2, requests2)
  end.

(** *** The decorator [retry_with_backoff] of utils.py *)

(** What a wrapper does besides returning: calls of the wrapped function
    and calls of [time.sleep]. *)
Inductive event := Invoke | Sleep (d : Q).

(** How many times the wrapped function was called. *)
Fixpoint invocations (tr : list event) : nat :=
  match tr with
  | [] => O
  | Invoke :: tr' => S (invocations tr')
  | Sleep _ :: tr' => invocations tr'
  end.

(** The delays slept, in order. *)
Fixpoint sleeps (tr : list event) : list Q :=
  match tr with
  | [] => []
  | Invoke :: tr' => sleeps tr'
  | Sleep d :: tr' => d :: sleeps tr'
  end.

Section RetryWithBackoff.
Context {St V : Type}.
(** The wrapped function, acting on the world [St], and the effect of
    [time.sleep] on the world. *)
Variable func : St -> outcome V * St.
Variable time_sleep : Q -> St -> St.
Variable max_retries : Z.

(** The [for attempt in range(max_retries)] loop with [fuel] iterations
    left, and the [raise last_exception] after it. *)
Fixpoint retry_loop (fuel : nat) (attempt : Z) (delay : Z)
    (last_exception : option exn) (st : St) : outcome V * St * list event :=
  match fuel with
  | O =>
      match last_exception with
      | Some e => (Raise e, st, [])
      | None => (Raise (TypeError "exceptions must derive from BaseException"), st, [])
      end
  | S fuel' =>
      match func st with
      | (Return v, st1) => (Return v, st1, [Invoke])
      | (Raise e, st1) =>
          if isinstance e "Exception" then
            if attempt <? max_retries - 1 then
              if delay <? 0
              then (Raise (ValueError "sleep length must be non-negative"), st1, [Invoke])
              else
                let '(o, st2, tr) :=
                  retry_loop fuel' (attempt + 1) (delay * 2) (Some e)
                             (time_sleep (inject_Z delay) st1) in
                (o, st2, Invoke :: Sleep (inject_Z delay) :: tr)
            else
              let '(o, st2, tr) := retry_loop fuel' (attempt + 1) delay (Some e) st1 in
              (o, st2, Invoke :: tr)
          else (Raise e, st1, [Invoke])
      end
  end.

Definition retry_with_backoff (initial_delay : Z) (st : St)
    : outcome V * St * list event :=
  retry_loop (Z.to_nat max_retries) 0 initial_delay None st.
End RetryWithBackoff.

End Utils.

(** ** utils.py, the token bucket in binary64 *)

Module Binary64.

(** A Python int as a float; exact below [2^53]. *)
Fixpoint float_of_pos (p : positive) : float :=
  match p with
  | xH => 1%float
  | xO p' => PrimFloat.mul 2 (float_of_pos p')
  | xI p' => PrimFloat.add (PrimFloat.mul 2 (float_of_pos p')) 1
  end.

Definition float_of_Z (z : Z) : float :=
  match z with
  | Z0 => 0%float
  | Zpos p => float_of_pos p
  | Zneg p => PrimFloat.opp (float_of_pos p)
  end.

(** Python's [min(a, b)]: [b] when [b < a], else [a]. *)
Definition fmin (a b : float) : float := if PrimFloat.ltb b a then b else a.

Record RateLimiter := {
  limits : list (string * Utils.Limit);
  tokens : gmap string float;
  last_update : gmap string float
}.

Definition init (lims : list (string * Utils.Limit)) (clock : nat -> float) : RateLimiter :=
  {| limits := lims;
     tokens := list_to_map
                 (map (fun wl => (fst wl, float_of_Z (Utils.max_requests (snd wl)))) lims);
     last_update := list_to_map (imap (fun i wl => (fst wl, clock i)) lims) |}.

Definition refill (lim : Utils.Limit) (tok lu now : float) : float :=
  fmin (float_of_Z (Utils.max_requests lim))
       (PrimFloat.add tok
          (PrimFloat.div
             (PrimFloat.mul (PrimFloat.sub now lu) (float_of_Z (Utils.max_requests lim)))
             (float_of_Z (Utils.time_window lim)))).

Fixpoint acquire_check (now : float) (ls : list (string * Utils.Limit))
    (tk lu : gmap string float) : outcome bool * gmap string float * gmap string float :=
  match ls with
  | [] => (Return true, tk, lu)
  | (w, lim) :: rest =>
      match lu !! w with
      | None => (Raise (KeyError w), tk, lu)
      | Some l =>
          match tk !! w with
          | None => (Raise (KeyError w), tk, lu)
          | Some t =>
              if Utils.time_window lim =? 0
              then (Raise (ZeroDivisionError "float division by zero"), tk, lu)
              else
                let t' := refill lim t l now in
                let tk' := <[w := t']> tk in
                let lu' := <[w := now]> lu in
                if PrimFloat.ltb t' 1 then (Return false, tk', lu')
                else acquire_check now rest tk' lu'
          end
      end
  end.

Fixpoint deduct (ls : list (string * Utils.Limit)) (tk : gmap string float)
    : outcome unit * gmap string float :=
  match ls with
  | [] => (Return tt, tk)
  | (w, _) :: rest =>
      match tk !! w with
      | None => (Raise (KeyError w), tk)
      | Some t => deduct rest (<[w := PrimFloat.sub t 1]> tk)
      end
  end.

Definition acquire (rl : RateLimiter) (now : float) : outcome bool * RateLimiter :=
  match acquire_check now (limits rl) (tokens rl) (last_update rl) with
  | (Return true, tk, lu) =>
      match deduct (limits rl) tk with
      | (Return _, tk') =>
          (Return true, {| limits := limits rl; tokens := tk'; last_update := lu |})
      | (Raise e, tk') =>
          (Raise e, {| limits := limits rl; tokens := tk'; last_update := lu |})
      end
  | (o, tk, lu) =>
      (o, {| limits := limits rl; tokens := tk; last_update := lu |})
  end.

Fixpoint acquire_all (rl : RateLimiter) (ts : list float)
    : list (outcome bool) * RateLimiter :=
  match ts with
  | [] => ([], rl)
  | t :: ts' =>
      let '(o, rl1) := acquire rl t in
      let '(os, rl2) := acquire_all rl1 ts' in
      (o :: os, rl2)
  end.

(** The float [m / 2^k], and the rational it stands for; the float is
    that rational exactly when [|m| < 2^53] and [2^k] is in range. *)
Definition dyadic (m : Z) (k : Z) : float :=
  PrimFloat.div (float_of_Z m) (float_of_Z (2 ^ k)).

Definition dyadic_Q (m : Z) (k : Z) : Q := (inject_Z m / inject_Z (2 ^ k))%Q.

End Binary64.

(** ** retry.py *)

Module Retry.
Import Utils.

Section RetryWithBackoff.
Context {St V : Type}.
Variable func : St -> outcome V * St.
Variable time_sleep : Q -> St -> St.
Variable max_retries : Z.
Variable max_delay : Q.
Variable backoff_factor : Q.
(** The classes of the [except exceptions as e] clause. *)
Variable exceptions : list string.

(** The [for retry in range(max_retries + 1)] loop with [fuel]
    iterations left; the code after the loop returns [None] when no
    exception was recorded. *)
Fixpoint retry_loop (fuel : nat) (retry : Z) (delay : Q)
    (last_exception : option exn) (st : St)
    : outcome (option V) * St * list event :=
  match fuel with
  | O =>
      match last_exception with
      | Some e => (Raise e, st, [])
      | None => (Return None, st, [])
      end
  | S fuel' =>
      match func st with
      | (Return v, st1) => (Return (Some v), st1, [Invoke])
      | (Raise e, st1) =>
          if isinstance_any e exceptions then
            if retry =? max_retries then (Raise e, st1, [Invoke])
            else if Qltb delay 0
            then (Raise (ValueError "sleep length must be non-negative"), st1, [Invoke])
            else
              let '(o, st2, tr) :=
                retry_loop fuel' (retry + 1) (Qmin (delay * backoff_factor) max_delay)
                           (Some e) (time_sleep delay st1) in
              (o, st2, Invoke :: Sleep delay :: tr)
          else (Raise e, st1, [Invoke])
      end
  end.

Definition retry_with_backoff (initial_delay : Q) (st : St)
    : outcome (option V) * St * list event :=
  retry_loop (Z.to_nat (max_retries + 1)) 0 initial_delay None st.
End RetryWithBackoff.

(** The assignment [delay = min(delay * backoff_factor, max_delay)]. *)
Definition next_delay (max_delay backoff_factor delay : Q) : Q :=
  Qmin (delay * backoff_factor) max_delay.

(** The values [delay] takes over [n] rounds of the loop, from [delay]. *)
Fixpoint backoff_delays (max_delay backoff_factor : Q) (n : nat) (delay : Q) : list Q :=
  match n with
  | O => []
  | S n' => delay :: backoff_delays max_delay backoff_factor n'
                                    (next_delay max_delay backoff_factor delay)
  end.

(** The defaults of the decorator's parameters. *)
Definition default_max_retries : Z := 3.
Definition default_initial_delay : Q := 1.
Definition default_max_delay : Q := 60.
Definition default_backoff_factor : Q := 2.
Definition default_exceptions : list string := ["Exception"%string].

End Retry.

(** ** circuit_breaker.py *)

Module CircuitBreaker.

Inductive CircuitState := CLOSED | OPEN | HALF_OPEN.

Definition state_value (s : CircuitState) : string :=
  match s with
  | CLOSED => "CLOSED"
  | OPEN => "OPEN"
  | HALF_OPEN => "HALF_OPEN"
  end.

Record CircuitBreaker := {
  failure_threshold : Z;
  recovery_timeout : Z;
  expected_exception : string;
  state : CircuitState;
  failure_count : Z;
  last_failure_time : Q
}.

Definition set_state (cb : CircuitBreaker) (s : CircuitState) : CircuitBreaker :=
  {| failure_threshold := failure_threshold cb;
     recovery_timeout := recovery_timeout cb;
     expected_exception := expected_exception cb;
     state := s;
     failure_count := failure_count cb;
     last_failure_time := last_failure_time cb |}.

(** [CircuitBreaker.__init__] *)
Definition init (failure_threshold recovery_timeout : Z) (expected_exception : string)
    : CircuitBreaker :=
  {| failure_threshold := failure_threshold;
     recovery_timeout := recovery_timeout;
     expected_exception := expected_exception;
     state := CLOSED;
     failure_count := 0;
     last_failure_time := 0 |}.

(** [can_execute], with [now = time.time()]; the difference is exact
    here, and rounded in [Binary64Breaker.can_execute]. *)
Definition can_execute (cb : CircuitBreaker) (now : Q) : bool * CircuitBreaker :=
  match state cb with
  | CLOSED => (true, cb)
  | OPEN =>
      if Qle_bool (inject_Z (recovery_timeout cb)) (now - last_failure_time cb)
      then (true, set_state cb HALF_OPEN)
      else (false, cb)
  | HALF_OPEN => (true, cb)
  end.

Definition record_success (cb : CircuitBreaker) : CircuitBreaker :=
  {| failure_threshold := failure_threshold cb;
     recovery_timeout := recovery_timeout cb;
     expected_exception := expected_exception cb;
     state := CLOSED;
     failure_count := 0;
     last_failure_time := last_failure_time cb |}.

(** [record_failure], with [now = time.time()]. *)
Definition record_failure (cb : CircuitBreaker) (now : Q) : CircuitBreaker :=
  let count := failure_count cb + 1 in
  {| failure_threshold := failure_threshold cb;
     recovery_timeout := recovery_timeout cb;
     expected_exception := expected_exception cb;
     state := if count >=? failure_threshold cb then OPEN else state cb;
     failure_count := count;
     last_failure_time := now |}.

(** The wrapper built by the decorator [circuit_breaker]: [now] is read by
    [can_execute], [now_failure] by [record_failure] after the call. *)
Definition circuit_breaker {St V : Type} (func : St -> outcome V * St)
    (breaker : CircuitBreaker) (now now_failure : Q) (st : St)
    : outcome V * St * CircuitBreaker :=
  let '(ok, breaker1) := can_execute breaker now in
  if negb ok then
    (Raise (Exception ("Circuit breaker is " +:+ state_value (state breaker1)
                       +:+ ", waiting " +:+ pretty (recovery_timeout breaker1)
                       +:+ "s for recovery")), st, breaker1)
  else
    match func st with
    | (Return v, st1) => (Return v, st1, record_success breaker1)
    | (Raise e, st1) =>
        if isinstance e (expected_exception breaker1)
        then (Raise e, st1, record_failure breaker1 now_failure)
        else (Raise e, st1, breaker1)
    end.

(** The calls a client can make on a breaker. *)
Inductive call := CanExecute (now : Q) | RecordSuccess | RecordFailure (now : Q).

Definition step (cb : CircuitBreaker) (c : call) : CircuitBreaker :=
  match c with
  | CanExecute now => snd (can_execute cb now)
  | RecordSuccess => record_success cb
  | RecordFailure now => record_failure cb now
  end.

Definition steps (cb : CircuitBreaker) (cs : list call) : CircuitBreaker :=
  fold_left step cs cb.

End CircuitBreaker.

(** ** circuit_breaker.py, the breaker in binary64 *)

(** The class [CircuitBreaker] again, with [time.time()] and
    [last_failure_time] the binary64 floats they are, and the subtraction
    of [can_execute] rounded as the code rounds it. *)
Module Binary64Breaker.

Record CircuitBreaker := {
  failure_threshold : Z;
  recovery_timeout : Z;
  expected_exception : string;
  state : CircuitBreaker.CircuitState;
  failure_count : Z;
  last_failure_time : float
}.

Definition set_state (cb : CircuitBreaker) (s : CircuitBreaker.CircuitState)
    : CircuitBreaker :=
  {| failure_threshold := failure_threshold cb;
     recovery_timeout := recovery_timeout cb;
     expected_exception := expected_exception cb;
     state := s;
     failure_count := failure_count cb;
     last_failure_time := last_failure_time cb |}.

(** [CircuitBreaker.__init__] *)
Definition init (failure_threshold recovery_timeout : Z) (expected_exception : string)
    : CircuitBreaker :=
  {| failure_threshold := failure_threshold;
     recovery_timeout := recovery_timeout;
     expected_exception := expected_exception;
     state := CircuitBreaker.CLOSED;
     failure_count := 0;
     last_failure_time := 0%float |}.

(** The value of [time.time() - self.last_failure_time] as the code
    computes it. *)
Definition elapsed (cb : CircuitBreaker) (now : float) : float :=
  PrimFloat.sub now (last_failure_time cb).

(** The test [time.time() - self.last_failure_time >= self.recovery_timeout]. *)
Definition recovered (cb : CircuitBreaker) (now : float) : bool :=
  PrimFloat.leb (Binary64.float_of_Z (recovery_timeout cb)) (elapsed cb now).

(** [can_execute], with [now = time.time()]. *)
Definition can_execute (cb : CircuitBreaker) (now : float) : bool * CircuitBreaker :=
  match state cb with
  | CircuitBreaker.CLOSED => (true, cb)
  | CircuitBreaker.OPEN =>
      if recovered cb now
      then (true, set_state cb CircuitBreaker.HALF_OPEN)
      else (false, cb)
  | CircuitBreaker.HALF_OPEN => (true, cb)
  end.

Definition record_success (cb : CircuitBreaker) : CircuitBreaker :=
  {| failure_threshold := failure_threshold cb;
     recovery_timeout := recovery_timeout cb;
     expected_exception := expected_exception cb;
     state := CircuitBreaker.CLOSED;
     failure_count := 0;
     last_failure_time := last_failure_time cb |}.

(** [record_failure], with [now = time.time()]. *)
Definition record_failure (cb : CircuitBreaker) (now : float) : CircuitBreaker :=
  let count := failure_count cb + 1 in
  {| failure_threshold := failure_threshold cb;
     recovery_timeout := recovery_timeout cb;
     expected_exception := expected_exception cb;
     state := if count >=? failure_threshold cb then CircuitBreaker.OPEN else state cb;
     failure_count := count;
     last_failure_time := now |}.

(** The wrapper built by the decorator [circuit_breaker]: [now] is read by
    [can_execute], [now_failure] by [record_failure] after the call. *)
Definition circuit_breaker {St V : Type} (func : St -> outcome V * St)
    (breaker : CircuitBreaker) (now now_failure : float) (st : St)
    : outcome V * St * CircuitBreaker :=
  let '(ok, breaker1) := can_execute breaker now in
  if negb ok then
    (Raise (Exception ("Circuit breaker is "
                       +:+ CircuitBreaker.state_value (state breaker1)
                       +:+ ", waiting " +:+ pretty (recovery_timeout breaker1)
                       +:+ "s for recovery")), st, breaker1)
  else
    match func st with
    | (Return v, st1) => (Return v, st1, record_success breaker1)
    | (Raise e, st1) =>
        if isinstance e (expected_exception breaker1)
        then (Raise e, st1, record_failure breaker1 now_failure)
        else (Raise e, st1, breaker1)
    end.

(** The calls a client can make on a breaker. *)
Inductive call := CanExecute (now : float) | RecordSuccess | RecordFailure (now : float).

Definition step (cb : CircuitBreaker) (c : call) : CircuitBreaker :=
  match c with
  | CanExecute now => snd (can_execute cb now)
  | RecordSuccess => record_success cb
  | RecordFailure now => record_failure cb now
  end.

Definition steps (cb : CircuitBreaker) (cs : list call) : CircuitBreaker :=
  fold_left step cs cb.

(** A sequence of [can_execute] calls: the answers and the final breaker. *)
Fixpoint can_execute_all (cb : CircuitBreaker) (ts : list float)
    : list bool * CircuitBreaker :=
  match ts with
  | [] => ([], cb)
  | t :: ts' =>
      let '(b, cb1) := can_execute cb t in
      let '(bs, cb2) := can_execute_all cb1 ts' in
      (b :: bs, cb2)
  end.

(** A series of calls of one decorated function: each call comes with
    the two clock readings it may take. *)
Fixpoint circuit_breaker_all {St V : Type} (func : St -> outcome V * St)
    (breaker : CircuitBreaker) (ts : list (float * float)) (st : St)
    : list (outcome V) * St * CircuitBreaker :=
  match ts with
  | [] => ([], st, breaker)
  | (now, now_failure) :: ts' =>
      let '(o, st1, breaker1) := circuit_breaker func breaker now now_failure st in
      let '(os, st2, breaker2) := circuit_breaker_all func breaker1 ts' st1 in
      (o :: os, st2, breaker2)
  end.

End Binary64Breaker.

(** ** rate_limiter.py *)

Module RateLimiterPy.

Record RateLimiter := {
  max_requests : Z;
  time_window : Z;
  requests : list Q
}.

Definition init (max_requests time_window : Z) : RateLimiter :=
  {| max_requests := max_requests; time_window := time_window; requests := [] |}.

(** [can_make_request], with [current_time = time.time()]. *)
Definition can_make_request (rl : RateLimiter) (current_time : Q)
    : bool * RateLimiter :=
  let kept :=
    List.filter (fun req_time => Qle_bool (current_time - req_time)
                                          (inject_Z (time_window rl)))
                (requests rl) in
  if Z.of_nat (length kept) <? max_requests rl
  then (true, {| max_requests := max_requests rl; time_window := time_window rl;
                 requests := kept ++ [current_time] |})
  else (false, {| max_requests := max_requests rl; time_window := time_window rl;
                  requests := kept |}).

(** A series of [can_make_request] calls: the answers and the final
    limiter. *)
Fixpoint can_make_request_all (rl : RateLimiter) (ts : list Q)
    : list bool * RateLimiter :=
  match ts with
  | [] => ([], rl)
  | t :: ts' =>
      let '(b, rl1) := can_make_request rl t in
      let '(bs, rl2) := can_make_request_all rl1 ts' in
      (b :: bs, rl2)
  end.

(** The wrapper built by [rate_limit]: [None] when the limiter refuses,
    the result of [func] otherwise. *)
Definition rate_limit {St V : Type} (func : St -> outcome V * St)
    (limiter : RateLimiter) (now : Q) (st : St)
    : outcome (option V) * St * RateLimiter :=
  let '(ok, limiter1) := can_make_request limiter now in
  if negb ok then (Return None, st, limiter1)
  else
    match func st with
    | (Return v, st1) => (Return (Some v), st1, limiter1)
    | (Raise e, st1) => (Raise e, st1, limiter1)
    end.

End RateLimiterPy.

(** ** x_api_client.py *)

Module XAPIClient.

(** The settings of config.py that the client reads. *)
Definition MAX_RETRIES : Z := 3.
Definition X_RATE_LIMIT_PER_15M : Z := 50.
Definition X_RATE_LIMIT_PER_DAY : Z := 500.
Definition X_RATE_LIMIT_PER_MONTH : Z := 1000.

Definition client_limits : list (string * Utils.Limit) :=
  [("15m"%string, Utils.Build_Limit X_RATE_LIMIT_PER_15M 900);
   ("1d"%string, Utils.Build_Limit X_RATE_LIMIT_PER_DAY 86400);
   ("30d"%string, Utils.Build_Limit X_RATE_LIMIT_PER_MONTH 2592000)].

(** The world of a client: the clock, the client's limiter and the number
    of requests sent to the platform so far. *)
Record World := {
  clock : Q;
  rate_limiter : Utils.RateLimiter;
  api_calls : nat
}.

Definition time_sleep (d : Q) (w : World) : World :=
  {| clock := (clock w + d)%Q; rate_limiter := rate_limiter w; api_calls := api_calls w |}.

Section PostTweet.
(** The platform: what the [k]-th request does, either raising or
    answering with a tweet id when the response carries data. *)
Variable api : nat -> outcome (option string).

(** The body of [post_tweet]. *)
Definition post_tweet_body (w : World) : outcome (option string) * World :=
  let '(o, rl1) := Utils.acquire (rate_limiter w) (clock w) in
  let w1 := {| clock := clock w; rate_limiter := rl1; api_calls := api_calls w |} in
  match o with
  | Raise e => (Raise e, w1)
  | Return false => (Return None, w1)
  | Return true =>
      let w2 := {| clock := clock w; rate_limiter := rl1; api_calls := S (api_calls w) |} in
      match api (api_calls w) with
      | Return (Some tweet_id) => (Return (Some tweet_id), w2)
      | Return None => (Return None, w2)
      | Raise e =>
          if isinstance e "Exception" then (Return None, w2) else (Raise e, w2)
      end
  end.

(** [post_tweet] as decorated: [@retry_with_backoff(max_retries=settings.MAX_RETRIES)]. *)
Definition post_tweet (w : World) : outcome (option string) * World * list Utils.event :=
  Utils.retry_with_backoff post_tweet_body time_sleep MAX_RETRIES 1 w.
End PostTweet.

(** [X_RATE_LIMIT] of config.py. *)
Definition X_RATE_LIMIT : Z := 50.

Section Guarded.
Context {V : Type}.
(** The platform: what the [k]-th request does. *)
Variable api : nat -> outcome V.
(** [func.__name__] of the method. *)
Variable name : string.

(** The body shared by [search_tweets], [like_tweet], [retweet] and
    [reply_to_tweet]: one request; its error is logged and raised
    again. *)
Definition request_body (w : World) : outcome V * World :=
  (api (api_calls w),
   {| clock := clock w; rate_limiter := rate_limiter w; api_calls := S (api_calls w) |}).

(** The body under [@retry_with_backoff(max_retries=settings.MAX_RETRIES)];
    the events are added to those of the world. *)
Definition retried (wt : World * list Utils.event)
    : outcome V * (World * list Utils.event) :=
  let '(o, w1, tr) :=
    Utils.retry_with_backoff request_body time_sleep MAX_RETRIES 1 (fst wt) in
  (o, (w1, snd wt ++ tr)).

(** The method as decorated, [@rate_limit(max_requests=settings.X_RATE_LIMIT)]
    outermost, with the default [time_window] of 3600 seconds. *)
Definition guarded (requests : list Q) (w : World)
    : outcome V * (World * list Utils.event) * list Q :=
  Utils.rate_limit X_RATE_LIMIT 3600 name retried requests (clock w) (w, []).
End Guarded.

End XAPIClient.


(** ** Vocabulary of the statements *)

(** A [limits] dictionary as the limiter expects it: distinct window
    names, a capacity that is not negative and a positive period. *)
Definition wf_limits (ls : list (string * Utils.Limit)) : Prop :=
  NoDup (map fst ls)
  /\ Forall (fun wl => 0 <= Utils.max_requests (snd wl)
                       /\ 0 < Utils.time_window (snd wl)) ls.

(** Both dictionaries of the limiter have an entry for every window. *)
Definition has_keys (ls : list (string * Utils.Limit)) (tk lu : gmap string Q) : Prop :=
  Forall (fun wl => is_Some (tk !! fst wl) /\ is_Some (lu !! fst wl)) ls.

(** The window [wl] holds at least one token once refilled at [now]. *)
Definition window_ok (tk lu : gmap string Q) (now : Q) (wl : string * Utils.Limit) : bool :=
  match tk !! fst wl, lu !! fst wl with
  | Some t, Some l => negb (Qltb (Utils.refill (snd wl) t l now) 1)
  | _, _ => false
  end.

Definition all_ok (rl : Utils.RateLimiter) (now : Q) : bool :=
  forallb (window_ok (Utils.tokens rl) (Utils.last_update rl) now) (Utils.limits rl).

(** Clock readings that never go back, starting no earlier than [T]. *)
Fixpoint nondecreasing_from (T : Q) (ts : list Q) : Prop :=
  match ts with
  | [] => True
  | t :: ts' => (T <= t)%Q /\ nondecreasing_from t ts'
  end.

(** The number of calls that returned [True] at a reading in [[a, b]]. *)
Fixpoint admitted_in (a b : Q) (ts : list Q) (os : list (outcome bool)) : nat :=
  match ts, os with
  | t :: ts', o :: os' =>
      ((match o with
        | Return true => if Qle_bool a t && Qle_bool t b then 1 else 0
        | _ => 0
        end) + admitted_in a b ts' os')%nat
  | _, _ => O
  end.

(** The limiters reached from construction by [acquire] calls at clock
    readings that never go back; the index is a reading no later than the
    next one. *)
Inductive reachable (lims : list (string * Utils.Limit)) : Q -> Utils.RateLimiter -> Prop :=
| reachable_init (clock : nat -> Q) (T : Q) :
    (forall i, (clock i <= T)%Q) ->
    reachable lims T (Utils.init lims clock)
| reachable_acquire (T now : Q) (rl : Utils.RateLimiter) :
    reachable lims T rl ->
    (T <= now)%Q ->
    reachable lims now (snd (Utils.acquire rl now)).

(** Every window holds between 0 and its capacity and was last updated
    no later than [T]. *)
Definition bucket_inv (T : Q) (rl : Utils.RateLimiter) : Prop :=
  forall w lim, In (w, lim) (Utils.limits rl) ->
    exists t l,
      Utils.tokens rl !! w = Some t
      /\ Utils.last_update rl !! w = Some l
      /\ (0 <= t)%Q /\ (t <= inject_Z (Utils.max_requests lim))%Q
      /\ (l <= T)%Q.

(** Two limiters that refill to the same token counts at every reading
    from [T] on. *)
Definition same_future (T : Q) (rl1 rl2 : Utils.RateLimiter) : Prop :=
  Utils.limits rl1 = Utils.limits rl2
  /\ forall w lim, In (w, lim) (Utils.limits rl1) ->
       exists t1 l1 t2 l2,
         Utils.tokens rl1 !! w = Some t1 /\ Utils.last_update rl1 !! w = Some l1
         /\ Utils.tokens rl2 !! w = Some t2 /\ Utils.last_update rl2 !! w = Some l2
         /\ forall now, (T <= now)%Q ->
              (Utils.refill lim t1 l1 now == Utils.refill lim t2 l2 now)%Q.

(** An open breaker has reached its threshold. *)
Definition open_inv (cb : CircuitBreaker.CircuitBreaker) : Prop :=
  CircuitBreaker.state cb = CircuitBreaker.OPEN ->
  CircuitBreaker.failure_threshold cb <= CircuitBreaker.failure_count cb.

(** A function that fails with the same error at every call and counts
    its calls in the world. *)
Definition always_raise (e : exn) (calls : nat) : outcome unit * nat :=
  (Raise e, S calls).

(** A function that follows a script: the outcome of its [k]-th call. *)
Definition scripted {V : Type} (script : nat -> outcome V) (calls : nat)
    : outcome V * nat :=
  (script calls, S calls).

(** A [time.sleep] that leaves such a world as it is. *)
Definition no_sleep (d : Q) (calls : nat) : nat := calls.

(** The entries of a list of clock readings that are no earlier than [a]. *)
Definition count_since (a : Q) (l : list Q) : nat :=
  length (List.filter (Qle_bool a) l).

(** A function that counts its calls in the world, whatever it returns. *)
Definition counts_calls {V : Type} (func : nat -> outcome V * nat) : Prop :=
  forall n, snd (func n) = S n.

(** The number of [True] answers. *)
Definition count_true (bs : list bool) : nat := length (List.filter id bs).

(** Every window holds more than [k] requests. *)
Definition all_above (lims : list (string * Utils.Limit)) (k : nat) : bool :=
  forallb (fun wl => Z.of_nat k <? Utils.max_requests (snd wl)) lims.

(** After [a] admitted calls at the reading [T], every window refills at
    [T] to its capacity less [a]. *)
Definition burst_state (lims : list (string * Utils.Limit)) (T : Q)
    (a : nat) (rl : Utils.RateLimiter) : Prop :=
  Utils.limits rl = lims
  /\ bucket_inv T rl
  /\ forall w lim t l,
       In (w, lim) lims ->
       Utils.tokens rl !! w = Some t -> Utils.last_update rl !! w = Some l ->
       (Utils.refill lim t l T
        == inject_Z (Utils.max_requests lim) - inject_Z (Z.of_nat a))%Q.

(** * Properties *)

(** ** The circuit breaker *)

Section CircuitBreakerFacts.
Import CircuitBreaker.

(** The configuration of a breaker never changes. *)
Lemma step_failure_threshold cb c :
  failure_threshold (step cb c) = failure_threshold cb.
Proof.
  destruct c as [now| |now]; simpl; try reflexivity.
  unfold can_execute.
  destruct (state cb); try reflexivity.
  destruct (Qle_bool _ _); reflexivity.
Qed.


Lemma open_inv_init ft rt ee : open_inv (init ft rt ee).
Proof. unfold open_inv; simpl; discriminate. Qed.

Lemma open_inv_step cb c : open_inv cb -> open_inv (step cb c).
Proof.
  unfold open_inv. intros IH.
  destruct c as [now| |now]; simpl.
  - unfold can_execute.
    destruct (state cb) eqn:Hs; simpl; try (rewrite Hs; discriminate).
    destruct (Qle_bool _ _); simpl; [discriminate | intros _; now apply IH].
  - discriminate.
  - destruct (failure_count cb + 1 >=? failure_threshold cb) eqn:Hge.
    + intros _. lia.
    + intros Hs. specialize (IH Hs). lia.
Qed.

Lemma open_inv_steps cs : forall cb, open_inv cb -> open_inv (steps cb cs).
Proof.
  induction cs as [|c cs IH]; intros cb Hcb; simpl; [exact Hcb|].
  apply IH, open_inv_step, Hcb.
Qed.

End CircuitBreakerFacts.

Section Binary64BreakerFacts.
Import CircuitBreaker Binary64Breaker.

Lemma b64_can_execute_open_early cb now :
  state cb = OPEN -> recovered cb now = false -> can_execute cb now = (false, cb).
Proof. intros Hs Hr. unfold can_execute. rewrite Hs, Hr. reflexivity. Qed.

Lemma b64_can_execute_open_due cb now :
  state cb = OPEN -> recovered cb now = true ->
  can_execute cb now = (true, set_state cb HALF_OPEN).
Proof. intros Hs Hr. unfold can_execute. rewrite Hs, Hr. reflexivity. Qed.

Lemma b64_can_execute_all_open_early cb ts :
  state cb = OPEN ->
  Forall (fun u => recovered cb u = false) ts ->
  can_execute_all cb ts = (repeat false (length ts), cb).
Proof.
  intros Hs Hts. induction Hts as [|u ts Hu _ IH]; simpl; [reflexivity|].
  rewrite (b64_can_execute_open_early cb u Hs Hu), IH. reflexivity.
Qed.

Lemma b64_can_execute_all_app cb ts us :
  can_execute_all cb (ts ++ us)
  = (fst (can_execute_all cb ts) ++ fst (can_execute_all (snd (can_execute_all cb ts)) us),
     snd (can_execute_all (snd (can_execute_all cb ts)) us)).
Proof.
  revert cb. induction ts as [|t ts IH]; intros cb; simpl.
  - destruct (can_execute_all cb us); reflexivity.
  - destruct (can_execute cb t) as [b cb1]. rewrite IH.
    destruct (can_execute_all cb1 ts) as [bs cb2]; simpl.
    destruct (can_execute_all cb2 us); reflexivity.
Qed.

Lemma b64_step_config cb c :
  failure_threshold (step cb c) = failure_threshold cb
  /\ recovery_timeout (step cb c) = recovery_timeout cb
  /\ expected_exception (step cb c) = expected_exception cb.
Proof.
  destruct c as [now| |now]; simpl; try (repeat split; reflexivity).
  unfold can_execute.
  destruct (state cb); try (repeat split; reflexivity).
  destruct (recovered cb now); repeat split; reflexivity.
Qed.

Lemma b64_steps_config cs : forall cb,
  failure_threshold (steps cb cs) = failure_threshold cb
  /\ recovery_timeout (steps cb cs) = recovery_timeout cb.
Proof.
  induction cs as [|c cs IH]; intros cb; [split; reflexivity|].
  simpl. destruct (IH (step cb c)) as [H1 H2].
  destruct (b64_step_config cb c) as (E1 & E2 & _).
  split; congruence.
Qed.

(** A breaker that is not CLOSED has reached its threshold. *)
Lemma b64_tripped_inv_step cb c :
  (state cb <> CLOSED -> failure_threshold cb <= failure_count cb) ->
  (state (step cb c) <> CLOSED ->
   failure_threshold (step cb c) <= failure_count (step cb c)).
Proof.
  intros IH. destruct c as [now| |now]; simpl.
  - unfold can_execute. destruct (state cb) eqn:Hs; simpl.
    + rewrite Hs. congruence.
    + destruct (recovered cb now); simpl; intros _; apply IH; discriminate.
    + intros _. apply IH. discriminate.
  - congruence.
  - destruct (failure_count cb + 1 >=? failure_threshold cb) eqn:Hge.
    + intros _. lia.
    + intros Hs. specialize (IH Hs). lia.
Qed.

Lemma b64_tripped_inv_steps cs : forall cb,
  (state cb <> CLOSED -> failure_threshold cb <= failure_count cb) ->
  (state (steps cb cs) <> CLOSED ->
   failure_threshold (steps cb cs) <= failure_count (steps cb cs)).
Proof.
  induction cs as [|c cs IH]; intros cb Hcb; [exact Hcb|].
  simpl. apply IH. apply b64_tripped_inv_step. exact Hcb.
Qed.
End Binary64BreakerFacts.

(** C5, as stated, fails on the floats of the code.  A breaker with a
    timeout of 60 seconds fails at 0.3 and is asked at 60.3.  Between the
    two readings less than 60 seconds have passed (59.999999999999997),
    but the code computes [60.3 - 0.3] as exactly 60.0: it answers [True]
    and goes to HALF_OPEN before the deadline. *)
Lemma can_execute_deadline_binary64_counterexample :
  let failed := Binary64.dyadic 5404319552844595 54 in
  let asked := Binary64.dyadic 4243235273913139 46 in
  let cb := Binary64Breaker.record_failure
              (Binary64Breaker.init 1 60 "Exception") failed in
  failed = 0x1.3333333333333p-2%float
  /\ asked = 0x1.e266666666666p+5%float
  /\ Binary64Breaker.state cb = CircuitBreaker.OPEN
  /\ (Binary64.dyadic_Q 4243235273913139 46 - Binary64.dyadic_Q 5404319552844595 54
      < inject_Z 60)%Q
  /\ Binary64Breaker.elapsed cb asked = 60%float
  /\ Binary64Breaker.can_execute cb asked
     = (true, Binary64Breaker.set_state cb CircuitBreaker.HALF_OPEN).
Proof.
  repeat split; vm_compute; reflexivity.
Qed.

(** C5, amended.  On an OPEN breaker, every [can_execute] call for which
    the difference [time.time() - last_failure_time], as the code computes
    it in binary64, is not at least [recovery_timeout] answers [False] and
    leaves the breaker as it is (still OPEN); the first call for which
    that computed difference is at least [recovery_timeout] answers [True]
    and puts the breaker in HALF_OPEN. *)
Theorem can_execute_open_deadline
    (cb : Binary64Breaker.CircuitBreaker) (early : list float) (t : float) :
  Binary64Breaker.state cb = CircuitBreaker.OPEN ->
  Forall (fun u =>
            PrimFloat.leb (Binary64.float_of_Z (Binary64Breaker.recovery_timeout cb))
                          (PrimFloat.sub u (Binary64Breaker.last_failure_time cb))
            = false) early ->
  PrimFloat.leb (Binary64.float_of_Z (Binary64Breaker.recovery_timeout cb))
                (PrimFloat.sub t (Binary64Breaker.last_failure_time cb)) = true ->
  Binary64Breaker.can_execute_all cb early = (repeat false (length early), cb)
  /\ Binary64Breaker.can_execute_all cb (early ++ [t])
     = (repeat false (length early) ++ [true],
        Binary64Breaker.set_state cb CircuitBreaker.HALF_OPEN)
  /\ Binary64Breaker.state (snd (Binary64Breaker.can_execute_all cb (early ++ [t])))
     = CircuitBreaker.HALF_OPEN.
Proof.
  intros Hs Hearly Ht.
  pose proof (b64_can_execute_all_open_early cb early Hs Hearly) as He.
  assert (Hall : Binary64Breaker.can_execute_all cb (early ++ [t])
                 = (repeat false (length early) ++ [true],
                    Binary64Breaker.set_state cb CircuitBreaker.HALF_OPEN)).
  { rewrite b64_can_execute_all_app, He. simpl.
    rewrite (b64_can_execute_open_due cb t Hs Ht). reflexivity. }
  split; [exact He|]. split; [exact Hall|].
  rewrite Hall. reflexivity.
Qed.

(** A breaker opened at time 100.5 with a 60 second timeout, asked at
    130.25, 160.25 and then 160.5. *)
Lemma can_execute_open_deadline_witness :
  let cb := Binary64Breaker.record_failure
              (Binary64Breaker.record_failure
                 (Binary64Breaker.init 2 60 "Exception") 99%float) 100.5%float in
  Binary64Breaker.can_execute_all cb [130.25%float; 160.25%float; 160.5%float]
  = ([false; false; true], Binary64Breaker.set_state cb CircuitBreaker.HALF_OPEN).
Proof.
  intros cb.
  refine (proj1 (proj2 (can_execute_open_deadline cb [130.25%float; 160.25%float]
                          160.5%float _ _ _))).
  - reflexivity.
  - repeat constructor.
  - vm_compute. reflexivity.
Defined.

(** C6.  In every state reached from a freshly constructed (CLOSED) breaker
    by any sequence of [can_execute], [record_success] and [record_failure]
    calls, [state == OPEN] implies [failure_count >= failure_threshold]. *)
Theorem open_implies_threshold_reached
    (ft rt : Z) (ee : string) (cs : list CircuitBreaker.call) :
  CircuitBreaker.state (CircuitBreaker.steps (CircuitBreaker.init ft rt ee) cs)
  = CircuitBreaker.OPEN ->
  CircuitBreaker.failure_threshold (CircuitBreaker.steps (CircuitBreaker.init ft rt ee) cs)
  <= CircuitBreaker.failure_count (CircuitBreaker.steps (CircuitBreaker.init ft rt ee) cs).
Proof.
  apply (open_inv_steps cs), open_inv_init.
Qed.

Lemma open_implies_threshold_reached_witness :
  2 <= CircuitBreaker.failure_count
         (CircuitBreaker.steps (CircuitBreaker.init 2 60 "Exception")
            [CircuitBreaker.RecordFailure 1; CircuitBreaker.CanExecute 2;
             CircuitBreaker.RecordFailure 3; CircuitBreaker.CanExecute 70;
             CircuitBreaker.RecordFailure 71]).
Proof.
  apply (open_implies_threshold_reached 2 60 "Exception"
           [CircuitBreaker.RecordFailure 1; CircuitBreaker.CanExecute 2;
            CircuitBreaker.RecordFailure 3; CircuitBreaker.CanExecute 70;
            CircuitBreaker.RecordFailure 71]).
  reflexivity.
Defined.

(** ** The retry decorators *)

Lemma Qltb_false_iff (x y : Q) : Qltb x y = false <-> (y <= x)%Q.
Proof.
  unfold Qltb. rewrite negb_false_iff. apply Qle_bool_iff.
Qed.

Lemma Qltb_true_iff (x y : Q) : Qltb x y = true <-> (x < y)%Q.
Proof.
  unfold Qltb. rewrite negb_true_iff. split.
  - intros H. apply Qnot_le_lt. intros Hle. apply Qle_bool_iff in Hle. congruence.
  - intros H. destruct (Qle_bool y x) eqn:E; [|reflexivity].
    apply Qle_bool_iff in E. lra.
Qed.

Section RetryFacts.
Import Utils.
Context {St V : Type}.
Variable func : St -> outcome V * St.
Variable time_sleep : Q -> St -> St.
Variable max_retries : Z.
Variable max_delay backoff_factor : Q.
Variable exceptions : list string.

Local Abbreviation loop :=
  (Retry.retry_loop func time_sleep max_retries max_delay backoff_factor exceptions).

Lemma next_delay_nonneg (delay : Q) :
  (0 <= delay)%Q -> (0 <= backoff_factor)%Q -> (0 <= max_delay)%Q ->
  (0 <= Qmin (delay * backoff_factor) max_delay)%Q.
Proof.
  intros Hd Hb Hm. apply Q.min_glb; [|exact Hm].
  apply Qmult_le_0_compat; assumption.
Qed.

(** An error outside [exceptions] leaves the loop at once. *)
Lemma retry_loop_not_caught fuel retry delay last st e st' :
  func st = (Raise e, st') ->
  isinstance_any e exceptions = false ->
  loop (S fuel) retry delay last st = (Raise e, st', [Invoke]).
Proof. intros Hf Hc. simpl. rewrite Hf, Hc. reflexivity. Qed.

(** An error inside [exceptions] before the last iteration: sleep, then
    go round again with the next delay. *)
Lemma retry_loop_caught fuel retry delay last st e st' :
  func st = (Raise e, st') ->
  isinstance_any e exceptions = true ->
  retry <> max_retries ->
  (0 <= delay)%Q ->
  loop (S fuel) retry delay last st
  = let '(o, st2, tr) :=
      loop fuel (retry + 1) (Qmin (delay * backoff_factor) max_delay) (Some e)
           (time_sleep delay st') in
    (o, st2, Invoke :: Sleep delay :: tr).
Proof.
  intros Hf Hc Hne Hd. simpl. rewrite Hf, Hc.
  apply Z.eqb_neq in Hne. rewrite Hne.
  apply Qltb_false_iff in Hd. rewrite Hd. reflexivity.
Qed.

(** The last iteration re-raises what it caught. *)
Lemma retry_loop_last fuel delay last st e st' :
  func st = (Raise e, st') ->
  isinstance_any e exceptions = true ->
  loop (S fuel) max_retries delay last st = (Raise e, st', [Invoke]).
Proof. intros Hf Hc. simpl. rewrite Hf, Hc, Z.eqb_refl. reflexivity. Qed.

Lemma retry_loop_all_fail :
  (forall st, exists e st', func st = (Raise e, st')
                            /\ isinstance_any e exceptions = true) ->
  (0 <= backoff_factor)%Q -> (0 <= max_delay)%Q ->
  forall fuel retry delay last st,
    retry + Z.of_nat (S fuel) = max_retries + 1 ->
    (0 <= delay)%Q ->
    exists e st0 st' tr,
      loop (S fuel) retry delay last st = (Raise e, st', tr)
      /\ invocations tr = S fuel
      /\ length (sleeps tr) = fuel
      /\ func st0 = (Raise e, st')
      /\ isinstance_any e exceptions = true.
Proof.
  intros Hfail Hb Hm. induction fuel as [|fuel IH]; intros retry delay last st Hidx Hd.
  - destruct (Hfail st) as (e & st' & Hf & Hc).
    assert (retry = max_retries) as -> by lia.
    exists e, st, st', [Invoke].
    rewrite (retry_loop_last 0 delay last st e st' Hf Hc). auto.
  - destruct (Hfail st) as (e & st' & Hf & Hc).
    assert (Hne : retry <> max_retries) by lia.
    rewrite (retry_loop_caught (S fuel) retry delay last st e st' Hf Hc Hne Hd).
    destruct (IH (retry + 1) (Qmin (delay * backoff_factor) max_delay) (Some e)
                 (time_sleep delay st')) as (e2 & st0 & st2 & tr & Hl & Hi & Hs & Hf2 & Hc2).
    { lia. }
    { apply next_delay_nonneg; assumption. }
    exists e2, st0, st2, (Invoke :: Sleep delay :: tr).
    rewrite Hl. split; [reflexivity|].
    split; [simpl; rewrite Hi; reflexivity|].
    split; [simpl; rewrite Hs; reflexivity|].
    split; assumption.
Qed.
End RetryFacts.


(** C2, as stated, fails.  With [max_retries=3] and an operation that
    always raises [Exception("boom")]: the decorator of retry.py surfaces
    that very exception, which is no [MaxRetriesExceeded]; and the
    decorator of utils.py, the one the client uses, calls the operation 3
    times, not 4. *)
Lemma retry_exhausted_counterexample :
  Retry.retry_with_backoff (always_raise (Exception "boom")) no_sleep
      3 60 2 ["Exception"%string] 1 0%nat
  = (Raise (Exception "boom"), 4%nat,
     [Utils.Invoke; Utils.Sleep 1; Utils.Invoke; Utils.Sleep 2;
      Utils.Invoke; Utils.Sleep 4; Utils.Invoke])
  /\ isinstance (Exception "boom") "MaxRetriesExceeded" = false
  /\ exc_class (Exception "boom") <> "MaxRetriesExceeded"%string
  /\ Utils.invocations
       (snd (Utils.retry_with_backoff (always_raise (Exception "boom")) no_sleep 3 1 0%nat))
     <> Z.to_nat (3 + 1).
Proof.
  repeat split; try (vm_compute; reflexivity); vm_compute; discriminate.
Qed.

(** C2, amended.  For every policy of retry.py with [max_retries >= 0] and
    non-negative [initial_delay], [max_delay] and [backoff_factor], and
    every operation that fails at every call with an error of the caught
    classes: the operation is called exactly [max_retries + 1] times, with
    [max_retries] sleeps in between, and the error of the last call is
    re-raised as it is. *)
Theorem retry_exhausted_reraises_last {St V : Type}
    (func : St -> outcome V * St) (time_sleep : Q -> St -> St)
    (max_retries : Z) (initial_delay max_delay backoff_factor : Q)
    (exceptions : list string) (st : St) :
  0 <= max_retries ->
  (0 <= initial_delay)%Q -> (0 <= max_delay)%Q -> (0 <= backoff_factor)%Q ->
  (forall s, exists e s', func s = (Raise e, s') /\ isinstance_any e exceptions = true) ->
  exists e st_last st' tr,
    Retry.retry_with_backoff func time_sleep max_retries max_delay backoff_factor
                             exceptions initial_delay st
    = (Raise e, st', tr)
    /\ Utils.invocations tr = Z.to_nat (max_retries + 1)
    /\ length (Utils.sleeps tr) = Z.to_nat max_retries
    /\ func st_last = (Raise e, st')
    /\ isinstance_any e exceptions = true.
Proof.
  intros Hmr Hi Hm Hb Hfail. unfold Retry.retry_with_backoff.
  replace (Z.to_nat (max_retries + 1)) with (S (Z.to_nat max_retries)) by lia.
  apply retry_loop_all_fail; try assumption. lia.
Qed.

Lemma retry_exhausted_reraises_last_witness :
  exists e st_last st' tr,
    Retry.retry_with_backoff (always_raise (Exception "boom")) no_sleep
                             3 60 2 ["Exception"%string] 1 0%nat
    = (Raise e, st', tr)
    /\ Utils.invocations tr = 4%nat
    /\ length (Utils.sleeps tr) = 3%nat
    /\ always_raise (Exception "boom") st_last = (Raise e, st')
    /\ isinstance_any e ["Exception"%string] = true.
Proof.
  apply (retry_exhausted_reraises_last (always_raise (Exception "boom")) no_sleep
           3 1 60 2 ["Exception"%string] 0%nat).
  - lia.
  - vm_compute; discriminate.
  - vm_compute; discriminate.
  - vm_compute; discriminate.
  - intros s. exists (Exception "boom"), (S s). split; reflexivity.
Defined.

Section ScriptedRetry.
Import Utils.
Context {V : Type}.
Variable script : nat -> outcome V.
Variable max_retries : Z.
Variable max_delay backoff_factor : Q.
Variable exceptions : list string.
Hypothesis backoff_nonneg : (0 <= backoff_factor)%Q.
Hypothesis max_delay_nonneg : (0 <= max_delay)%Q.

Local Abbreviation sloop :=
  (Retry.retry_loop (scripted script) no_sleep max_retries max_delay
                    backoff_factor exceptions).

(** [j] caught failures followed by an error that is not caught. *)
Lemma scripted_loop_not_caught (k : nat) (e : exn) :
  Z.of_nat k <= max_retries ->
  (forall i, (i < k)%nat ->
             exists ei, script i = Raise ei /\ isinstance_any ei exceptions = true) ->
  script k = Raise e ->
  isinstance_any e exceptions = false ->
  forall j n fuel delay last_exception,
    (n + j = k)%nat ->
    Z.of_nat n + Z.of_nat fuel = max_retries + 1 ->
    (0 <= delay)%Q ->
    exists tr,
      sloop fuel (Z.of_nat n) delay last_exception n = (Raise e, S k, tr)
      /\ invocations tr = S j
      /\ length (sleeps tr) = j
      /\ last tr = Some Invoke.
Proof.
  intros Hk Hpre Hlast Hnc. induction j as [|j IH]; intros n fuel delay lst Hn Hfuel Hd.
  - assert (n = k) as -> by lia.
    destruct fuel as [|fuel]; [lia|].
    exists [Invoke].
    rewrite (retry_loop_not_caught (scripted script) no_sleep max_retries max_delay
               backoff_factor exceptions fuel (Z.of_nat k) delay lst k e (S k));
      [auto | unfold scripted; rewrite Hlast; reflexivity | exact Hnc].
  - destruct (Hpre n) as (ei & Hsi & Hci); [lia|].
    destruct fuel as [|fuel]; [lia|].
    rewrite (retry_loop_caught (scripted script) no_sleep max_retries max_delay
               backoff_factor exceptions fuel (Z.of_nat n) delay lst n ei (S n));
      [ | unfold scripted; rewrite Hsi; reflexivity | exact Hci | lia | exact Hd].
    destruct (IH (S n) fuel (Qmin (delay * backoff_factor) max_delay) (Some ei))
      as (tr & Hl & Hi & Hs & Hlst).
    { lia. }
    { lia. }
    { apply next_delay_nonneg; assumption. }
    exists (Invoke :: Sleep delay :: tr).
    replace (Z.of_nat n + 1) with (Z.of_nat (S n)) by lia.
    change (no_sleep delay (S n)) with (S n). rewrite Hl.
    split; [reflexivity|].
    split; [simpl; rewrite Hi; reflexivity|].
    split; [simpl; rewrite Hs; reflexivity|].
    destruct tr as [|ev tr]; [discriminate|].
    change (last (Invoke :: Sleep delay :: ev :: tr)) with (last (ev :: tr)).
    exact Hlst.
Qed.
End ScriptedRetry.

Lemma isinstance_default_exceptions (e : exn) :
  isinstance_any e Retry.default_exceptions = isinstance e "Exception".
Proof. unfold isinstance_any, Retry.default_exceptions. simpl. apply orb_false_r. Qed.

(** C7, as stated, fails in its second half.  The default [exceptions] of
    retry.py is [Exception]: the error raised for an open breaker and the
    error raised for an exceeded rate limit are plain [Exception]s, so the
    default classifies them as retryable, and an operation that keeps
    failing with the open-breaker error is called 4 times.  A class named
    [CircuitOpenError] derived from [Exception] would be retried too. *)
Lemma default_retryable_counterexample :
  let breaker := CircuitBreaker.record_failure
                   (CircuitBreaker.init 1 60 "Exception") 100 in
  let open_error := Exception "Circuit breaker is OPEN, waiting 60s for recovery" in
  let limit_error := Exception "Rate limit exceeded for like_tweet" in
  fst (fst (CircuitBreaker.circuit_breaker
              (always_raise (Exception "down")) breaker 101 101 0%nat))
  = Raise open_error
  /\ fst (fst (Utils.rate_limit 1 900 "like_tweet"
                 (always_raise (Exception "down")) [100%Q] 101 0%nat))
     = Raise limit_error
  /\ isinstance_any open_error Retry.default_exceptions = true
  /\ isinstance_any limit_error Retry.default_exceptions = true
  /\ isinstance_any (Exn ["CircuitOpenError"; "Exception"; "BaseException"]%string "")
                    Retry.default_exceptions = true
  /\ Utils.invocations
       (snd (Retry.retry_with_backoff (always_raise open_error) no_sleep
               Retry.default_max_retries Retry.default_max_delay
               Retry.default_backoff_factor Retry.default_exceptions
               Retry.default_initial_delay 0%nat))
     = 4%nat.
Proof.
  repeat split; vm_compute; reflexivity.
Qed.

(** C7, amended.  In retry.py an error outside the caught classes is
    raised to the caller by the very call that produced it: after [k]
    caught failures ([k <= max_retries]) the operation has been called
    [k + 1] times, [k] sleeps were made and nothing follows the failing
    call.  The default classification catches every error derived from
    [Exception], the errors raised for an open breaker or an exceeded rate
    limit included. *)
Theorem non_retryable_error_propagates {V : Type}
    (script : nat -> outcome V) (max_retries : Z)
    (initial_delay max_delay backoff_factor : Q) (exceptions : list string)
    (k : nat) (e : exn) :
  (0 <= initial_delay)%Q -> (0 <= max_delay)%Q -> (0 <= backoff_factor)%Q ->
  Z.of_nat k <= max_retries ->
  (forall i, (i < k)%nat ->
             exists ei, script i = Raise ei /\ isinstance_any ei exceptions = true) ->
  script k = Raise e ->
  isinstance_any e exceptions = false ->
  (exists tr,
      Retry.retry_with_backoff (scripted script) no_sleep max_retries max_delay
                               backoff_factor exceptions initial_delay 0%nat
      = (Raise e, S k, tr)
      /\ Utils.invocations tr = S k
      /\ length (Utils.sleeps tr) = k
      /\ last tr = Some Utils.Invoke)
  /\ (forall e', isinstance e' "Exception" = true ->
                 isinstance_any e' Retry.default_exceptions = true)
  /\ (forall msg, isinstance_any (Exception msg) Retry.default_exceptions = true).
Proof.
  intros Hi Hm Hb Hk Hpre Hlast Hnc. split; [|split].
  - unfold Retry.retry_with_backoff.
    apply (scripted_loop_not_caught script max_retries max_delay backoff_factor
             exceptions Hb Hm k e Hk Hpre Hlast Hnc k 0%nat); [lia | lia | exact Hi].
  - intros e' He'. rewrite isinstance_default_exceptions. exact He'.
  - intros msg. reflexivity.
Qed.

(** One caught [ValueError], then a [KeyboardInterrupt] while only
    [ValueError] is caught. *)
Lemma non_retryable_error_propagates_witness :
  exists tr,
    Retry.retry_with_backoff
      (scripted (fun i => match i with
                          | O => Raise (ValueError "bad")
                          | _ => @Raise unit KeyboardInterrupt
                          end))
      no_sleep 3 60 2 ["ValueError"%string] 1 0%nat
    = (Raise KeyboardInterrupt, 2%nat, tr)
    /\ Utils.invocations tr = 2%nat
    /\ length (Utils.sleeps tr) = 1%nat
    /\ last tr = Some Utils.Invoke.
Proof.
  refine (proj1 (non_retryable_error_propagates
                   (fun i => match i with
                             | O => Raise (ValueError "bad")
                             | _ => @Raise unit KeyboardInterrupt
                             end)
                   3 1 60 2 ["ValueError"%string] 1 KeyboardInterrupt _ _ _ _ _ _ _)).
  - vm_compute; discriminate.
  - vm_compute; discriminate.
  - vm_compute; discriminate.
  - lia.
  - intros i Hi. assert (i = O) as -> by lia.
    exists (ValueError "bad"). split; reflexivity.
  - reflexivity.
  - reflexivity.
Defined.

(** *** The delays of retry.py *)

Section RetryDelays.
Import Utils Retry.
Variable max_delay backoff_factor : Q.

Lemma backoff_delays_length n d :
  length (backoff_delays max_delay backoff_factor n d) = n.
Proof.
  revert d. induction n as [|n IH]; intros d; simpl; [reflexivity|].
  rewrite IH. reflexivity.
Qed.

Lemma backoff_delays_lookup n : forall d k,
  (k < n)%nat ->
  backoff_delays max_delay backoff_factor n d !! k
  = Some (Nat.iter k (next_delay max_delay backoff_factor) d).
Proof.
  induction n as [|n IH]; intros d k Hk; [lia|].
  destruct k as [|k]; [reflexivity|].
  simpl backoff_delays. change ((?x :: ?l) !! S k) with (l !! k).
  rewrite IH by lia. rewrite Nat.iter_succ_r. reflexivity.
Qed.

(** The closed form of the delay before every retry but the first. *)
Lemma iter_next_delay_closed (initial : Q) (k : nat) :
  (1 <= backoff_factor)%Q -> (0 <= max_delay)%Q ->
  (Nat.iter (S k) (next_delay max_delay backoff_factor) initial
   == Qmin (initial * backoff_factor ^ Z.of_nat (S k)) max_delay)%Q.
Proof.
  intros Hb Hm. induction k as [|k IH].
  - change (Nat.iter 1 (next_delay max_delay backoff_factor) initial)
      with (Qmin (initial * backoff_factor) max_delay).
    change (Z.of_nat 1) with 1. rewrite Qpower_1_r. reflexivity.
  - rewrite Nat.iter_succ. unfold next_delay at 1. rewrite IH.
    replace (Z.of_nat (S (S k))) with (Z.of_nat (S k) + 1) by lia.
    rewrite Qpower_plus' by lia. rewrite Qpower_1_r.
    set (a := (initial * backoff_factor ^ Z.of_nat (S k))%Q).
    assert (Ha : (initial * (backoff_factor ^ Z.of_nat (S k) * backoff_factor)
                  == a * backoff_factor)%Q) by (unfold a; ring).
    rewrite Ha. clearbody a. clear IH Ha.
    destruct (Q.min_spec a max_delay) as [[H1 E1]|[H1 E1]]; rewrite E1.
    + reflexivity.
    + destruct (Q.min_spec (max_delay * backoff_factor) max_delay) as [[H2 E2]|[H2 E2]];
        destruct (Q.min_spec (a * backoff_factor) max_delay) as [[H3 E3]|[H3 E3]];
        rewrite E2, E3; try reflexivity; nra.
Qed.

(** When [initial_delay] is itself below the cap, the first delay
    follows the closed form too. *)
Lemma iter_next_delay_closed_capped (initial : Q) (k : nat) :
  (1 <= backoff_factor)%Q -> (0 <= max_delay)%Q -> (initial <= max_delay)%Q ->
  (Nat.iter k (next_delay max_delay backoff_factor) initial
   == Qmin (initial * backoff_factor ^ Z.of_nat k) max_delay)%Q.
Proof.
  intros Hb Hm Hi. destruct k as [|k].
  - simpl. rewrite Qmult_1_r. symmetry. apply Q.min_l. exact Hi.
  - apply iter_next_delay_closed; assumption.
Qed.

Context {St V : Type}.
Variable func : St -> outcome V * St.
Variable time_sleep : Q -> St -> St.
Variable max_retries : Z.
Variable exceptions : list string.

(** While the operation keeps failing, the delays slept are the
    successive values of [delay]. *)
Lemma retry_loop_all_fail_sleeps :
  (forall st, exists e st', func st = (Raise e, st')
                            /\ isinstance_any e exceptions = true) ->
  (0 <= backoff_factor)%Q -> (0 <= max_delay)%Q ->
  forall fuel retry delay last_exception st,
    retry + Z.of_nat (S fuel) = max_retries + 1 ->
    (0 <= delay)%Q ->
    sleeps (snd (Retry.retry_loop func time_sleep max_retries max_delay
                   backoff_factor exceptions (S fuel) retry delay last_exception st))
    = backoff_delays max_delay backoff_factor fuel delay.
Proof.
  intros Hfail Hb Hm.
  induction fuel as [|fuel IH]; intros retry delay lst st Hidx Hd.
  - destruct (Hfail st) as (e & st' & Hf & Hc).
    assert (retry = max_retries) as -> by lia.
    rewrite (retry_loop_last func time_sleep max_retries max_delay backoff_factor
               exceptions 0 delay lst st e st' Hf Hc). reflexivity.
  - destruct (Hfail st) as (e & st' & Hf & Hc).
    rewrite (retry_loop_caught func time_sleep max_retries max_delay backoff_factor
               exceptions (S fuel) retry delay lst st e st' Hf Hc) by (lia || exact Hd).
    specialize (IH (retry + 1) (Qmin (delay * backoff_factor) max_delay) (Some e)
                   (time_sleep delay st')).
    destruct (Retry.retry_loop _ _ _ _ _ _ (S fuel) _ _ _ _) as [[o st2] tr].
    simpl in *. rewrite IH; [reflexivity | lia | apply next_delay_nonneg; assumption].
Qed.
End RetryDelays.

(** Delay before retry [k] (1-indexed), for [k >= 2] or a capped
    [initial_delay], with the products computed exactly:
    [min(initial_delay * backoff_factor^(k-1), max_delay)]. *)
Lemma retry_delay_closed_form {St V : Type}
    (func : St -> outcome V * St) (time_sleep : Q -> St -> St)
    (max_retries : Z) (initial_delay max_delay backoff_factor : Q)
    (exceptions : list string) (st : St) (k : nat) :
  (0 <= initial_delay)%Q -> (0 <= max_delay)%Q -> (1 <= backoff_factor)%Q ->
  (forall s, exists e s', func s = (Raise e, s') /\ isinstance_any e exceptions = true) ->
  (1 <= k)%nat -> Z.of_nat k <= max_retries ->
  (2 <= k)%nat \/ (initial_delay <= max_delay)%Q ->
  exists d,
    Utils.sleeps (snd (Retry.retry_with_backoff func time_sleep max_retries max_delay
                         backoff_factor exceptions initial_delay st)) !! (k - 1)%nat
    = Some d
    /\ (d == Qmin (initial_delay * backoff_factor ^ Z.of_nat (k - 1)) max_delay)%Q.
Proof.
  intros Hi Hm Hb Hfail Hk1 Hk Hcase.
  unfold Retry.retry_with_backoff.
  replace (Z.to_nat (max_retries + 1)) with (S (Z.to_nat max_retries)) by lia.
  rewrite (retry_loop_all_fail_sleeps max_delay backoff_factor func time_sleep
             max_retries exceptions Hfail) by (lia || lra).
  rewrite backoff_delays_lookup by lia.
  eexists. split; [reflexivity|].
  destruct Hcase as [H2|Hcap].
  - replace (k - 1)%nat with (S (k - 2)) by lia.
    apply iter_next_delay_closed; assumption.
  - apply iter_next_delay_closed_capped; assumption.
Qed.

(** C8.  The code departs from the claim at the first retry: with
    [initial_delay=100] and [max_delay=60] the delay slept before retry 1
    is 100, while [min(initial_delay * backoff_factor^0, max_delay)] is 60;
    the delay before retry 2 is 60 as claimed. *)
Theorem first_delay_not_capped :
  Utils.sleeps
    (snd (Retry.retry_with_backoff (always_raise (Exception "boom")) no_sleep
            2 60 2 ["Exception"%string] 100 0%nat))
  = [100%Q; 60%Q]
  /\ (Qmin (100 * 2 ^ 0) 60 == 60)%Q
  /\ (60 < 100)%Q.
Proof.
  split; [vm_compute; reflexivity|]. split; vm_compute; reflexivity.
Qed.

(** ** The token bucket of utils.py *)

(** *** Arithmetic of one refill *)

(** Name both minima of a goal and keep what [Q.min_spec] says of them. *)
Ltac name_qmin :=
  repeat match goal with
         | |- context [Qmin ?x ?y] =>
             lazymatch x with
             | context [Qmin _ _] => fail
             | _ => idtac
             end;
             lazymatch y with
             | context [Qmin _ _] => fail
             | _ => idtac
             end;
             let m := fresh "m" in
             pose proof (Q.min_spec x y);
             set (m := Qmin x y) in *; clearbody m
         end.

Section RefillArith.
Import Utils.
Variable lim : Limit.
Hypothesis cap_nonneg : 0 <= max_requests lim.
Hypothesis period_pos : 0 < time_window lim.

Local Abbreviation cap := (inject_Z (max_requests lim)).
Local Abbreviation period := (inject_Z (time_window lim)).

Lemma cap_nonneg_Q : (0 <= cap)%Q.
Proof. change 0%Q with (inject_Z 0). rewrite <- Zle_Qle. exact cap_nonneg. Qed.

Lemma period_pos_Q : (0 < period)%Q.
Proof. change 0%Q with (inject_Z 0). rewrite <- Zlt_Qlt. exact period_pos. Qed.

(** The tokens gained over [d] seconds: [d * max_requests / time_window]. *)
Lemma gain_nonneg (d : Q) : (0 <= d)%Q -> (0 <= d * cap / period)%Q.
Proof.
  intros Hd. apply Qle_shift_div_l; [apply period_pos_Q|].
  rewrite Qmult_0_l. apply Qmult_le_0_compat; [exact Hd | apply cap_nonneg_Q].
Qed.

Lemma gain_plus (d1 d2 : Q) :
  ((d1 + d2) * cap / period == d1 * cap / period + d2 * cap / period)%Q.
Proof. pose proof period_pos_Q. field. lra. Qed.

Lemma gain_mono (d1 d2 : Q) :
  (d1 <= d2)%Q -> (d1 * cap / period <= d2 * cap / period)%Q.
Proof.
  intros Hd. pose proof (gain_nonneg (d2 - d1)) as Hg.
  pose proof (gain_plus d1 (d2 - d1)) as Hp.
  assert (He : (d1 + (d2 - d1) == d2)%Q) by ring.
  rewrite He in Hp. lra.
Qed.

Lemma refill_le_cap (t l now : Q) : (refill lim t l now <= cap)%Q.
Proof. unfold refill. apply Q.le_min_l. Qed.

Lemma refill_ge (t l now : Q) :
  (t <= cap)%Q -> (l <= now)%Q -> (t <= refill lim t l now)%Q.
Proof.
  intros Ht Hl. unfold refill.
  pose proof (gain_nonneg (now - l)) as Hg.
  apply Q.min_glb; lra.
Qed.

Lemma refill_same_time (t l : Q) : (t <= cap)%Q -> (refill lim t l l == t)%Q.
Proof.
  intros Ht. unfold refill.
  assert (He : ((l - l) * cap / period == 0)%Q).
  { pose proof period_pos_Q. field. lra. }
  rewrite He. rewrite Q.min_r; lra.
Qed.

Lemma refill_proper (t t' l now : Q) :
  (t == t')%Q -> (refill lim t l now == refill lim t' l now)%Q.
Proof. intros He. unfold refill. rewrite He. reflexivity. Qed.

(** Refilling at [now1] and again at [now2] is refilling once at [now2]. *)
Lemma refill_twice (t l now1 now2 : Q) :
  (now1 <= now2)%Q ->
  (refill lim (refill lim t l now1) now1 now2 == refill lim t l now2)%Q.
Proof.
  intros Hn. unfold refill.
  pose proof (gain_nonneg (now2 - now1)) as Hg.
  pose proof (gain_plus (now1 - l) (now2 - now1)) as Hp.
  assert (He : (now1 - l + (now2 - now1) == now2 - l)%Q) by ring.
  rewrite He in Hp. clear He.
  set (A := ((now1 - l) * cap / period)%Q) in *.
  set (B := ((now2 - now1) * cap / period)%Q) in *.
  set (C := ((now2 - l) * cap / period)%Q) in *.
  clearbody A B C.
  name_qmin. lra.
Qed.

(** Between two readings a bucket gains at most the refill of the time
    between them. *)
Lemma refill_later (t l now1 now2 : Q) :
  (now1 <= now2)%Q ->
  (refill lim t l now2 <= refill lim t l now1 + (now2 - now1) * cap / period)%Q.
Proof.
  intros Hn. unfold refill.
  pose proof (gain_nonneg (now2 - now1)) as Hg.
  pose proof (gain_plus (now1 - l) (now2 - now1)) as Hp.
  assert (He : (now1 - l + (now2 - now1) == now2 - l)%Q) by ring.
  rewrite He in Hp. clear He.
  set (A := ((now1 - l) * cap / period)%Q) in *.
  set (B := ((now2 - now1) * cap / period)%Q) in *.
  set (C := ((now2 - l) * cap / period)%Q) in *.
  clearbody A B C.
  name_qmin. lra.
Qed.
End RefillArith.

(** Distinct names of a concrete configuration. *)
Ltac nodup_names :=
  simpl;
  repeat (apply NoDup_cons_2;
          [rewrite list_elem_of_In; simpl; intuition discriminate|]);
  apply NoDup_nil_2.

(** *** One call of [acquire] *)

Lemma forallb_eq_on {A : Type} (f g : A -> bool) (l : list A) :
  (forall x, In x l -> f x = g x) -> forallb f l = forallb g l.
Proof.
  induction l as [|x l IH]; intros H; simpl; [reflexivity|].
  rewrite (H x) by (left; reflexivity).
  rewrite IH; [reflexivity|]. intros y Hy. apply H. right. exact Hy.
Qed.

Lemma in_map_fst {A B : Type} (x : A) (y : B) (l : list (A * B)) :
  In (x, y) l -> In x (map fst l).
Proof. intros H. change x with (fst (x, y)). apply in_map. exact H. Qed.

Section AcquireFacts.
Import Utils.

Lemma window_ok_insert_ne tk lu now w x y wl :
  fst wl <> w ->
  window_ok (<[w := x]> tk) (<[w := y]> lu) now wl = window_ok tk lu now wl.
Proof.
  intros Hne. unfold window_ok.
  rewrite !lookup_insert_ne by congruence. reflexivity.
Qed.

Lemma has_keys_insert ls tk lu w x y :
  has_keys ls tk lu -> has_keys ls (<[w := x]> tk) (<[w := y]> lu).
Proof.
  unfold has_keys. intros H. eapply Forall_impl; [exact H|].
  intros wl [Ht Hl]. simpl.
  destruct (decide (w = fst wl)) as [->|Hne].
  - rewrite !lookup_insert_eq. split; eexists; reflexivity.
  - rewrite !lookup_insert_ne by exact Hne. split; assumption.
Qed.

(** The first loop: its answer, and what it leaves in the dictionaries.
    A window is either refilled and stamped with [now], or - only when
    the answer is [False] - not reached and left as it was. *)
Lemma acquire_check_spec now ls : forall tk lu,
  NoDup (map fst ls) ->
  Forall (fun wl => time_window (snd wl) <> 0) ls ->
  has_keys ls tk lu ->
  exists tk' lu',
    acquire_check now ls tk lu
    = (Return (forallb (window_ok tk lu now) ls), tk', lu')
    /\ (forall w lim t l,
           In (w, lim) ls -> tk !! w = Some t -> lu !! w = Some l ->
           (tk' !! w = Some (refill lim t l now) /\ lu' !! w = Some now)
           \/ (forallb (window_ok tk lu now) ls = false
               /\ tk' !! w = Some t /\ lu' !! w = Some l))
    /\ (forall w, ~ In w (map fst ls) ->
                  tk' !! w = tk !! w /\ lu' !! w = lu !! w).
Proof.
  induction ls as [|[w lim] rest IH]; intros tk lu Hnd Hper Hkeys.
  - exists tk, lu. simpl. split; [reflexivity|]. split.
    + intros ? ? ? ? [].
    + intros; split; reflexivity.
  - inversion Hnd as [|? ? Hnotin Hnd']; subst.
    inversion Hper as [|? ? Hp Hper']; subst.
    inversion Hkeys as [|? ? [[t Ht] [l Hl]] Hkeys']; subst.
    simpl in Hp, Ht, Hl, Hnotin. rewrite list_elem_of_In in Hnotin.
    assert (Hrest_ne : forall w' lim', In (w', lim') rest -> w' <> w).
    { intros w' lim' Hin ->. apply Hnotin. eapply in_map_fst; exact Hin. }
    assert (Hwok : window_ok tk lu now (w, lim)
                   = negb (Qltb (refill lim t l now) 1)).
    { unfold window_ok. simpl. rewrite Ht, Hl. reflexivity. }
    cbn [acquire_check forallb]. rewrite Hl, Ht, Hwok.
    apply Z.eqb_neq in Hp. rewrite Hp.
    destruct (Qltb (refill lim t l now) 1) eqn:Hlt; cbn [negb andb].
    + (* this window is short: stop *)
      do 2 eexists. split; [reflexivity|]. split.
      * intros w' lim' t' l' [Heq|Hin] Ht' Hl'.
        -- inversion Heq; subst. left.
           rewrite !lookup_insert_eq. split; congruence.
        -- right. pose proof (Hrest_ne w' lim' Hin) as Hne.
           rewrite !lookup_insert_ne by congruence. auto.
      * intros w' Hnot. simpl in Hnot.
        rewrite !lookup_insert_ne by (intros ->; apply Hnot; left; reflexivity).
        split; reflexivity.
    + (* this window passes: go on with the rest *)
      destruct (IH (<[w := refill lim t l now]> tk) (<[w := now]> lu))
        as (tk' & lu' & Hrun & Hin' & Hout'); [exact Hnd' | exact Hper' | |].
      { apply has_keys_insert. exact Hkeys'. }
      assert (Hsame : forallb (window_ok (<[w := refill lim t l now]> tk)
                                         (<[w := now]> lu) now) rest
                      = forallb (window_ok tk lu now) rest).
      { apply forallb_eq_on. intros [w' lim'] Hin.
        apply window_ok_insert_ne. simpl. eapply Hrest_ne; exact Hin. }
      rewrite Hsame in Hrun, Hin'.
      exists tk', lu'. split; [exact Hrun|]. split.
      * intros w' lim' t' l' [Heq|Hin] Ht' Hl'.
        -- inversion Heq; subst. left.
           destruct (Hout' w' Hnotin) as [E1 E2].
           rewrite E1, E2, !lookup_insert_eq. split; congruence.
        -- pose proof (Hrest_ne w' lim' Hin) as Hne.
           apply (Hin' w' lim' t' l' Hin);
             rewrite lookup_insert_ne by congruence; assumption.
      * intros w' Hnot. simpl in Hnot.
        destruct (Hout' w') as [E1 E2].
        { intros Hin. apply Hnot. right. exact Hin. }
        rewrite E1, E2.
        rewrite !lookup_insert_ne by (intros ->; apply Hnot; left; reflexivity).
        split; reflexivity.
Qed.

(** The second loop takes one token from every window. *)
Lemma deduct_spec ls : forall tk,
  NoDup (map fst ls) ->
  Forall (fun wl => is_Some (tk !! fst wl)) ls ->
  exists tk',
    deduct ls tk = (Return tt, tk')
    /\ (forall w lim t, In (w, lim) ls -> tk !! w = Some t ->
                        tk' !! w = Some (t - 1)%Q)
    /\ (forall w, ~ In w (map fst ls) -> tk' !! w = tk !! w).
Proof.
  induction ls as [|[w lim] rest IH]; intros tk Hnd Hkeys.
  - exists tk. simpl. split; [reflexivity|]. split.
    + intros ? ? ? [].
    + reflexivity.
  - inversion Hnd as [|? ? Hnotin Hnd']; subst.
    inversion Hkeys as [|? ? [t Ht] Hkeys']; subst.
    simpl in Ht, Hnotin. rewrite list_elem_of_In in Hnotin.
    simpl. rewrite Ht.
    destruct (IH (<[w := (t - 1)%Q]> tk)) as (tk' & Hrun & Hin' & Hout');
      [exact Hnd' | |].
    { eapply Forall_impl; [exact Hkeys'|]. intros wl Hs. simpl.
      destruct (decide (w = fst wl)) as [->|Hne].
      - rewrite lookup_insert_eq. eexists; reflexivity.
      - rewrite lookup_insert_ne by exact Hne. exact Hs. }
    exists tk'. split; [exact Hrun|]. split.
    + intros w' lim' t' [Heq|Hin] Ht'.
      * inversion Heq; subst.
        rewrite (Hout' w' Hnotin), lookup_insert_eq. congruence.
      * assert (Hne : w' <> w).
        { intros ->. apply Hnotin. eapply in_map_fst; exact Hin. }
        apply (Hin' w' lim' t' Hin).
        rewrite lookup_insert_ne by congruence. exact Ht'.
    + intros w' Hnot. simpl in Hnot.
      rewrite Hout' by (intros Hin; apply Hnot; right; exact Hin).
      rewrite lookup_insert_ne by (intros ->; apply Hnot; left; reflexivity).
      reflexivity.
Qed.
End AcquireFacts.

Section AcquireSpec.
Import Utils.

Lemma wf_limits_nodup ls : wf_limits ls -> NoDup (map fst ls).
Proof. intros [H _]. exact H. Qed.

Lemma wf_limits_period ls :
  wf_limits ls -> Forall (fun wl => time_window (snd wl) <> 0) ls.
Proof.
  intros [_ H]. eapply Forall_impl; [exact H|].
  intros wl [_ Hp]. simpl in *. lia.
Qed.

Lemma wf_limits_in ls w lim :
  wf_limits ls -> In (w, lim) ls -> 0 <= max_requests lim /\ 0 < time_window lim.
Proof.
  intros [_ H] Hin. rewrite Forall_forall in H.
  apply (H (w, lim)). apply list_elem_of_In. exact Hin.
Qed.

Lemma has_keys_in ls tk lu w lim :
  has_keys ls tk lu -> In (w, lim) ls ->
  exists t l, tk !! w = Some t /\ lu !! w = Some l.
Proof.
  unfold has_keys. rewrite Forall_forall. intros H Hin.
  destruct (H (w, lim)) as [[t Ht] [l Hl]]; [apply list_elem_of_In; exact Hin|].
  exists t, l. split; assumption.
Qed.

(** One call of [acquire] on a limiter whose dictionaries are complete:
    it answers whether every window holds a token once refilled; if so
    every window is refilled, stamped and charged one token; if not,
    every window is either refilled and stamped or left as it was. *)
Lemma acquire_spec rl now :
  NoDup (map fst (limits rl)) ->
  Forall (fun wl => time_window (snd wl) <> 0) (limits rl) ->
  has_keys (limits rl) (tokens rl) (last_update rl) ->
  exists rl',
    acquire rl now = (Return (all_ok rl now), rl')
    /\ limits rl' = limits rl
    /\ forall w lim t l,
         In (w, lim) (limits rl) ->
         tokens rl !! w = Some t -> last_update rl !! w = Some l ->
         if all_ok rl now
         then tokens rl' !! w = Some (refill lim t l now - 1)%Q
              /\ last_update rl' !! w = Some now
         else (tokens rl' !! w = Some (refill lim t l now)
               /\ last_update rl' !! w = Some now)
              \/ (tokens rl' !! w = Some t /\ last_update rl' !! w = Some l).
Proof.
  intros Hnd Hper Hkeys.
  destruct (acquire_check_spec now (limits rl) (tokens rl) (last_update rl)
              Hnd Hper Hkeys) as (tk' & lu' & Hrun & Hin' & Hout').
  unfold acquire, all_ok. rewrite Hrun.
  destruct (forallb _ _) eqn:Hb.
  - assert (Hrefilled : forall w lim t l,
               In (w, lim) (limits rl) ->
               tokens rl !! w = Some t -> last_update rl !! w = Some l ->
               tk' !! w = Some (refill lim t l now) /\ lu' !! w = Some now).
    { intros w lim t l Hin Ht Hl.
      destruct (Hin' w lim t l Hin Ht Hl) as [H|[H _]]; [exact H | discriminate]. }
    destruct (deduct_spec (limits rl) tk' Hnd) as (tk'' & Hded & Hin'' & _).
    { apply Forall_forall. intros [w lim] Hin. apply list_elem_of_In in Hin.
      destruct (has_keys_in _ _ _ w lim Hkeys Hin) as (t & l & Ht & Hl).
      destruct (Hrefilled w lim t l Hin Ht Hl) as [E _].
      simpl. rewrite E. eexists; reflexivity. }
    rewrite Hded. eexists. split; [reflexivity|]. split; [reflexivity|].
    intros w lim t l Hin Ht Hl. simpl.
    destruct (Hrefilled w lim t l Hin Ht Hl) as [E1 E2].
    split; [|exact E2]. apply (Hin'' w lim _ Hin E1).
  - eexists. split; [reflexivity|]. split; [reflexivity|].
    intros w lim t l Hin Ht Hl. simpl.
    destruct (Hin' w lim t l Hin Ht Hl) as [H|[_ H]]; [left|right]; exact H.
Qed.

Lemma all_ok_true_iff rl now :
  has_keys (limits rl) (tokens rl) (last_update rl) ->
  all_ok rl now = true
  <-> forall w lim t l,
        In (w, lim) (limits rl) ->
        tokens rl !! w = Some t -> last_update rl !! w = Some l ->
        (1 <= refill lim t l now)%Q.
Proof.
  intros Hkeys. unfold all_ok. rewrite forallb_forall. split.
  - intros H w lim t l Hin Ht Hl. specialize (H (w, lim) Hin).
    unfold window_ok in H. simpl in H. rewrite Ht, Hl in H.
    apply negb_true_iff, Qltb_false_iff in H. exact H.
  - intros H [w lim] Hin.
    destruct (has_keys_in _ _ _ w lim Hkeys Hin) as (t & l & Ht & Hl).
    unfold window_ok. simpl. rewrite Ht, Hl.
    apply negb_true_iff, Qltb_false_iff. exact (H w lim t l Hin Ht Hl).
Qed.
End AcquireSpec.

(** C3.  One [acquire] call on a limiter with complete dictionaries and
    non-zero periods.  If some window holds less than one token once
    refilled, the call answers [False] and every window is left with
    either its refilled count or its old count: nothing is deducted.  If
    every window holds at least one token once refilled, the call answers
    [True] and every window is left with its refilled count minus one. *)
Theorem acquire_all_or_nothing (rl : Utils.RateLimiter) (now : Q) :
  NoDup (map fst (Utils.limits rl)) ->
  Forall (fun wl => Utils.time_window (snd wl) <> 0) (Utils.limits rl) ->
  has_keys (Utils.limits rl) (Utils.tokens rl) (Utils.last_update rl) ->
  ((exists w lim t l,
       In (w, lim) (Utils.limits rl)
       /\ Utils.tokens rl !! w = Some t /\ Utils.last_update rl !! w = Some l
       /\ (Utils.refill lim t l now < 1)%Q) ->
   fst (Utils.acquire rl now) = Return false
   /\ forall w lim t l,
        In (w, lim) (Utils.limits rl) ->
        Utils.tokens rl !! w = Some t -> Utils.last_update rl !! w = Some l ->
        Utils.tokens (snd (Utils.acquire rl now)) !! w = Some (Utils.refill lim t l now)
        \/ Utils.tokens (snd (Utils.acquire rl now)) !! w = Some t)
  /\ ((forall w lim t l,
          In (w, lim) (Utils.limits rl) ->
          Utils.tokens rl !! w = Some t -> Utils.last_update rl !! w = Some l ->
          (1 <= Utils.refill lim t l now)%Q) ->
      fst (Utils.acquire rl now) = Return true
      /\ forall w lim t l,
           In (w, lim) (Utils.limits rl) ->
           Utils.tokens rl !! w = Some t -> Utils.last_update rl !! w = Some l ->
           Utils.tokens (snd (Utils.acquire rl now)) !! w
           = Some (Utils.refill lim t l now - 1)%Q).
Proof.
  intros Hnd Hper Hkeys.
  destruct (acquire_spec rl now Hnd Hper Hkeys) as (rl' & Hrun & _ & Hwin).
  rewrite Hrun. simpl. split.
  - intros (w0 & lim0 & t0 & l0 & Hin0 & Ht0 & Hl0 & Hshort).
    assert (Hb : all_ok rl now = false).
    { destruct (all_ok rl now) eqn:Hb; [|reflexivity].
      pose proof (proj1 (all_ok_true_iff rl now Hkeys) Hb w0 lim0 t0 l0 Hin0 Ht0 Hl0).
      lra. }
    rewrite Hb in *. split; [reflexivity|].
    intros w lim t l Hin Ht Hl.
    destruct (Hwin w lim t l Hin Ht Hl) as [[H _]|[H _]]; [left|right]; exact H.
  - intros Hall.
    apply (all_ok_true_iff rl now Hkeys) in Hall. rewrite Hall in *.
    split; [reflexivity|].
    intros w lim t l Hin Ht Hl.
    destruct (Hwin w lim t l Hin Ht Hl) as [H _]. exact H.
Qed.

(** Two windows after one admitted call: at time 10 the second window is
    short, at time 100 both hold a token. *)
Lemma acquire_all_or_nothing_witness :
  let rl := snd (Utils.acquire
                   (Utils.init [("a"%string, Utils.Build_Limit 5 10);
                                ("b"%string, Utils.Build_Limit 1 100)] (fun _ => 0%Q)) 0) in
  fst (Utils.acquire rl 10) = Return false
  /\ fst (Utils.acquire rl 100) = Return true.
Proof.
  intros rl.
  assert (Hnd : NoDup (map fst (Utils.limits rl))).
  { nodup_names. }
  assert (Hper : Forall (fun wl => Utils.time_window (snd wl) <> 0) (Utils.limits rl)).
  { repeat constructor; simpl; lia. }
  assert (Hkeys : has_keys (Utils.limits rl) (Utils.tokens rl) (Utils.last_update rl)).
  { repeat constructor; vm_compute; eexists; reflexivity. }
  split.
  - refine (proj1 (proj1 (acquire_all_or_nothing rl 10 Hnd Hper Hkeys) _)).
    exists "b"%string, (Utils.Build_Limit 1 100), 0%Q, 0%Q.
    split; [right; left; reflexivity|].
    split; [vm_compute; reflexivity|].
    split; [vm_compute; reflexivity|].
    vm_compute. reflexivity.
  - refine (proj1 (proj2 (acquire_all_or_nothing rl 100 Hnd Hper Hkeys) _)).
    intros w lim t l [Heq|[Heq|[]]] Ht Hl; inversion Heq; subst;
      vm_compute in Ht; vm_compute in Hl; inversion Ht; inversion Hl; subst;
      vm_compute; discriminate.
Defined.

(** *** The invariant of the bucket *)

Section BucketInvariant.
Import Utils.

Lemma init_lookup lims : forall clock w lim,
  NoDup (map fst lims) ->
  In (w, lim) lims ->
  tokens (init lims clock) !! w = Some (inject_Z (max_requests lim))
  /\ exists i, last_update (init lims clock) !! w = Some (clock i).
Proof.
  induction lims as [|[w0 lim0] rest IH]; intros clock w lim Hnd Hin; [destruct Hin|].
  inversion Hnd as [|? ? Hnotin Hnd']; subst.
  simpl in Hnotin. rewrite list_elem_of_In in Hnotin.
  destruct Hin as [Heq|Hin].
  - inversion Heq; subst. simpl. rewrite !lookup_insert_eq.
    split; [reflexivity|]. exists O. reflexivity.
  - assert (Hne : w0 <> w).
    { intros ->. apply Hnotin. eapply in_map_fst; exact Hin. }
    destruct (IH (fun i => clock (S i)) w lim Hnd' Hin) as [Ht [i Hl]].
    simpl in *. rewrite !lookup_insert_ne by exact Hne.
    split; [exact Ht|]. exists (S i). exact Hl.
Qed.

Lemma bucket_inv_has_keys T rl :
  bucket_inv T rl -> has_keys (limits rl) (tokens rl) (last_update rl).
Proof.
  intros Hinv. apply Forall_forall. intros [w lim] Hin.
  apply list_elem_of_In in Hin.
  destruct (Hinv w lim Hin) as (t & l & Ht & Hl & _).
  simpl. rewrite Ht, Hl. split; eexists; reflexivity.
Qed.

Lemma bucket_inv_later T T' rl :
  (T <= T')%Q -> bucket_inv T rl -> bucket_inv T' rl.
Proof.
  intros HT Hinv w lim Hin.
  destruct (Hinv w lim Hin) as (t & l & Ht & Hl & H0 & Hc & Hlu).
  exists t, l. repeat split; try assumption. lra.
Qed.

Lemma bucket_inv_init lims clock T :
  wf_limits lims ->
  (forall i, (clock i <= T)%Q) ->
  bucket_inv T (init lims clock).
Proof.
  intros Hwf Hclock w lim Hin. simpl in Hin.
  destruct (init_lookup lims clock w lim (wf_limits_nodup _ Hwf) Hin) as [Ht [i Hl]].
  destruct (wf_limits_in lims w lim Hwf Hin) as [Hcap _].
  exists (inject_Z (max_requests lim)), (clock i).
  split; [exact Ht|]. split; [exact Hl|].
  split; [apply cap_nonneg_Q; exact Hcap|].
  split; [apply Qle_refl | apply Hclock].
Qed.

Lemma bucket_inv_acquire T now rl :
  wf_limits (limits rl) ->
  bucket_inv T rl ->
  (T <= now)%Q ->
  limits (snd (acquire rl now)) = limits rl
  /\ bucket_inv now (snd (acquire rl now)).
Proof.
  intros Hwf Hinv HT.
  pose proof (bucket_inv_has_keys T rl Hinv) as Hkeys.
  destruct (acquire_spec rl now (wf_limits_nodup _ Hwf) (wf_limits_period _ Hwf) Hkeys)
    as (rl' & Hrun & Hlims & Hwin).
  rewrite Hrun. simpl. split; [exact Hlims|].
  intros w lim Hin. rewrite Hlims in Hin.
  destruct (Hinv w lim Hin) as (t & l & Ht & Hl & H0 & Hc & Hlu).
  destruct (wf_limits_in _ w lim Hwf Hin) as [Hcap Hper].
  pose proof (refill_le_cap lim t l now) as Hle.
  pose proof (refill_ge lim Hcap Hper t l now Hc) as Hge.
  specialize (Hwin w lim t l Hin Ht Hl).
  destruct (all_ok rl now) eqn:Hb.
  - destruct Hwin as [E1 E2].
    pose proof (proj1 (all_ok_true_iff rl now Hkeys) Hb w lim t l Hin Ht Hl) as H1.
    exists (refill lim t l now - 1)%Q, now.
    repeat split; try assumption; lra.
  - destruct Hwin as [[E1 E2]|[E1 E2]].
    + exists (refill lim t l now), now.
      repeat split; try assumption; lra.
    + exists t, l. repeat split; try assumption; lra.
Qed.

Lemma reachable_inv lims T rl :
  wf_limits lims ->
  reachable lims T rl ->
  limits rl = lims /\ bucket_inv T rl.
Proof.
  intros Hwf Hreach. induction Hreach as [clock T Hclock | T now rl Hreach [IHl IHi] HT].
  - split; [reflexivity | apply bucket_inv_init; assumption].
  - destruct (bucket_inv_acquire T now rl) as [E Hinv]; try assumption.
    + rewrite IHl. exact Hwf.
    + split; [congruence | exact Hinv].
Qed.
End BucketInvariant.

(** C4.  In every limiter reached from construction by [acquire] calls at
    clock readings that never go back, every window holds a token count
    between 0 and its [max_requests]; and the refill of the next call, at
    any reading [now] no earlier than the last one, does not lower it. *)
Theorem tokens_within_capacity
    (lims : list (string * Utils.Limit)) (T : Q) (rl : Utils.RateLimiter)
    (w : string) (lim : Utils.Limit) :
  wf_limits lims ->
  reachable lims T rl ->
  In (w, lim) lims ->
  exists t l,
    Utils.tokens rl !! w = Some t
    /\ Utils.last_update rl !! w = Some l
    /\ (0 <= t)%Q /\ (t <= inject_Z (Utils.max_requests lim))%Q
    /\ forall now, (T <= now)%Q -> (t <= Utils.refill lim t l now)%Q.
Proof.
  intros Hwf Hreach Hin.
  destruct (reachable_inv lims T rl Hwf Hreach) as [Hl Hinv].
  rewrite <- Hl in Hin.
  destruct (Hinv w lim Hin) as (t & l & Ht & Hlu & H0 & Hc & Hle).
  rewrite Hl in Hin. destruct (wf_limits_in lims w lim Hwf Hin) as [Hcap Hper].
  exists t, l. repeat split; try assumption.
  intros now Hnow. apply refill_ge; try assumption. lra.
Qed.

(** The window of 2 requests per 10 seconds after calls at 0 and 4. *)
Lemma tokens_within_capacity_witness :
  let lims := [("w"%string, Utils.Build_Limit 2 10)] in
  let rl := snd (Utils.acquire (snd (Utils.acquire (Utils.init lims (fun _ => 0%Q)) 0)) 4) in
  exists t l,
    Utils.tokens rl !! "w"%string = Some t
    /\ Utils.last_update rl !! "w"%string = Some l
    /\ (0 <= t)%Q /\ (t <= inject_Z 2)%Q
    /\ forall now, (4 <= now)%Q -> (t <= Utils.refill (Utils.Build_Limit 2 10) t l now)%Q.
Proof.
  intros lims rl.
  apply (tokens_within_capacity lims 4 rl "w" (Utils.Build_Limit 2 10)).
  - split.
    + apply NoDup_singleton.
    + repeat constructor; simpl; lia.
  - apply (reachable_acquire lims 0 4).
    + apply (reachable_acquire lims 0 0).
      * apply reachable_init. intros i. apply Qle_refl.
      * apply Qle_refl.
    + vm_compute. discriminate.
  - left. reflexivity.
Defined.

(** *** Calls admitted in an interval of time *)

Lemma nat_Q_succ (n : nat) :
  (inject_Z (Z.of_nat (S n)) == 1 + inject_Z (Z.of_nat n))%Q.
Proof. rewrite Nat2Z.inj_succ. unfold Z.succ. rewrite inject_Z_plus. ring. Qed.

Lemma nondecreasing_from_refl t ts :
  nondecreasing_from t ts -> nondecreasing_from t (t :: ts).
Proof. intros H. split; [apply Qle_refl | exact H]. Qed.

Lemma admitted_in_none_after (a b : Q) : forall ts T os,
  nondecreasing_from T ts -> (b < T)%Q -> admitted_in a b ts os = O.
Proof.
  induction ts as [|t ts IH]; intros T os Hnd Hb; [reflexivity|].
  destruct Hnd as [HT Hnd]. destruct os as [|o os]; [reflexivity|].
  simpl. rewrite (IH t os Hnd) by lra.
  assert (Hle : Qle_bool t b = false).
  { destruct (Qle_bool t b) eqn:E; [|reflexivity]. apply Qle_bool_iff in E. lra. }
  rewrite Hle, andb_false_r. destruct o as [[|]|]; reflexivity.
Qed.

Section AdmittedInInterval.
Import Utils.
Variables (a b : Q) (w : string) (lim : Limit).

Local Abbreviation cap := (inject_Z (max_requests lim)).
Local Abbreviation period := (inject_Z (time_window lim)).

(** From a reading [T] inside the interval on, the calls admitted do not
    outnumber the tokens the window can hold at [T] plus the refill of
    the rest of the interval. *)
Lemma admitted_from_inside : forall ts rl T t l,
  wf_limits (limits rl) ->
  bucket_inv T rl ->
  nondecreasing_from T ts ->
  (a <= T)%Q -> (T <= b)%Q ->
  In (w, lim) (limits rl) ->
  tokens rl !! w = Some t -> last_update rl !! w = Some l ->
  (inject_Z (Z.of_nat (admitted_in a b ts (fst (acquire_all rl ts))))
   <= refill lim t l T + (b - T) * cap / period)%Q.
Proof.
  induction ts as [|t1 rest IH]; intros rl T t l Hwf Hinv Hnd Ha Hb Hin Ht Hl.
  - destruct (wf_limits_in _ w lim Hwf Hin) as [Hcap Hper].
    destruct (Hinv w lim Hin) as (t' & l' & Ht' & Hl' & H0 & Hc & Hlu).
    assert (t' = t) as -> by congruence. assert (l' = l) as -> by congruence.
    pose proof (refill_ge lim Hcap Hper t l T Hc Hlu).
    pose proof (gain_nonneg lim Hcap Hper (b - T) ltac:(lra)).
    cbn [acquire_all fst admitted_in]. change (inject_Z (Z.of_nat 0)) with 0%Q. lra.
  - destruct Hnd as [HT Hnd].
    destruct (wf_limits_in _ w lim Hwf Hin) as [Hcap Hper].
    destruct (Hinv w lim Hin) as (t' & l' & Ht' & Hl' & H0 & Hc & Hlu).
    assert (t' = t) as -> by congruence. assert (l' = l) as -> by congruence.
    clear Ht' Hl'.
    pose proof (refill_ge lim Hcap Hper t l T Hc Hlu) as HgeT.
    pose proof (gain_nonneg lim Hcap Hper (b - T) ltac:(lra)) as HgT.
    destruct (Qlt_le_dec b t1) as [Hlate|Hin_time].
    + rewrite (admitted_in_none_after a b (t1 :: rest) t1).
      * change (inject_Z (Z.of_nat 0)) with 0%Q. lra.
      * apply nondecreasing_from_refl. exact Hnd.
      * exact Hlate.
    + pose proof (bucket_inv_has_keys T rl Hinv) as Hkeys.
      destruct (acquire_spec rl t1 (wf_limits_nodup _ Hwf) (wf_limits_period _ Hwf) Hkeys)
        as (rl1 & Hrun & Hlims & Hwin).
      destruct (bucket_inv_acquire T t1 rl Hwf Hinv HT) as [_ Hinv1].
      rewrite Hrun in Hinv1. simpl in Hinv1.
      specialize (Hwin w lim t l Hin Ht Hl).
      cbn [acquire_all]. rewrite Hrun.
      destruct (acquire_all rl1 rest) as [os rl2] eqn:Hrest.
      cbn [fst admitted_in].
      assert (Hqa : Qle_bool a t1 = true) by (apply Qle_bool_iff; lra).
      assert (Hqb : Qle_bool t1 b = true) by (apply Qle_bool_iff; lra).
      rewrite Hqa, Hqb. cbn [andb].
      assert (Hos : os = fst (acquire_all rl1 rest)) by (rewrite Hrest; reflexivity).
      rewrite Hos.
      pose proof (refill_later lim Hcap Hper t l T t1 HT) as Hlater.
      pose proof (gain_plus lim Hper (t1 - T) (b - t1)) as Hplus.
      assert (He : (t1 - T + (b - t1) == b - T)%Q) by ring.
      rewrite He in Hplus. clear He.
      pose proof (refill_le_cap lim t l t1) as Hle1.
      assert (Hwf1 : wf_limits (limits rl1)) by (rewrite Hlims; exact Hwf).
      assert (Hin1 : In (w, lim) (limits rl1)) by (rewrite Hlims; exact Hin).
      destruct (all_ok rl t1) eqn:Hok.
      * destruct Hwin as [E1 E2].
        pose proof (IH rl1 t1 _ _ Hwf1 Hinv1 Hnd ltac:(lra) Hin_time Hin1 E1 E2) as Hrec.
        rewrite refill_same_time in Hrec by (assumption || lra).
        change (1 + ?n)%nat with (S n). rewrite nat_Q_succ. lra.
      * cbn [Nat.add].
        destruct Hwin as [[E1 E2]|[E1 E2]].
        -- pose proof (IH rl1 t1 _ _ Hwf1 Hinv1 Hnd ltac:(lra) Hin_time Hin1 E1 E2) as Hrec.
           rewrite refill_same_time in Hrec by (assumption || lra). lra.
        -- pose proof (IH rl1 t1 _ _ Hwf1 Hinv1 Hnd ltac:(lra) Hin_time Hin1 E1 E2) as Hrec.
           lra.
Qed.

(** In any interval [[a, b]] a window admits at most its capacity plus
    the refill of [b - a] seconds. *)
Lemma admitted_in_interval : forall ts rl T,
  wf_limits (limits rl) ->
  bucket_inv T rl ->
  nondecreasing_from T ts ->
  (a <= b)%Q ->
  In (w, lim) (limits rl) ->
  (inject_Z (Z.of_nat (admitted_in a b ts (fst (acquire_all rl ts))))
   <= cap + (b - a) * cap / period)%Q.
Proof.
  induction ts as [|t1 rest IH]; intros rl T Hwf Hinv Hnd Hab Hin.
  - destruct (wf_limits_in _ w lim Hwf Hin) as [Hcap Hper].
    pose proof (cap_nonneg_Q lim Hcap).
    pose proof (gain_nonneg lim Hcap Hper (b - a) ltac:(lra)).
    cbn [acquire_all fst admitted_in]. change (inject_Z (Z.of_nat 0)) with 0%Q. lra.
  - destruct Hnd as [HT Hnd].
    destruct (wf_limits_in _ w lim Hwf Hin) as [Hcap Hper].
    pose proof (cap_nonneg_Q lim Hcap) as Hcap0.
    pose proof (gain_nonneg lim Hcap Hper (b - a) ltac:(lra)) as Hgab.
    destruct (Qlt_le_dec t1 a) as [Hearly|Hfrom].
    + (* before the interval: the call does not count *)
      pose proof (bucket_inv_has_keys T rl Hinv) as Hkeys.
      destruct (acquire_spec rl t1 (wf_limits_nodup _ Hwf) (wf_limits_period _ Hwf) Hkeys)
        as (rl1 & Hrun & Hlims & _).
      destruct (bucket_inv_acquire T t1 rl Hwf Hinv HT) as [_ Hinv1].
      rewrite Hrun in Hinv1. simpl in Hinv1.
      cbn [acquire_all]. rewrite Hrun.
      destruct (acquire_all rl1 rest) as [os rl2] eqn:Hrest.
      cbn [fst admitted_in].
      assert (Hqa : Qle_bool a t1 = false).
      { destruct (Qle_bool a t1) eqn:E; [|reflexivity]. apply Qle_bool_iff in E. lra. }
      rewrite Hqa. cbn [andb].
      assert (Hos : os = fst (acquire_all rl1 rest)) by (rewrite Hrest; reflexivity).
      rewrite Hos.
      assert (Hwf1 : wf_limits (limits rl1)) by (rewrite Hlims; exact Hwf).
      assert (Hin1 : In (w, lim) (limits rl1)) by (rewrite Hlims; exact Hin).
      destruct (all_ok rl t1); cbn [Nat.add]; apply (IH rl1 t1); assumption.
    + destruct (Qlt_le_dec b t1) as [Hlate|Hin_time].
      * rewrite (admitted_in_none_after a b (t1 :: rest) t1).
        -- change (inject_Z (Z.of_nat 0)) with 0%Q. lra.
        -- apply nondecreasing_from_refl. exact Hnd.
        -- exact Hlate.
      * destruct (Hinv w lim Hin) as (t & l & Ht & Hl & _).
        pose proof (admitted_from_inside (t1 :: rest) rl t1 t l Hwf
                      (bucket_inv_later T t1 rl HT Hinv)
                      (nondecreasing_from_refl t1 rest Hnd)
                      Hfrom Hin_time Hin Ht Hl) as Hcount.
        pose proof (refill_le_cap lim t l t1) as Hle.
        pose proof (gain_mono lim Hcap Hper (b - t1) (b - a) ltac:(lra)) as Hmono.
        lra.
Qed.
End AdmittedInInterval.

(** The scenario of one window of 2 requests per 10 seconds: three calls
    in immediate succession. *)
Example acquire_thrice :
  fst (Utils.acquire_all
         (Utils.init [("w"%string, Utils.Build_Limit 2 10)] (fun _ => 0%Q))
         [0%Q; 0%Q; 0%Q])
  = [Return true; Return true; Return false].
Proof. vm_compute. reflexivity. Qed.

(** C1, as stated, fails.  One window of 2 requests per 10 seconds, built
    at time 0: the calls at 0, 0 and 5 all return [True], so 3 calls are
    admitted inside the interval [[0, 10]], more than [max_requests]. *)
Lemma sliding_window_counterexample :
  let lims := [("w"%string, Utils.Build_Limit 2 10)] in
  let ts := [0%Q; 0%Q; 5%Q] in
  let os := fst (Utils.acquire_all (Utils.init lims (fun _ => 0%Q)) ts) in
  nondecreasing_from 0 ts
  /\ os = [Return true; Return true; Return true]
  /\ ~ (Z.of_nat (admitted_in 0 (0 + inject_Z 10) ts os) <= 2).
Proof.
  split; [|split].
  - repeat split; vm_compute; discriminate.
  - vm_compute. reflexivity.
  - vm_compute. intros H. apply H. reflexivity.
Qed.

(** What rounding adds to the bound below.  One window of 3 requests per
    10 seconds, built at 0, with calls at 0, 0, 0 and 3.333333333333333:
    in binary64 the last refill is exactly 1.0 and all four calls are
    admitted, while the exact bound for the interval up to that reading,
    [3 + t * 3 / 10], is below 4. *)
Example admitted_binary64_rounding :
  let t := Binary64.dyadic 3752999689475413 50 in
  let tq := Binary64.dyadic_Q 3752999689475413 50 in
  t = 0x1.aaaaaaaaaaaaap+1%float
  /\ fst (Binary64.acquire_all
            (Binary64.init [("w"%string, Utils.Build_Limit 3 10)] (fun _ => 0%float))
            [0%float; 0%float; 0%float; t])
     = [Return true; Return true; Return true; Return true]
  /\ (inject_Z 3 + (tq - 0) * inject_Z 3 / inject_Z 10 < 4)%Q.
Proof.
  repeat split; vm_compute; reflexivity.
Qed.

(** C1, amended.  With the refills computed exactly, over the rationals:
    for every well-formed configuration and every sequence
    of [acquire] calls at clock readings that never go back, the number of
    calls that return [True] at a reading inside an interval [[a, b]] is at
    most [max_requests + (b - a) * max_requests / time_window] for every
    configured window; in an interval of length [time_window] it is at
    most twice that window's [max_requests]. *)
Theorem admitted_within_period
    (lims : list (string * Utils.Limit)) (clock : nat -> Q) (T : Q) (ts : list Q)
    (w : string) (lim : Utils.Limit) (a : Q) :
  wf_limits lims ->
  (forall i, (clock i <= T)%Q) ->
  nondecreasing_from T ts ->
  In (w, lim) lims ->
  (forall b, (a <= b)%Q ->
     (inject_Z (Z.of_nat (admitted_in a b ts
                            (fst (Utils.acquire_all (Utils.init lims clock) ts))))
      <= inject_Z (Utils.max_requests lim)
         + (b - a) * inject_Z (Utils.max_requests lim)
           / inject_Z (Utils.time_window lim))%Q)
  /\ Z.of_nat (admitted_in a (a + inject_Z (Utils.time_window lim)) ts
                 (fst (Utils.acquire_all (Utils.init lims clock) ts)))
     <= 2 * Utils.max_requests lim.
Proof.
  intros Hwf Hclock Hnd Hin.
  pose proof (bucket_inv_init lims clock T Hwf Hclock) as Hinv.
  destruct (wf_limits_in lims w lim Hwf Hin) as [Hcap Hper].
  assert (Hgen : forall b, (a <= b)%Q ->
     (inject_Z (Z.of_nat (admitted_in a b ts
                            (fst (Utils.acquire_all (Utils.init lims clock) ts))))
      <= inject_Z (Utils.max_requests lim)
         + (b - a) * inject_Z (Utils.max_requests lim)
           / inject_Z (Utils.time_window lim))%Q).
  { intros b Hab.
    apply (admitted_in_interval a b w lim ts (Utils.init lims clock) T); assumption. }
  split; [exact Hgen|].
  pose proof (period_pos_Q lim Hper) as Hpos.
  specialize (Hgen (a + inject_Z (Utils.time_window lim))%Q ltac:(lra)).
  assert (He : ((a + inject_Z (Utils.time_window lim) - a)
                * inject_Z (Utils.max_requests lim) / inject_Z (Utils.time_window lim)
                == inject_Z (Utils.max_requests lim))%Q) by (field; lra).
  rewrite He in Hgen.
  rewrite Zle_Qle, inject_Z_mult. change (inject_Z 2) with 2%Q. lra.
Qed.

(** The window of 2 requests per 10 seconds, with calls at 0, 0, 5, 10 and
    10: at most 3.4 calls are admitted in [[0, 7]] and at most 4 in
    [[0, 10]]. *)
Lemma admitted_within_period_witness :
  let lims := [("w"%string, Utils.Build_Limit 2 10)] in
  let ts := [0%Q; 0%Q; 5%Q; 10%Q; 10%Q] in
  let os := fst (Utils.acquire_all (Utils.init lims (fun _ => 0%Q)) ts) in
  (inject_Z (Z.of_nat (admitted_in 0 7 ts os))
   <= inject_Z 2 + (7 - 0) * inject_Z 2 / inject_Z 10)%Q
  /\ Z.of_nat (admitted_in 0 (0 + inject_Z 10) ts os) <= 2 * 2.
Proof.
  intros lims ts os.
  assert (H : (forall b, (0 <= b)%Q ->
                 (inject_Z (Z.of_nat (admitted_in 0 b ts os))
                  <= inject_Z 2 + (b - 0) * inject_Z 2 / inject_Z 10)%Q)
              /\ Z.of_nat (admitted_in 0 (0 + inject_Z 10) ts os) <= 2 * 2).
  { apply (admitted_within_period lims (fun _ => 0%Q) 0 ts "w" (Utils.Build_Limit 2 10) 0).
    - split.
      + apply NoDup_singleton.
      + repeat constructor; simpl; lia.
    - intros i. apply Qle_refl.
    - repeat split; vm_compute; discriminate.
    - left. reflexivity. }
  destruct H as [Hgen Hper]. split; [|exact Hper].
  apply Hgen. vm_compute. discriminate.
Defined.

(** *** A refused call leaves no trace *)

Lemma Qltb_proper (x y z : Q) : (x == y)%Q -> Qltb x z = Qltb y z.
Proof.
  intros He. destruct (Qltb y z) eqn:E.
  - apply Qltb_true_iff in E. apply Qltb_true_iff. lra.
  - apply Qltb_false_iff in E. apply Qltb_false_iff. lra.
Qed.

Section SameFuture.
Import Utils.

Lemma same_future_has_keys T rl1 rl2 :
  same_future T rl1 rl2 ->
  has_keys (limits rl1) (tokens rl1) (last_update rl1)
  /\ has_keys (limits rl2) (tokens rl2) (last_update rl2).
Proof.
  intros [Hl Hw]. split; apply Forall_forall; intros [w lim] Hin;
    apply list_elem_of_In in Hin; [|rewrite <- Hl in Hin];
    destruct (Hw w lim Hin) as (t1 & l1 & t2 & l2 & E1 & E2 & E3 & E4 & _);
    simpl; split; eexists; eassumption.
Qed.

Lemma same_future_all_ok T rl1 rl2 now :
  same_future T rl1 rl2 -> (T <= now)%Q -> all_ok rl1 now = all_ok rl2 now.
Proof.
  intros [Hl Hw] HT. unfold all_ok. rewrite <- Hl.
  apply forallb_eq_on. intros [w lim] Hin.
  destruct (Hw w lim Hin) as (t1 & l1 & t2 & l2 & E1 & E2 & E3 & E4 & Hsame).
  unfold window_ok. simpl. rewrite E1, E2, E3, E4.
  f_equal. apply Qltb_proper. apply Hsame. exact HT.
Qed.

(** Limiters with the same future answer the next call alike and still
    have the same future after it. *)
Lemma same_future_acquire T now rl1 rl2 :
  wf_limits (limits rl1) ->
  same_future T rl1 rl2 ->
  (T <= now)%Q ->
  fst (acquire rl1 now) = fst (acquire rl2 now)
  /\ same_future now (snd (acquire rl1 now)) (snd (acquire rl2 now)).
Proof.
  intros Hwf Hsf HT.
  destruct (same_future_has_keys T rl1 rl2 Hsf) as [Hk1 Hk2].
  pose proof (same_future_all_ok T rl1 rl2 now Hsf HT) as Hok.
  destruct Hsf as [Hl Hw].
  assert (Hwf2 : wf_limits (limits rl2)) by (rewrite <- Hl; exact Hwf).
  destruct (acquire_spec rl1 now (wf_limits_nodup _ Hwf) (wf_limits_period _ Hwf) Hk1)
    as (rl1' & Hrun1 & Hlims1 & Hwin1).
  destruct (acquire_spec rl2 now (wf_limits_nodup _ Hwf2) (wf_limits_period _ Hwf2) Hk2)
    as (rl2' & Hrun2 & Hlims2 & Hwin2).
  rewrite Hrun1, Hrun2. simpl. split; [congruence|].
  split; [congruence|].
  intros w lim Hin. rewrite Hlims1 in Hin.
  destruct (Hw w lim Hin) as (t1 & l1 & t2 & l2 & E1 & E2 & E3 & E4 & Hsame).
  destruct (wf_limits_in _ w lim Hwf Hin) as [Hcap Hper].
  specialize (Hwin1 w lim t1 l1 Hin E1 E2).
  assert (Hin2 : In (w, lim) (limits rl2)) by (rewrite <- Hl; exact Hin).
  specialize (Hwin2 w lim t2 l2 Hin2 E3 E4).
  rewrite <- Hok in Hwin2.
  pose proof (Hsame now HT) as Hnow.
  destruct (all_ok rl1 now).
  - destruct Hwin1 as [F1 F2]. destruct Hwin2 as [F3 F4].
    do 4 eexists. do 4 (split; [eassumption|]).
    intros now' Hnow'. apply refill_proper. lra.
  - destruct Hwin1 as [[F1 F2]|[F1 F2]]; destruct Hwin2 as [[F3 F4]|[F3 F4]];
      do 4 eexists; do 4 (split; [eassumption|]); intros now' Hnow'.
    + apply refill_proper. exact Hnow.
    + rewrite (refill_twice lim Hcap Hper t1 l1 now now' Hnow').
      apply Hsame. lra.
    + rewrite (refill_twice lim Hcap Hper t2 l2 now now' Hnow').
      apply Hsame. lra.
    + apply Hsame. lra.
Qed.

Lemma same_future_acquire_all : forall ts T rl1 rl2,
  wf_limits (limits rl1) ->
  same_future T rl1 rl2 ->
  nondecreasing_from T ts ->
  fst (acquire_all rl1 ts) = fst (acquire_all rl2 ts).
Proof.
  induction ts as [|t ts IH]; intros T rl1 rl2 Hwf Hsf Hnd; [reflexivity|].
  destruct Hnd as [HT Hnd].
  destruct (same_future_acquire T t rl1 rl2 Hwf Hsf HT) as [Ho Hsf'].
  assert (Hwf' : wf_limits (limits (snd (acquire rl1 t)))).
  { destruct (same_future_has_keys T rl1 rl2 Hsf) as [Hk1 _].
    destruct (acquire_spec rl1 t (wf_limits_nodup _ Hwf) (wf_limits_period _ Hwf) Hk1)
      as (rl1' & Hrun1 & Hlims1 & _).
    rewrite Hrun1. simpl. rewrite Hlims1. exact Hwf. }
  specialize (IH t _ _ Hwf' Hsf' Hnd).
  cbn [acquire_all].
  destruct (acquire rl1 t) as [o1 rl1'], (acquire rl2 t) as [o2 rl2'].
  simpl in Ho, IH. subst o2.
  destruct (acquire_all rl1' ts) as [os1 r1], (acquire_all rl2' ts) as [os2 r2].
  simpl in IH. subst os2. reflexivity.
Qed.

(** A call that returned [False] leaves a limiter with the future of the
    limiter it found. *)
Lemma refused_same_future rl now :
  wf_limits (limits rl) ->
  has_keys (limits rl) (tokens rl) (last_update rl) ->
  fst (acquire rl now) = Return false ->
  same_future now (snd (acquire rl now)) rl.
Proof.
  intros Hwf Hkeys Hfalse.
  destruct (acquire_spec rl now (wf_limits_nodup _ Hwf) (wf_limits_period _ Hwf) Hkeys)
    as (rl' & Hrun & Hlims & Hwin).
  rewrite Hrun in *. simpl in *.
  assert (Hok : all_ok rl now = false) by congruence.
  split; [exact Hlims|].
  intros w lim Hin. rewrite Hlims in Hin.
  destruct (has_keys_in _ _ _ w lim Hkeys Hin) as (t & l & Ht & Hl).
  destruct (wf_limits_in _ w lim Hwf Hin) as [Hcap Hper].
  specialize (Hwin w lim t l Hin Ht Hl). rewrite Hok in Hwin.
  destruct Hwin as [[F1 F2]|[F1 F2]];
    do 4 eexists; do 4 (split; [eassumption|]); intros now' Hnow'.
  - apply refill_twice; assumption.
  - reflexivity.
Qed.
End SameFuture.

(** C10, as stated, fails on the floats of the code.  One window of 3
    requests per 10 seconds, emptied at time 0; [t1] is
    1.2706807922940415 and [t] is 3.333333333333333.  The call at [t]
    alone refills to exactly 1.0 and returns [True]; after a refused call
    at [t1] the same call refills to 0.9999999999999999 and returns
    [False]. *)
Lemma refused_acquire_binary64_counterexample :
  let lims := [("w"%string, Utils.Build_Limit 3 10)] in
  let rl := snd (Binary64.acquire_all (Binary64.init lims (fun _ => 0%float))
                   [0%float; 0%float; 0%float]) in
  let t1 := 0x1.454b561e8eeb4p+0%float in
  let t := 0x1.aaaaaaaaaaaaap+1%float in
  PrimFloat.leb 0 t1 = true /\ PrimFloat.leb t1 t = true
  /\ Binary64.tokens rl !! "w"%string = Some 0%float
  /\ fst (Binary64.acquire rl t1) = Return false
  /\ fst (Binary64.acquire_all (snd (Binary64.acquire rl t1)) [t]) = [Return false]
  /\ fst (Binary64.acquire_all rl [t]) = [Return true].
Proof.
  repeat split; vm_compute; reflexivity.
Qed.

(** C10, amended.  With the refills computed exactly, over the rationals:
    on a well-formed limiter with complete dictionaries, an [acquire] call
    that returns [False] at [now] cannot be observed by later calls: for
    every sequence of later readings that never go back, the results of
    the calls are the same with and without the refused call. *)
Theorem refused_acquire_unobservable
    (rl : Utils.RateLimiter) (now : Q) (ts : list Q) :
  wf_limits (Utils.limits rl) ->
  has_keys (Utils.limits rl) (Utils.tokens rl) (Utils.last_update rl) ->
  fst (Utils.acquire rl now) = Return false ->
  nondecreasing_from now ts ->
  fst (Utils.acquire_all (snd (Utils.acquire rl now)) ts)
  = fst (Utils.acquire_all rl ts).
Proof.
  intros Hwf Hkeys Hfalse Hnd.
  pose proof (refused_same_future rl now Hwf Hkeys Hfalse) as Hsf.
  apply (same_future_acquire_all ts now); try assumption.
  destruct Hsf as [Hl _]. rewrite Hl. exact Hwf.
Qed.


(** Two windows after one admitted call, then a call refused at time 10
    (the second window holds a tenth of a token), then calls at 50, 120
    and 120. *)
Lemma refused_acquire_unobservable_witness :
  let rl := snd (Utils.acquire
                   (Utils.init [("a"%string, Utils.Build_Limit 5 10);
                                ("b"%string, Utils.Build_Limit 1 100)] (fun _ => 0%Q)) 0) in
  fst (Utils.acquire rl 10) = Return false
  /\ fst (Utils.acquire_all (snd (Utils.acquire rl 10)) [50%Q; 120%Q; 120%Q])
     = fst (Utils.acquire_all rl [50%Q; 120%Q; 120%Q]).
Proof.
  intros rl. split; [vm_compute; reflexivity|].
  apply (refused_acquire_unobservable rl 10 [50%Q; 120%Q; 120%Q]).
  - split.
    + nodup_names.
    + repeat constructor; simpl; lia.
  - repeat constructor; vm_compute; eexists; reflexivity.
  - vm_compute. reflexivity.
  - repeat split; vm_compute; discriminate.
Defined.



(** ** The client *)

Section PostTweetFacts.
Import Utils XAPIClient.
Variable api : nat -> outcome (option string).

Lemma post_tweet_first_return w v w' :
  post_tweet_body api w = (Return v, w') ->
  post_tweet api w = (Return v, w', [Invoke]).
Proof.
  intros Hbody. unfold post_tweet, retry_with_backoff, MAX_RETRIES.
  change (Z.to_nat 3) with 3%nat. cbn [retry_loop]. rewrite Hbody. reflexivity.
Qed.

Lemma post_tweet_body_refused w rl1 :
  acquire (rate_limiter w) (clock w) = (Return false, rl1) ->
  post_tweet_body api w
  = (Return None,
     {| clock := clock w; rate_limiter := rl1; api_calls := api_calls w |}).
Proof. intros Hacq. unfold post_tweet_body. rewrite Hacq. reflexivity. Qed.

Lemma post_tweet_body_api_error w rl1 e :
  acquire (rate_limiter w) (clock w) = (Return true, rl1) ->
  api (api_calls w) = Raise e ->
  isinstance e "Exception" = true ->
  post_tweet_body api w
  = (Return None,
     {| clock := clock w; rate_limiter := rl1; api_calls := S (api_calls w) |}).
Proof.
  intros Hacq Hapi He. unfold post_tweet_body. rewrite Hacq, Hapi, He. reflexivity.
Qed.
End PostTweetFacts.

(** C9, as stated, fails.  A client whose 15-minute window is used up (50
    posts at time 0) posts once more: [post_tweet] returns [None], not an
    error, and sends nothing.  A client with a fresh limiter whose request
    fails with [Exception("503")] gets [None] too.  The decorator of
    rate_limiter.py answers [None] for a refused call as well. *)
Lemma post_tweet_swallows_counterexample :
  let fresh := Utils.init XAPIClient.client_limits (fun _ => 0%Q) in
  let used_up := snd (Utils.acquire_all fresh (repeat 0%Q 50)) in
  let posted := fun _ : nat => Return (Some "1"%string) in
  let failing := fun _ : nat => @Raise (option string) (Exception "503") in
  fst (Utils.acquire used_up 0) = Return false
  /\ fst (fst (XAPIClient.post_tweet posted
                 (XAPIClient.Build_World 0 used_up 0))) = Return None
  /\ is_raise (fst (fst (XAPIClient.post_tweet posted
                           (XAPIClient.Build_World 0 used_up 0)))) = false
  /\ XAPIClient.api_calls
       (snd (fst (XAPIClient.post_tweet posted
                    (XAPIClient.Build_World 0 used_up 0)))) = 0%nat
  /\ fst (fst (XAPIClient.post_tweet failing
                 (XAPIClient.Build_World 0 fresh 0))) = Return None
  /\ fst (fst (RateLimiterPy.rate_limit (always_raise (Exception "boom"))
                 (snd (RateLimiterPy.can_make_request (RateLimiterPy.init 1 3600) 0))
                 1 0%nat)) = Return None.
Proof.
  repeat split; vm_compute; reflexivity.
Qed.

(** C9, amended.  When the token bucket refuses, [post_tweet] returns
    [None] after a single call of its body, with no retry and no request
    sent; when the bucket admits and the request raises an error derived
    from [Exception], [post_tweet] returns [None] as well; and the wrapper
    of rate_limiter.py returns [None] for a refused call without running
    the wrapped function. *)
Theorem post_tweet_returns_none
    (api : nat -> outcome (option string)) (w : XAPIClient.World) :
  (fst (Utils.acquire (XAPIClient.rate_limiter w) (XAPIClient.clock w)) = Return false ->
   XAPIClient.post_tweet api w
   = (Return None,
      XAPIClient.Build_World (XAPIClient.clock w)
        (snd (Utils.acquire (XAPIClient.rate_limiter w) (XAPIClient.clock w)))
        (XAPIClient.api_calls w),
      [Utils.Invoke]))
  /\ (forall e,
        fst (Utils.acquire (XAPIClient.rate_limiter w) (XAPIClient.clock w)) = Return true ->
        api (XAPIClient.api_calls w) = Raise e ->
        isinstance e "Exception" = true ->
        XAPIClient.post_tweet api w
        = (Return None,
           XAPIClient.Build_World (XAPIClient.clock w)
             (snd (Utils.acquire (XAPIClient.rate_limiter w) (XAPIClient.clock w)))
             (S (XAPIClient.api_calls w)),
           [Utils.Invoke]))
  /\ (forall (St V : Type) (func : St -> outcome V * St)
             (limiter : RateLimiterPy.RateLimiter) (now : Q) (st : St),
        fst (RateLimiterPy.can_make_request limiter now) = false ->
        RateLimiterPy.rate_limit func limiter now st
        = (Return None, st, snd (RateLimiterPy.can_make_request limiter now))).
Proof.
  split; [|split].
  - intros Hacq.
    destruct (Utils.acquire (XAPIClient.rate_limiter w) (XAPIClient.clock w))
      as [o rl1] eqn:E.
    simpl in Hacq. subst o. simpl.
    apply post_tweet_first_return. apply post_tweet_body_refused. exact E.
  - intros e Hacq Hapi He.
    destruct (Utils.acquire (XAPIClient.rate_limiter w) (XAPIClient.clock w))
      as [o rl1] eqn:E.
    simpl in Hacq. subst o. simpl.
    apply post_tweet_first_return. apply (post_tweet_body_api_error api w rl1 e); assumption.
  - intros St V func limiter now st Hno. unfold RateLimiterPy.rate_limit.
    destruct (RateLimiterPy.can_make_request limiter now) as [ok limiter1].
    simpl in Hno. subst ok. reflexivity.
Qed.

(** A used-up client, a fresh client whose request fails, and the limiter
    of rate_limiter.py after its only admitted request. *)
Lemma post_tweet_returns_none_witness :
  let fresh := Utils.init XAPIClient.client_limits (fun _ => 0%Q) in
  let used_up := snd (Utils.acquire_all fresh (repeat 0%Q 50)) in
  let failing := fun _ : nat => @Raise (option string) (Exception "503") in
  let limiter := snd (RateLimiterPy.can_make_request (RateLimiterPy.init 1 3600) 0) in
  XAPIClient.post_tweet failing (XAPIClient.Build_World 0 used_up 7)
  = (Return None,
     XAPIClient.Build_World 0 (snd (Utils.acquire used_up 0)) 7,
     [Utils.Invoke])
  /\ XAPIClient.post_tweet failing (XAPIClient.Build_World 0 fresh 7)
     = (Return None,
        XAPIClient.Build_World 0 (snd (Utils.acquire fresh 0)) 8,
        [Utils.Invoke])
  /\ RateLimiterPy.rate_limit (always_raise (Exception "boom")) limiter 1 0%nat
     = (Return None, 0%nat, snd (RateLimiterPy.can_make_request limiter 1)).
Proof.
  intros fresh used_up failing limiter. split; [|split].
  - refine (proj1 (post_tweet_returns_none failing
                     (XAPIClient.Build_World 0 used_up 7)) _).
    vm_compute. reflexivity.
  - refine (proj1 (proj2 (post_tweet_returns_none failing
                            (XAPIClient.Build_World 0 fresh 7)))
              (Exception "503") _ _ _).
    + vm_compute. reflexivity.
    + reflexivity.
    + reflexivity.
  - refine (proj2 (proj2 (post_tweet_returns_none failing
                            (XAPIClient.Build_World 0 fresh 7)))
              nat unit (always_raise (Exception "boom")) limiter 1%Q 0%nat _).
    vm_compute. reflexivity.
Defined.

(** * Further properties *)

(** ** The timestamp-list limiters *)

Lemma count_since_le_length (a : Q) (l : list Q) :
  (count_since a l <= length l)%nat.
Proof. unfold count_since. apply List.filter_length_le. Qed.

Lemma count_since_app (a : Q) (l1 l2 : list Q) :
  count_since a (l1 ++ l2) = (count_since a l1 + count_since a l2)%nat.
Proof. unfold count_since. rewrite List.filter_app, length_app. reflexivity. Qed.

Lemma count_since_one (a t : Q) : (a <= t)%Q -> count_since a [t] = 1%nat.
Proof.
  intros H. apply Qle_bool_iff in H. unfold count_since. simpl. rewrite H. reflexivity.
Qed.

Lemma geb_false_lt (x y : Z) : (x >=? y) = false -> x < y.
Proof. rewrite Z.geb_leb. apply Z.leb_gt. Qed.

Section UtilsRateLimit.
Import Utils.
Variables (max_requests time_window : Z) (name : string).

Lemma drop_old_length now l :
  (length (drop_old now time_window l) <= length l)%nat.
Proof.
  induction l as [|r l IH]; simpl; [lia|].
  destruct (Qltb r (now - inject_Z time_window)); simpl; lia.
Qed.

(** Popping the old entries keeps every entry that is no earlier than
    [now - time_window]. *)
Lemma drop_old_count_since a now l :
  (now - inject_Z time_window <= a)%Q ->
  count_since a (drop_old now time_window l) = count_since a l.
Proof.
  intros Ha. induction l as [|r l IH]; simpl; [reflexivity|].
  destruct (Qltb r (now - inject_Z time_window)) eqn:E; [|reflexivity].
  apply Qltb_true_iff in E. rewrite IH. unfold count_since. simpl.
  destruct (Qle_bool a r) eqn:Er; [|reflexivity].
  apply Qle_bool_iff in Er. lra.
Qed.

Context {V : Type}.
Variable func : nat -> outcome V * nat.
Hypothesis func_counts : counts_calls func.

Local Abbreviation run := (rate_limit_all max_requests time_window name func).

(** The closure never holds more than [max_requests] entries. *)
Lemma rate_limit_all_length : forall ts requests n,
  Z.of_nat (length requests) <= Z.max 0 max_requests ->
  Z.of_nat (length (snd (run requests ts n))) <= Z.max 0 max_requests.
Proof.
  induction ts as [|now ts IH]; intros requests n Hlen; [exact Hlen|].
  cbn [rate_limit_all]. unfold rate_limit.
  pose proof (drop_old_length now requests) as Hdrop.
  destruct (Z.of_nat (length (drop_old now time_window requests)) >=? max_requests) eqn:E.
  - specialize (IH (drop_old now time_window requests) n ltac:(lia)).
    destruct (run (drop_old now time_window requests) ts n) as [[os st2] r2].
    exact IH.
  - apply geb_false_lt in E.
    destruct (func n) as [o n1].
    specialize (IH (drop_old now time_window requests ++ [now]) n1).
    destruct (run (drop_old now time_window requests ++ [now]) ts n1) as [[os st2] r2].
    apply IH. rewrite length_app. simpl. lia.
Qed.

(** While the calls stay within [time_window] seconds of [a], every
    admitted call adds an entry that is still there at the end. *)
Lemma rate_limit_all_block a : forall ts requests n,
  Forall (fun t => (a <= t)%Q /\ (t - inject_Z time_window <= a)%Q) ts ->
  (n <= snd (fst (run requests ts n)))%nat
  /\ count_since a (snd (run requests ts n))
     = (count_since a requests + (snd (fst (run requests ts n)) - n))%nat.
Proof.
  induction ts as [|now ts IH]; intros requests n Hts.
  - simpl. split; [lia|]. lia.
  - inversion Hts as [|? ? [Ha Hb] Hts']; subst.
    cbn [rate_limit_all]. unfold rate_limit.
    pose proof (drop_old_count_since a now requests Hb) as Hcount.
    destruct (Z.of_nat (length (drop_old now time_window requests)) >=? max_requests) eqn:E.
    + specialize (IH (drop_old now time_window requests) n Hts').
      destruct (run (drop_old now time_window requests) ts n) as [[os st2] r2].
      simpl in *. rewrite <- Hcount. exact IH.
    + pose proof (func_counts n) as Hn.
      destruct (func n) as [o n1]. simpl in Hn. subst n1.
      specialize (IH (drop_old now time_window requests ++ [now]) (S n) Hts').
      destruct (run (drop_old now time_window requests ++ [now]) ts (S n)) as [[os st2] r2].
      simpl in *. destruct IH as [Hle Heq]. split; [lia|].
      rewrite Heq, count_since_app, (count_since_one a now Ha), Hcount. lia.
Qed.
End UtilsRateLimit.

(** X1.  The decorator [rate_limit] of utils.py keeps a true sliding
    window: after any earlier calls, in a series of calls whose clock
    readings all lie within [time_window] seconds of a reading [a], the
    wrapped function is run at most [max_requests] times. *)
Theorem rate_limit_sliding_window {V : Type}
    (max_requests time_window : Z) (name : string)
    (func : nat -> outcome V * nat) (earlier calls : list Q) (a : Q) :
  counts_calls func ->
  Forall (fun t => (a <= t)%Q /\ (t - inject_Z time_window <= a)%Q) calls ->
  let before := Utils.rate_limit_all max_requests time_window name func [] earlier 0%nat in
  let after := Utils.rate_limit_all max_requests time_window name func
                 (snd before) calls (snd (fst before)) in
  Z.of_nat (snd (fst after) - snd (fst before)) <= Z.max 0 max_requests.
Proof.
  intros Hfunc Hcalls before after.
  pose proof (rate_limit_all_length max_requests time_window name func
                earlier [] 0%nat ltac:(simpl; lia)) as Hlen0.
  fold before in Hlen0.
  pose proof (rate_limit_all_length max_requests time_window name func
                calls (snd before) (snd (fst before)) Hlen0) as Hlen.
  fold after in Hlen.
  destruct (rate_limit_all_block max_requests time_window name func Hfunc a
              calls (snd before) (snd (fst before)) Hcalls) as [Hle Heq].
  fold after in Hle, Heq.
  pose proof (count_since_le_length a (snd after)). lia.
Qed.

Lemma rate_limit_sliding_window_witness :
  Z.of_nat
    (snd (fst (Utils.rate_limit_all 2 10 "f" (always_raise (Exception "down"))
                 (snd (Utils.rate_limit_all 2 10 "f" (always_raise (Exception "down"))
                         [] [0%Q; 1%Q] 0%nat))
                 [5%Q; 12%Q; 13%Q; 15%Q]
                 (snd (fst (Utils.rate_limit_all 2 10 "f" (always_raise (Exception "down"))
                              [] [0%Q; 1%Q] 0%nat)))))
     - snd (fst (Utils.rate_limit_all 2 10 "f" (always_raise (Exception "down"))
                   [] [0%Q; 1%Q] 0%nat)))
  <= Z.max 0 2.
Proof.
  apply (rate_limit_sliding_window 2 10 "f" (always_raise (Exception "down"))
           [0%Q; 1%Q] [5%Q; 12%Q; 13%Q; 15%Q] 5).
  - intros n. reflexivity.
  - repeat constructor; vm_compute; discriminate.
Defined.

Section RateLimiterPyFacts.
Import RateLimiterPy.

Lemma can_make_request_config rl now :
  max_requests (snd (can_make_request rl now)) = max_requests rl
  /\ time_window (snd (can_make_request rl now)) = time_window rl.
Proof.
  unfold can_make_request. destruct (_ <? _); simpl; split; reflexivity.
Qed.

(** The filter keeps every entry that is no earlier than
    [current_time - time_window]. *)
Lemma kept_count_since a now tw l :
  (now - inject_Z tw <= a)%Q ->
  count_since a (List.filter (fun r => Qle_bool (now - r) (inject_Z tw)) l)
  = count_since a l.
Proof.
  intros Ha. induction l as [|r l IH]; simpl; [reflexivity|].
  unfold count_since in *. simpl.
  destruct (Qle_bool (now - r) (inject_Z tw)) eqn:E; simpl.
  - destruct (Qle_bool a r); simpl; rewrite IH; reflexivity.
  - rewrite IH. destruct (Qle_bool a r) eqn:Er; [|reflexivity].
    apply Qle_bool_iff in Er.
    assert (Hle : (now - r <= inject_Z tw)%Q) by lra.
    apply Qle_bool_iff in Hle. congruence.
Qed.

Lemma can_make_request_all_length : forall ts rl,
  Z.of_nat (length (requests rl)) <= Z.max 0 (max_requests rl) ->
  Z.of_nat (length (requests (snd (can_make_request_all rl ts))))
  <= Z.max 0 (max_requests rl).
Proof.
  induction ts as [|now ts IH]; intros rl Hlen; [exact Hlen|].
  cbn [can_make_request_all].
  destruct (can_make_request_config rl now) as [Hm Ht].
  assert (Hlen1 : Z.of_nat (length (requests (snd (can_make_request rl now))))
                  <= Z.max 0 (max_requests rl)).
  { unfold can_make_request.
    pose proof (List.filter_length_le
                  (fun r => Qle_bool (now - r) (inject_Z (time_window rl))) (requests rl)).
    destruct (_ <? _) eqn:E; simpl.
    - apply Z.ltb_lt in E. rewrite length_app. simpl. lia.
    - lia. }
  destruct (can_make_request rl now) as [b rl1]. simpl in *.
  specialize (IH rl1). rewrite Hm in IH. specialize (IH Hlen1).
  destruct (can_make_request_all rl1 ts) as [bs rl2]. exact IH.
Qed.

Lemma can_make_request_all_block a : forall ts rl,
  Forall (fun t => (a <= t)%Q /\ (t - inject_Z (time_window rl) <= a)%Q) ts ->
  count_since a (requests (snd (can_make_request_all rl ts)))
  = (count_since a (requests rl) + count_true (fst (can_make_request_all rl ts)))%nat.
Proof.
  induction ts as [|now ts IH]; intros rl Hts.
  - simpl. unfold count_true. simpl. lia.
  - inversion Hts as [|? ? [Ha Hb] Hts']; subst.
    cbn [can_make_request_all].
    destruct (can_make_request_config rl now) as [Hm Ht].
    assert (Hstep : count_since a (requests (snd (can_make_request rl now)))
                    = (count_since a (requests rl)
                       + (if fst (can_make_request rl now) then 1 else 0))%nat).
    { unfold can_make_request.
      pose proof (kept_count_since a now (time_window rl) (requests rl) Hb) as Hk.
      destruct (_ <? _); simpl.
      - rewrite count_since_app, (count_since_one a now Ha), Hk. reflexivity.
      - rewrite Hk. lia. }
    destruct (can_make_request rl now) as [b rl1]. simpl in *.
    specialize (IH rl1). rewrite Ht in IH. specialize (IH Hts').
    destruct (can_make_request_all rl1 ts) as [bs rl2]. simpl in *.
    rewrite IH, Hstep. unfold count_true. simpl.
    destruct b; simpl; lia.
Qed.
End RateLimiterPyFacts.

(** X2.  The limiter of rate_limiter.py keeps a true sliding window: after
    any earlier calls on a fresh limiter, in a series of
    [can_make_request] calls whose clock readings all lie within
    [time_window] seconds of a reading [a], at most [max_requests] calls
    answer [True]. *)
Theorem can_make_request_sliding_window
    (max_requests time_window : Z) (earlier calls : list Q) (a : Q) :
  Forall (fun t => (a <= t)%Q /\ (t - inject_Z time_window <= a)%Q) calls ->
  Z.of_nat
    (count_true
       (fst (RateLimiterPy.can_make_request_all
               (snd (RateLimiterPy.can_make_request_all
                       (RateLimiterPy.init max_requests time_window) earlier))
               calls)))
  <= Z.max 0 max_requests.
Proof.
  intros Hcalls.
  set (rl0 := RateLimiterPy.init max_requests time_window).
  set (rl1 := snd (RateLimiterPy.can_make_request_all rl0 earlier)).
  assert (Hcfg : forall ts rl,
             RateLimiterPy.max_requests (snd (RateLimiterPy.can_make_request_all rl ts))
             = RateLimiterPy.max_requests rl
             /\ RateLimiterPy.time_window (snd (RateLimiterPy.can_make_request_all rl ts))
                = RateLimiterPy.time_window rl).
  { induction ts as [|t ts IH]; intros rl; [split; reflexivity|].
    cbn [RateLimiterPy.can_make_request_all].
    destruct (can_make_request_config rl t) as [Hm Ht].
    destruct (RateLimiterPy.can_make_request rl t) as [b r1]. simpl in *.
    specialize (IH r1).
    destruct (RateLimiterPy.can_make_request_all r1 ts) as [bs r2]. simpl in *.
    destruct IH as [IH1 IH2]. split; congruence. }
  destruct (Hcfg earlier rl0) as [Hm1 Ht1]. fold rl1 in Hm1, Ht1. simpl in Hm1, Ht1.
  pose proof (can_make_request_all_length earlier rl0 ltac:(simpl; lia)) as Hlen1.
  fold rl1 in Hlen1. simpl in Hlen1.
  pose proof (can_make_request_all_length calls rl1) as Hlen2.
  rewrite Hm1 in Hlen2. specialize (Hlen2 Hlen1).
  pose proof (can_make_request_all_block a calls rl1) as Hblock.
  rewrite Ht1 in Hblock. specialize (Hblock Hcalls).
  pose proof (count_since_le_length a
                (RateLimiterPy.requests (snd (RateLimiterPy.can_make_request_all rl1 calls)))).
  lia.
Qed.

Lemma can_make_request_sliding_window_witness :
  Z.of_nat
    (count_true
       (fst (RateLimiterPy.can_make_request_all
               (snd (RateLimiterPy.can_make_request_all
                       (RateLimiterPy.init 2 10) [0%Q; 1%Q]))
               [5%Q; 12%Q; 13%Q; 15%Q])))
  <= Z.max 0 2.
Proof.
  apply (can_make_request_sliding_window 2 10 [0%Q; 1%Q] [5%Q; 12%Q; 13%Q; 15%Q] 5).
  repeat constructor; vm_compute; discriminate.
Defined.

(** ** More on the retry decorators *)

Section UtilsRetryFacts.
Import Utils.
Context {St V : Type}.
Variable func : St -> outcome V * St.
Variable time_sleep : Q -> St -> St.
Variable max_retries : Z.

Local Abbreviation uloop := (Utils.retry_loop func time_sleep max_retries).

Lemma utils_retry_loop_bound : forall fuel attempt delay last_exception st,
  attempt + Z.of_nat fuel = max_retries ->
  (invocations (snd (uloop fuel attempt delay last_exception st)) <= fuel)%nat
  /\ (fuel = O -> snd (uloop fuel attempt delay last_exception st) = [])
  /\ ((0 < fuel)%nat ->
      (length (sleeps (snd (uloop fuel attempt delay last_exception st)))
       < invocations (snd (uloop fuel attempt delay last_exception st)))%nat).
Proof.
  induction fuel as [|fuel IH]; intros attempt delay lst st Hidx.
  - simpl. destruct lst; simpl; repeat split; intros; lia.
  - cbn [Utils.retry_loop].
    destruct (func st) as [[v|e] st1]; [simpl; repeat split; intros; lia|].
    destruct (isinstance e "Exception"); [|simpl; repeat split; intros; lia].
    destruct (attempt <? max_retries - 1) eqn:Ha.
    + apply Z.ltb_lt in Ha.
      destruct (delay <? 0); [simpl; repeat split; intros; lia|].
      destruct (IH (attempt + 1) (delay * 2) (Some e) (time_sleep (inject_Z delay) st1))
        as (H1 & _ & H3); [lia|].
      destruct (uloop fuel _ _ _ _) as [[o st2] tr]. simpl in *.
      specialize (H3 ltac:(lia)).
      split; [lia|]. split; [discriminate|]. intros _. lia.
    + destruct (IH (attempt + 1) delay (Some e) st1) as (H1 & H2 & H3); [lia|].
      destruct (uloop fuel _ _ _ _) as [[o st2] tr]. simpl in *.
      split; [lia|]. split; [discriminate|]. intros _.
      destruct fuel as [|fuel]; [rewrite H2 by reflexivity; simpl; lia|].
      specialize (H3 ltac:(lia)). lia.
Qed.

(** While the function keeps failing, the delay doubles without a cap. *)
Lemma utils_retry_loop_all_fail :
  (forall st, exists e st', func st = (Raise e, st') /\ isinstance e "Exception" = true) ->
  forall fuel attempt delay last_exception st,
    attempt + Z.of_nat (S fuel) = max_retries ->
    0 <= delay ->
    exists e st_last st' tr,
      uloop (S fuel) attempt delay last_exception st = (Raise e, st', tr)
      /\ invocations tr = S fuel
      /\ sleeps tr = map (fun k => inject_Z (delay * 2 ^ Z.of_nat k)) (seq 0 fuel)
      /\ func st_last = (Raise e, st').
Proof.
  intros Hfail. induction fuel as [|fuel IH]; intros attempt delay lst st Hidx Hd.
  - destruct (Hfail st) as (e & st' & Hf & He).
    exists e, st, st', [Invoke]. cbn [Utils.retry_loop]. rewrite Hf, He.
    assert (Ha : (attempt <? max_retries - 1) = false) by (apply Z.ltb_ge; lia).
    rewrite Ha. auto.
  - destruct (Hfail st) as (e & st' & Hf & He).
    destruct (IH (attempt + 1) (delay * 2) (Some e) (time_sleep (inject_Z delay) st'))
      as (e2 & st_last & st2 & tr & Hrun & Hinv & Hsl & Hlast); [lia | lia |].
    exists e2, st_last, st2, (Invoke :: Sleep (inject_Z delay) :: tr).
    remember (S fuel) as fuel1 eqn:Hfuel1.
    cbn [Utils.retry_loop]. rewrite Hf, He.
    assert (Ha : (attempt <? max_retries - 1) = true) by (apply Z.ltb_lt; lia).
    assert (Hneg : (delay <? 0) = false) by (apply Z.ltb_ge; lia).
    rewrite Ha, Hneg, Hrun.
    split; [reflexivity|]. split; [simpl; rewrite Hinv; reflexivity|].
    split; [|exact Hlast].
    cbn [sleeps]. rewrite Hsl. subst fuel1. cbn [seq map].
    rewrite Z.pow_0_r, Z.mul_1_r. f_equal.
    rewrite <- seq_shift, map_map. apply map_ext. intros k.
    rewrite Nat2Z.inj_succ, Z.pow_succ_r by lia. f_equal. ring.
Qed.
End UtilsRetryFacts.

(** X3.  The decorator [retry_with_backoff] of utils.py never calls the
    wrapped function more than [max_retries] times, whatever the function
    does, and it sleeps only between two calls. *)
Theorem utils_retry_call_bound {St V : Type}
    (func : St -> outcome V * St) (time_sleep : Q -> St -> St)
    (max_retries initial_delay : Z) (st : St) :
  let tr := snd (Utils.retry_with_backoff func time_sleep max_retries initial_delay st) in
  Z.of_nat (Utils.invocations tr) <= Z.max 0 max_retries
  /\ (length (Utils.sleeps tr) <= Utils.invocations tr - 1)%nat.
Proof.
  intros tr. unfold Utils.retry_with_backoff in tr.
  destruct (Z_le_gt_dec max_retries 0) as [Hnone|Hsome].
  - assert (Hz : Z.to_nat max_retries = O) by lia.
    subst tr. rewrite Hz. simpl. split; simpl; lia.
  - destruct (utils_retry_loop_bound func time_sleep max_retries
                (Z.to_nat max_retries) 0 initial_delay None st ltac:(lia))
      as (H1 & _ & H3).
    fold tr in H1, H3. specialize (H3 ltac:(lia)). split; lia.
Qed.

(** X4.  With [max_retries >= 1] and a non-negative [initial_delay], when
    the wrapped function fails at every call with an error derived from
    [Exception], the decorator of utils.py calls it exactly [max_retries]
    times, sleeps [initial_delay * 2^k] seconds after the failure number
    [k + 1] (no cap), and raises the error of the last call. *)
Theorem utils_retry_exhausted {St V : Type}
    (func : St -> outcome V * St) (time_sleep : Q -> St -> St)
    (max_retries initial_delay : Z) (st : St) :
  1 <= max_retries ->
  0 <= initial_delay ->
  (forall s, exists e s', func s = (Raise e, s') /\ isinstance e "Exception" = true) ->
  exists e st_last st' tr,
    Utils.retry_with_backoff func time_sleep max_retries initial_delay st
    = (Raise e, st', tr)
    /\ Utils.invocations tr = Z.to_nat max_retries
    /\ Utils.sleeps tr
       = map (fun k => inject_Z (initial_delay * 2 ^ Z.of_nat k))
             (seq 0 (Z.to_nat max_retries - 1))
    /\ func st_last = (Raise e, st').
Proof.
  intros Hmr Hd Hfail. unfold Utils.retry_with_backoff.
  destruct (Z.to_nat max_retries) as [|fuel] eqn:Hfuel; [lia|].
  replace (S fuel - 1)%nat with fuel by lia.
  apply utils_retry_loop_all_fail; [exact Hfail | lia | exact Hd].
Qed.

Lemma utils_retry_exhausted_witness :
  exists e st_last st' tr,
    Utils.retry_with_backoff (always_raise (Exception "boom")) no_sleep 4 3 0%nat
    = (Raise e, st', tr)
    /\ Utils.invocations tr = 4%nat
    /\ Utils.sleeps tr = [inject_Z 3; inject_Z 6; inject_Z 12]
    /\ always_raise (Exception "boom") st_last = (Raise e, st').
Proof.
  apply (utils_retry_exhausted (always_raise (Exception "boom")) no_sleep 4 3 0%nat).
  - lia.
  - lia.
  - intros s. exists (Exception "boom"), (S s). split; reflexivity.
Defined.

(** X5.  With [max_retries <= 0] the decorator of utils.py never calls the
    wrapped function: its loop is empty and [raise last_exception] raises
    a [TypeError], since [last_exception] is still [None]. *)
Theorem utils_retry_zero_retries {St V : Type}
    (func : St -> outcome V * St) (time_sleep : Q -> St -> St)
    (max_retries initial_delay : Z) (st : St) :
  max_retries <= 0 ->
  Utils.retry_with_backoff func time_sleep max_retries initial_delay st
  = (Raise (TypeError "exceptions must derive from BaseException"), st, []).
Proof.
  intros Hmr. unfold Utils.retry_with_backoff.
  replace (Z.to_nat max_retries) with O by lia. reflexivity.
Qed.

Lemma utils_retry_zero_retries_witness :
  Utils.retry_with_backoff (scripted (fun _ => Return 7)) no_sleep 0 1 0%nat
  = (Raise (TypeError "exceptions must derive from BaseException"), 0%nat, []).
Proof.
  apply (utils_retry_zero_retries (scripted (fun _ => Return 7)) no_sleep 0 1 0%nat).
  lia.
Defined.

Section UtilsScripted.
Import Utils.
Context {V : Type}.
Variable script : nat -> outcome V.
Variable max_retries : Z.

(** Failures derived from [Exception], then a call that ends otherwise. *)
Lemma utils_scripted_loop (k : nat) :
  Z.of_nat k < max_retries ->
  (forall i, (i < k)%nat ->
             exists ei, script i = Raise ei /\ isinstance ei "Exception" = true) ->
  (forall e, script k = Raise e -> isinstance e "Exception" = false) ->
  forall j n fuel delay last_exception,
    (n + j = k)%nat ->
    Z.of_nat n + Z.of_nat fuel = max_retries ->
    0 <= delay ->
    exists tr,
      Utils.retry_loop (scripted script) no_sleep max_retries fuel (Z.of_nat n) delay
                       last_exception n
      = (script k, S k, tr)
      /\ invocations tr = S j
      /\ sleeps tr = map (fun i => inject_Z (delay * 2 ^ Z.of_nat i)) (seq 0 j).
Proof.
  intros Hk Hpre Hlast. induction j as [|j IH]; intros n fuel delay lst Hn Hfuel Hd.
  - assert (n = k) as -> by lia.
    destruct fuel as [|fuel]; [lia|].
    exists [Invoke]. cbn [Utils.retry_loop]. unfold scripted at 1.
    destruct (script k) as [v|e] eqn:Hs; [auto|].
    rewrite (Hlast e eq_refl). auto.
  - destruct (Hpre n) as (ei & Hsi & Hci); [lia|].
    destruct fuel as [|fuel]; [lia|].
    destruct (IH (S n) fuel (delay * 2) (Some ei)) as (tr & Hl & Hi & Hs); [lia | lia | lia |].
    exists (Invoke :: Sleep (inject_Z delay) :: tr).
    cbn [Utils.retry_loop]. unfold scripted at 1. rewrite Hsi, Hci.
    assert (Ha : (Z.of_nat n <? max_retries - 1) = true) by (apply Z.ltb_lt; lia).
    assert (Hneg : (delay <? 0) = false) by (apply Z.ltb_ge; lia).
    rewrite Ha, Hneg.
    replace (Z.of_nat n + 1) with (Z.of_nat (S n)) by lia.
    change (no_sleep (inject_Z delay) (S n)) with (S n). rewrite Hl.
    split; [reflexivity|]. split; [simpl; rewrite Hi; reflexivity|].
    cbn [sleeps]. rewrite Hs. cbn [seq map].
    rewrite Z.pow_0_r, Z.mul_1_r. f_equal.
    rewrite <- seq_shift, map_map. apply map_ext. intros i.
    rewrite Nat2Z.inj_succ, Z.pow_succ_r by lia. f_equal. ring.
Qed.
End UtilsScripted.

(** X6.  In utils.py, when the first [k < max_retries] calls fail with
    errors derived from [Exception] and the next call returns, or raises
    an error that is not derived from [Exception], the decorator ends with
    the outcome of that call after exactly [k + 1] calls, having slept
    [initial_delay * 2^i] seconds after the failure number [i + 1]. *)
Theorem utils_retry_first_outcome {V : Type}
    (script : nat -> outcome V) (max_retries initial_delay : Z) (k : nat) :
  0 <= initial_delay ->
  Z.of_nat k < max_retries ->
  (forall i, (i < k)%nat ->
             exists ei, script i = Raise ei /\ isinstance ei "Exception" = true) ->
  (forall e, script k = Raise e -> isinstance e "Exception" = false) ->
  exists tr,
    Utils.retry_with_backoff (scripted script) no_sleep max_retries initial_delay 0%nat
    = (script k, S k, tr)
    /\ Utils.invocations tr = S k
    /\ Utils.sleeps tr
       = map (fun i => inject_Z (initial_delay * 2 ^ Z.of_nat i)) (seq 0 k).
Proof.
  intros Hd Hk Hpre Hlast. unfold Utils.retry_with_backoff.
  apply (utils_scripted_loop script max_retries k Hk Hpre Hlast k 0%nat); lia.
Qed.

Lemma utils_retry_first_outcome_witness :
  exists tr,
    Utils.retry_with_backoff
      (scripted (fun i => if (i <? 2)%nat then Raise (ValueError "bad") else Return 7))
      no_sleep 3 1 0%nat
    = (Return 7, 3%nat, tr)
    /\ Utils.invocations tr = 3%nat
    /\ Utils.sleeps tr = [inject_Z 1; inject_Z 2].
Proof.
  apply (utils_retry_first_outcome
           (fun i => if (i <? 2)%nat then Raise (ValueError "bad") else Return 7) 3 1 2).
  - lia.
  - lia.
  - intros i Hi. exists (ValueError "bad").
    destruct i as [|[|i]]; [split; reflexivity | split; reflexivity | lia].
  - intros e He. discriminate He.
Defined.

Section RetryPyFacts.
Import Utils.
Context {St V : Type}.
Variable func : St -> outcome V * St.
Variable time_sleep : Q -> St -> St.
Variable max_retries : Z.
Variable max_delay backoff_factor : Q.
Variable exceptions : list string.

Local Abbreviation rloop :=
  (Retry.retry_loop func time_sleep max_retries max_delay backoff_factor exceptions).

Lemma retry_loop_bound : forall fuel retry delay last_exception st,
  retry + Z.of_nat fuel = max_retries + 1 ->
  (invocations (snd (rloop fuel retry delay last_exception st)) <= fuel)%nat
  /\ ((0 < fuel)%nat ->
      (length (sleeps (snd (rloop fuel retry delay last_exception st)))
       < invocations (snd (rloop fuel retry delay last_exception st)))%nat).
Proof.
  induction fuel as [|fuel IH]; intros retry delay lst st Hidx.
  - simpl. destruct lst; simpl; split; intros; lia.
  - cbn [Retry.retry_loop].
    destruct (func st) as [[v|e] st1]; [simpl; split; intros; lia|].
    destruct (isinstance_any e exceptions); [|simpl; split; intros; lia].
    destruct (retry =? max_retries) eqn:Hr; [simpl; split; intros; lia|].
    apply Z.eqb_neq in Hr.
    destruct (Qltb delay 0); [simpl; split; intros; lia|].
    destruct (IH (retry + 1) (Qmin (delay * backoff_factor) max_delay) (Some e)
                 (time_sleep delay st1)) as (H1 & H3); [lia|].
    destruct (rloop fuel _ _ _ _) as [[o st2] tr]. simpl in *.
    specialize (H3 ltac:(lia)). split; [lia|]. intros _. lia.
Qed.
End RetryPyFacts.

(** X7.  The decorator [retry_with_backoff] of retry.py never calls the
    wrapped function more than [max_retries + 1] times, whatever the
    function does, and it sleeps only between two calls. *)
Theorem retry_call_bound {St V : Type}
    (func : St -> outcome V * St) (time_sleep : Q -> St -> St)
    (max_retries : Z) (initial_delay max_delay backoff_factor : Q)
    (exceptions : list string) (st : St) :
  let tr := snd (Retry.retry_with_backoff func time_sleep max_retries max_delay
                   backoff_factor exceptions initial_delay st) in
  Z.of_nat (Utils.invocations tr) <= Z.max 0 (max_retries + 1)
  /\ (length (Utils.sleeps tr) <= Utils.invocations tr - 1)%nat.
Proof.
  intros tr. unfold Retry.retry_with_backoff in tr.
  destruct (Z_le_gt_dec (max_retries + 1) 0) as [Hnone|Hsome].
  - assert (Hz : Z.to_nat (max_retries + 1) = O) by lia.
    subst tr. rewrite Hz. simpl. split; simpl; lia.
  - destruct (retry_loop_bound func time_sleep max_retries max_delay backoff_factor
                exceptions (Z.to_nat (max_retries + 1)) 0 initial_delay None st
                ltac:(lia)) as (H1 & H3).
    fold tr in H1, H3. specialize (H3 ltac:(lia)). split; lia.
Qed.

(** X8.  With a negative [max_retries] the decorator of retry.py returns
    [None] without calling the wrapped function at all. *)
Theorem retry_negative_retries {St V : Type}
    (func : St -> outcome V * St) (time_sleep : Q -> St -> St)
    (max_retries : Z) (initial_delay max_delay backoff_factor : Q)
    (exceptions : list string) (st : St) :
  max_retries < 0 ->
  Retry.retry_with_backoff func time_sleep max_retries max_delay backoff_factor
                           exceptions initial_delay st
  = (Return None, st, []).
Proof.
  intros Hmr. unfold Retry.retry_with_backoff.
  replace (Z.to_nat (max_retries + 1)) with O by lia. reflexivity.
Qed.

Lemma retry_negative_retries_witness :
  Retry.retry_with_backoff (scripted (fun _ => Return 7)) no_sleep (-1) 60 2
                           ["Exception"%string] 1 0%nat
  = (Return None, 0%nat, []).
Proof.
  apply (retry_negative_retries (scripted (fun _ => Return 7)) no_sleep (-1) 1 60 2
           ["Exception"%string] 0%nat).
  lia.
Defined.

Section ScriptedSuccess.
Import Utils.
Context {V : Type}.
Variable script : nat -> outcome V.
Variable max_retries : Z.
Variable max_delay backoff_factor : Q.
Variable exceptions : list string.
Hypothesis backoff_nonneg : (0 <= backoff_factor)%Q.
Hypothesis max_delay_nonneg : (0 <= max_delay)%Q.

(** Caught failures followed by a call that returns. *)
Lemma scripted_loop_success (k : nat) (v : V) :
  Z.of_nat k <= max_retries ->
  (forall i, (i < k)%nat ->
             exists ei, script i = Raise ei /\ isinstance_any ei exceptions = true) ->
  script k = Return v ->
  forall j n fuel delay last_exception,
    (n + j = k)%nat ->
    Z.of_nat n + Z.of_nat fuel = max_retries + 1 ->
    (0 <= delay)%Q ->
    exists tr,
      Retry.retry_loop (scripted script) no_sleep max_retries max_delay backoff_factor
                       exceptions fuel (Z.of_nat n) delay last_exception n
      = (Return (Some v), S k, tr)
      /\ invocations tr = S j
      /\ sleeps tr = Retry.backoff_delays max_delay backoff_factor j delay.
Proof.
  intros Hk Hpre Hlast. induction j as [|j IH]; intros n fuel delay lst Hn Hfuel Hd.
  - assert (n = k) as -> by lia.
    destruct fuel as [|fuel]; [lia|].
    exists [Invoke]. cbn [Retry.retry_loop]. unfold scripted at 1. rewrite Hlast. auto.
  - destruct (Hpre n) as (ei & Hsi & Hci); [lia|].
    destruct fuel as [|fuel]; [lia|].
    rewrite (retry_loop_caught (scripted script) no_sleep max_retries max_delay
               backoff_factor exceptions fuel (Z.of_nat n) delay lst n ei (S n));
      [ | unfold scripted; rewrite Hsi; reflexivity | exact Hci | lia | exact Hd].
    destruct (IH (S n) fuel (Qmin (delay * backoff_factor) max_delay) (Some ei))
      as (tr & Hl & Hi & Hs).
    { lia. }
    { lia. }
    { apply next_delay_nonneg; assumption. }
    exists (Invoke :: Sleep delay :: tr).
    replace (Z.of_nat n + 1) with (Z.of_nat (S n)) by lia.
    change (no_sleep delay (S n)) with (S n). rewrite Hl.
    split; [reflexivity|].
    split; [simpl; rewrite Hi; reflexivity|].
    simpl. rewrite Hs. reflexivity.
Qed.
End ScriptedSuccess.

(** X9.  In retry.py, when the first [k <= max_retries] calls fail with
    caught errors and the next call returns [v], the decorator returns [v]
    after exactly [k + 1] calls, having slept the first [k] values of
    [delay]: [initial_delay], then [min(delay * backoff_factor, max_delay)]
    each time. *)
Theorem retry_returns_first_success {V : Type}
    (script : nat -> outcome V) (max_retries : Z)
    (initial_delay max_delay backoff_factor : Q) (exceptions : list string)
    (k : nat) (v : V) :
  (0 <= initial_delay)%Q -> (0 <= max_delay)%Q -> (0 <= backoff_factor)%Q ->
  Z.of_nat k <= max_retries ->
  (forall i, (i < k)%nat ->
             exists ei, script i = Raise ei /\ isinstance_any ei exceptions = true) ->
  script k = Return v ->
  exists tr,
    Retry.retry_with_backoff (scripted script) no_sleep max_retries max_delay
                             backoff_factor exceptions initial_delay 0%nat
    = (Return (Some v), S k, tr)
    /\ Utils.invocations tr = S k
    /\ Utils.sleeps tr = Retry.backoff_delays max_delay backoff_factor k initial_delay.
Proof.
  intros Hi Hm Hb Hk Hpre Hlast. unfold Retry.retry_with_backoff.
  apply (scripted_loop_success script max_retries max_delay backoff_factor
           exceptions Hb Hm k v Hk Hpre Hlast k 0%nat); [lia | lia | exact Hi].
Qed.

Lemma retry_returns_first_success_witness :
  exists tr,
    Retry.retry_with_backoff
      (scripted (fun i => if (i <? 2)%nat then Raise (ValueError "bad") else Return 7))
      no_sleep 3 60 2 ["Exception"%string] 40 0%nat
    = (Return (Some 7), 3%nat, tr)
    /\ Utils.invocations tr = 3%nat
    /\ Utils.sleeps tr = Retry.backoff_delays 60 2 2 40.
Proof.
  apply (retry_returns_first_success
           (fun i => if (i <? 2)%nat then Raise (ValueError "bad") else Return 7)
           3 40 60 2 ["Exception"%string] 2 7).
  - vm_compute; discriminate.
  - vm_compute; discriminate.
  - vm_compute; discriminate.
  - lia.
  - intros i Hi. exists (ValueError "bad").
    destruct i as [|[|i]]; [split; reflexivity | split; reflexivity | lia].
  - reflexivity.
Defined.

(** X10.  In retry.py, while the wrapped function keeps failing with
    caught errors, the delay slept before the first retry is
    [initial_delay] itself, and the delay slept before every later retry is
    at most [max_delay]. *)
Theorem retry_later_delays_capped {St V : Type}
    (func : St -> outcome V * St) (time_sleep : Q -> St -> St)
    (max_retries : Z) (initial_delay max_delay backoff_factor : Q)
    (exceptions : list string) (st : St) (k : nat) :
  (0 <= initial_delay)%Q -> (0 <= max_delay)%Q -> (0 <= backoff_factor)%Q ->
  (forall s, exists e s', func s = (Raise e, s') /\ isinstance_any e exceptions = true) ->
  (1 <= k)%nat -> Z.of_nat k <= max_retries ->
  exists d,
    Utils.sleeps (snd (Retry.retry_with_backoff func time_sleep max_retries max_delay
                         backoff_factor exceptions initial_delay st)) !! (k - 1)%nat
    = Some d
    /\ (k = 1%nat -> d = initial_delay)
    /\ ((2 <= k)%nat -> (d <= max_delay)%Q).
Proof.
  intros Hi Hm Hb Hfail Hk1 Hk.
  unfold Retry.retry_with_backoff.
  replace (Z.to_nat (max_retries + 1)) with (S (Z.to_nat max_retries)) by lia.
  rewrite (retry_loop_all_fail_sleeps max_delay backoff_factor func time_sleep
             max_retries exceptions Hfail) by (lia || lra).
  rewrite backoff_delays_lookup by lia.
  eexists. split; [reflexivity|]. split.
  - intros ->. reflexivity.
  - intros H2. replace (k - 1)%nat with (S (k - 2)) by lia.
    rewrite Nat.iter_succ. unfold Retry.next_delay at 1. apply Q.le_min_r.
Qed.

Lemma retry_later_delays_capped_witness :
  exists d,
    Utils.sleeps (snd (Retry.retry_with_backoff (always_raise (Exception "boom")) no_sleep
                         3 60 2 ["Exception"%string] 100 0%nat)) !! (3 - 1)%nat
    = Some d
    /\ (3%nat = 1%nat -> d = 100%Q)
    /\ ((2 <= 3)%nat -> (d <= 60)%Q).
Proof.
  apply (retry_later_delays_capped (always_raise (Exception "boom")) no_sleep
           3 100 60 2 ["Exception"%string] 0%nat 3).
  - vm_compute; discriminate.
  - vm_compute; discriminate.
  - vm_compute; discriminate.
  - intros s. exists (Exception "boom"), (S s). split; reflexivity.
  - lia.
  - lia.
Defined.

(** ** More on the circuit breaker *)

Section BreakerInvariants.
Import CircuitBreaker.

Lemma steps_failure_threshold cs : forall cb,
  failure_threshold (steps cb cs) = failure_threshold cb.
Proof.
  induction cs as [|c cs IH]; intros cb; [reflexivity|].
  simpl. rewrite IH. apply step_failure_threshold.
Qed.

(** A breaker that is not CLOSED has reached its threshold; with a
    positive threshold a CLOSED breaker has not, and the count is never
    negative. *)
Lemma tripped_inv_step cb c :
  (state cb <> CLOSED -> failure_threshold cb <= failure_count cb) ->
  (state (step cb c) <> CLOSED ->
   failure_threshold (step cb c) <= failure_count (step cb c)).
Proof.
  intros IH. destruct c as [now| |now]; simpl.
  - unfold can_execute. destruct (state cb) eqn:Hs; simpl.
    + rewrite Hs. congruence.
    + destruct (Qle_bool _ _); simpl; intros _; apply IH; discriminate.
    + intros _. apply IH. discriminate.
  - congruence.
  - destruct (failure_count cb + 1 >=? failure_threshold cb) eqn:Hge.
    + intros _. lia.
    + intros Hs. specialize (IH Hs). lia.
Qed.

Lemma closed_inv_step cb c :
  1 <= failure_threshold cb ->
  (0 <= failure_count cb /\ (state cb = CLOSED -> failure_count cb < failure_threshold cb)) ->
  0 <= failure_count (step cb c)
  /\ (state (step cb c) = CLOSED ->
      failure_count (step cb c) < failure_threshold (step cb c)).
Proof.
  intros Hft [Hc IH]. destruct c as [now| |now]; simpl.
  - unfold can_execute. destruct (state cb) eqn:Hs; simpl.
    + split; [exact Hc|]. intros _. apply IH. reflexivity.
    + destruct (Qle_bool _ _); simpl; (split; [exact Hc|]); [discriminate|].
      rewrite Hs. discriminate.
    + split; [exact Hc|]. rewrite Hs. discriminate.
  - split; [lia|]. intros _. lia.
  - split; [lia|].
    destruct (failure_count cb + 1 >=? failure_threshold cb) eqn:Hge; [discriminate|].
    intros _. apply geb_false_lt in Hge. exact Hge.
Qed.

Lemma tripped_inv_steps cs : forall cb,
  (state cb <> CLOSED -> failure_threshold cb <= failure_count cb) ->
  (state (steps cb cs) <> CLOSED ->
   failure_threshold (steps cb cs) <= failure_count (steps cb cs)).
Proof.
  induction cs as [|c cs IH]; intros cb Hcb; [exact Hcb|].
  simpl. apply IH. apply tripped_inv_step. exact Hcb.
Qed.

Lemma closed_inv_steps cs : forall cb,
  1 <= failure_threshold cb ->
  (0 <= failure_count cb /\ (state cb = CLOSED -> failure_count cb < failure_threshold cb)) ->
  0 <= failure_count (steps cb cs)
  /\ (state (steps cb cs) = CLOSED ->
      failure_count (steps cb cs) < failure_threshold (steps cb cs)).
Proof.
  induction cs as [|c cs IH]; intros cb Hft Hcb; [exact Hcb|].
  simpl. apply IH.
  - rewrite step_failure_threshold. exact Hft.
  - apply closed_inv_step; assumption.
Qed.
End BreakerInvariants.

(** X11.  With a positive [failure_threshold], in every state reached from
    a fresh breaker by [can_execute], [record_success] and
    [record_failure] calls, [failure_count] is not negative and the breaker
    is CLOSED exactly when [failure_count < failure_threshold]. *)
Theorem closed_iff_below_threshold
    (ft rt : Z) (ee : string) (cs : list CircuitBreaker.call) :
  1 <= ft ->
  0 <= CircuitBreaker.failure_count (CircuitBreaker.steps (CircuitBreaker.init ft rt ee) cs)
  /\ (CircuitBreaker.state (CircuitBreaker.steps (CircuitBreaker.init ft rt ee) cs)
      = CircuitBreaker.CLOSED
      <-> CircuitBreaker.failure_count
            (CircuitBreaker.steps (CircuitBreaker.init ft rt ee) cs) < ft).
Proof.
  intros Hft.
  set (cb := CircuitBreaker.steps (CircuitBreaker.init ft rt ee) cs).
  assert (Hthr : CircuitBreaker.failure_threshold cb = ft)
    by (unfold cb; rewrite steps_failure_threshold; reflexivity).
  destruct (closed_inv_steps cs (CircuitBreaker.init ft rt ee)) as [H0 Hclosed].
  { exact Hft. }
  { simpl. split; [lia|]. intros _. lia. }
  pose proof (tripped_inv_steps cs (CircuitBreaker.init ft rt ee)) as Htripped.
  fold cb in H0, Hclosed, Htripped. rewrite Hthr in Hclosed, Htripped.
  split; [exact H0|]. split; [exact Hclosed|].
  intros Hlt.
  destruct (CircuitBreaker.state cb) eqn:Hs; [reflexivity | |];
    (assert (ft <= CircuitBreaker.failure_count cb)
      by (apply Htripped; [simpl; congruence | congruence]); lia).
Qed.

Lemma closed_iff_below_threshold_witness :
  0 <= CircuitBreaker.failure_count
         (CircuitBreaker.steps (CircuitBreaker.init 2 60 "Exception")
            [CircuitBreaker.RecordFailure 1; CircuitBreaker.RecordFailure 3;
             CircuitBreaker.CanExecute 70])
  /\ (CircuitBreaker.state
        (CircuitBreaker.steps (CircuitBreaker.init 2 60 "Exception")
           [CircuitBreaker.RecordFailure 1; CircuitBreaker.RecordFailure 3;
            CircuitBreaker.CanExecute 70])
      = CircuitBreaker.CLOSED
      <-> CircuitBreaker.failure_count
            (CircuitBreaker.steps (CircuitBreaker.init 2 60 "Exception")
               [CircuitBreaker.RecordFailure 1; CircuitBreaker.RecordFailure 3;
                CircuitBreaker.CanExecute 70]) < 2).
Proof.
  apply (closed_iff_below_threshold 2 60 "Exception"
           [CircuitBreaker.RecordFailure 1; CircuitBreaker.RecordFailure 3;
            CircuitBreaker.CanExecute 70]).
  lia.
Defined.

(** X12.  A failed trial call opens the breaker again: in every HALF_OPEN
    state reached from a fresh breaker, [record_failure] at [now] gives an
    OPEN breaker, and every [can_execute] call for which the difference
    [t - now], as the code computes it in binary64, is not at least
    [recovery_timeout] answers [False]. *)
Theorem failed_probe_reopens
    (ft rt : Z) (ee : string) (cs : list Binary64Breaker.call) (now : float) :
  Binary64Breaker.state (Binary64Breaker.steps (Binary64Breaker.init ft rt ee) cs)
  = CircuitBreaker.HALF_OPEN ->
  let cb := Binary64Breaker.record_failure
              (Binary64Breaker.steps (Binary64Breaker.init ft rt ee) cs) now in
  Binary64Breaker.state cb = CircuitBreaker.OPEN
  /\ forall t,
       PrimFloat.leb (Binary64.float_of_Z rt) (PrimFloat.sub t now) = false ->
       Binary64Breaker.can_execute cb t = (false, cb).
Proof.
  intros Hs cb.
  set (cb0 := Binary64Breaker.steps (Binary64Breaker.init ft rt ee) cs) in *.
  pose proof (b64_tripped_inv_steps cs (Binary64Breaker.init ft rt ee)) as Htripped.
  fold cb0 in Htripped.
  assert (Hge : Binary64Breaker.failure_threshold cb0
                <= Binary64Breaker.failure_count cb0).
  { apply Htripped; [simpl; congruence | congruence]. }
  assert (Hopen : Binary64Breaker.state cb = CircuitBreaker.OPEN).
  { unfold cb, Binary64Breaker.record_failure. simpl.
    destruct (_ >=? _) eqn:E; [reflexivity|]. apply geb_false_lt in E. lia. }
  split; [exact Hopen|].
  intros t Ht. apply b64_can_execute_open_early; [exact Hopen|].
  destruct (b64_steps_config cs (Binary64Breaker.init ft rt ee)) as [_ Hrt].
  fold cb0 in Hrt. simpl in Hrt.
  unfold Binary64Breaker.recovered, Binary64Breaker.elapsed, cb. simpl.
  rewrite Hrt. exact Ht.
Qed.

Lemma failed_probe_reopens_witness :
  let cb := Binary64Breaker.record_failure
              (Binary64Breaker.steps (Binary64Breaker.init 2 60 "Exception")
                 [Binary64Breaker.RecordFailure 1; Binary64Breaker.RecordFailure 3;
                  Binary64Breaker.CanExecute 70]) 71 in
  Binary64Breaker.state cb = CircuitBreaker.OPEN
  /\ forall t,
       PrimFloat.leb (Binary64.float_of_Z 60) (PrimFloat.sub t 71) = false ->
       Binary64Breaker.can_execute cb t = (false, cb).
Proof.
  apply (failed_probe_reopens 2 60 "Exception"
           [Binary64Breaker.RecordFailure 1; Binary64Breaker.RecordFailure 3;
            Binary64Breaker.CanExecute 70] 71).
  reflexivity.
Defined.

Section ConsecutiveFailures.
Import CircuitBreaker.

Lemma record_failures_from : forall ts cb,
  failure_count (steps cb (map RecordFailure ts))
  = failure_count cb + Z.of_nat (length ts)
  /\ state (steps cb (map RecordFailure ts))
     = (if (1 <=? Z.of_nat (length ts))
           && (failure_threshold cb <=? failure_count cb + Z.of_nat (length ts))
        then OPEN else state cb).
Proof.
  induction ts as [|t ts IH]; intros cb.
  - simpl. split; [lia|]. reflexivity.
  - change (steps cb (map RecordFailure (t :: ts)))
      with (steps (record_failure cb t) (map RecordFailure ts)).
    destruct (IH (record_failure cb t)) as [IHc IHs].
    rewrite IHc, IHs. cbn [record_failure failure_count failure_threshold state length].
    split; [lia|].
    replace (failure_count cb + 1 + Z.of_nat (length ts))
      with (failure_count cb + Z.of_nat (S (length ts))) by lia.
    assert (H1 : (1 <=? Z.of_nat (S (length ts))) = true) by (apply Z.leb_le; lia).
    rewrite H1. cbn [andb].
    destruct (failure_threshold cb <=? failure_count cb + Z.of_nat (S (length ts))) eqn:E.
    + destruct (1 <=? Z.of_nat (length ts)) eqn:E1; cbn [andb]; [reflexivity|].
      destruct (failure_count cb + 1 >=? failure_threshold cb) eqn:E2; [reflexivity|].
      apply geb_false_lt in E2. apply Z.leb_le in E. apply Z.leb_gt in E1. lia.
    + rewrite andb_false_r.
      apply Z.leb_gt in E.
      destruct (failure_count cb + 1 >=? failure_threshold cb) eqn:E2; [|reflexivity].
      rewrite Z.geb_leb in E2. apply Z.leb_le in E2. lia.
Qed.
End ConsecutiveFailures.

(** X13.  After [n] [record_failure] calls in a row on a fresh breaker,
    [failure_count] is [n]; the breaker is OPEN when [n >= 1] and
    [n >= failure_threshold], and still CLOSED otherwise. *)
Theorem consecutive_failures_open (ft rt : Z) (ee : string) (ts : list Q) :
  let cb := CircuitBreaker.steps (CircuitBreaker.init ft rt ee)
              (map CircuitBreaker.RecordFailure ts) in
  CircuitBreaker.failure_count cb = Z.of_nat (length ts)
  /\ CircuitBreaker.state cb
     = (if (1 <=? Z.of_nat (length ts)) && (ft <=? Z.of_nat (length ts))
        then CircuitBreaker.OPEN else CircuitBreaker.CLOSED).
Proof.
  intros cb. unfold cb.
  destruct (record_failures_from ts (CircuitBreaker.init ft rt ee)) as [Hc Hs].
  rewrite Hc, Hs. simpl. split; reflexivity.
Qed.

Section DecoratedBreaker.
Import CircuitBreaker Binary64Breaker.
Context {V : Type}.
Variable func : nat -> outcome V * nat.
Variable ee : string.
Hypothesis func_fails :
  forall n, exists e, func n = (Raise e, S n) /\ isinstance e ee = true.

(** Failing calls through the decorator while the breaker is CLOSED and
    the threshold is still ahead. *)
Lemma circuit_breaker_all_failing : forall ts cb n,
  state cb = CLOSED ->
  expected_exception cb = ee ->
  ts <> [] ->
  failure_count cb + Z.of_nat (length ts) = failure_threshold cb ->
  exists os cb',
    circuit_breaker_all func cb ts n = (os, (n + length ts)%nat, cb')
    /\ Forall (fun o => is_raise o = true) os
    /\ state cb' = OPEN
    /\ failure_count cb' = failure_threshold cb
    /\ recovery_timeout cb' = recovery_timeout cb
    /\ Some (last_failure_time cb') = snd <$> last ts.
Proof.
  induction ts as [|[now nf] ts IH]; intros cb n Hs Hee Hne Hcount; [congruence|].
  cbn [circuit_breaker_all]. unfold circuit_breaker, can_execute. rewrite Hs.
  cbn [negb]. destruct (func_fails n) as (e & Hf & He). rewrite Hf.
  cbn [state]. rewrite Hee, He.
  destruct ts as [|p ts].
  - exists [Raise e], (record_failure cb nf). cbn [circuit_breaker_all].
    simpl in Hcount.
    split; [f_equal; f_equal; simpl; lia|].
    split; [repeat constructor|].
    unfold record_failure. simpl.
    assert (Hge : (failure_count cb + 1 >=? failure_threshold cb) = true).
    { rewrite Z.geb_leb. apply Z.leb_le. lia. }
    rewrite Hge. repeat split; lia.
  - destruct (IH (record_failure cb nf) (S n)) as (os & cb' & Hrun & Hos & Hst & Hc & Hrt & Hl).
    + unfold record_failure. simpl.
      destruct (failure_count cb + 1 >=? failure_threshold cb) eqn:Hge; [|exact Hs].
      rewrite Z.geb_leb in Hge. apply Z.leb_le in Hge. simpl in Hcount. lia.
    + simpl. exact Hee.
    + discriminate.
    + simpl in *. lia.
    + rewrite Hrun. exists (Raise e :: os), cb'.
      split; [f_equal; f_equal; simpl; lia|].
      split; [constructor; [reflexivity | exact Hos]|].
      simpl in *. repeat split; assumption.
Qed.
End DecoratedBreaker.

(** X14.  Through the decorator [circuit_breaker], with a positive
    [failure_threshold]: when the wrapped function fails with an expected
    error at each of the first [failure_threshold] calls, every one of
    these calls runs the function and raises its error, the breaker is then
    OPEN, and a further call raises the breaker's own [Exception] without
    running the function when the difference between its reading and the
    reading of the last failure, as the code computes it in binary64, is
    not at least [recovery_timeout]. *)
Theorem circuit_breaker_trips {V : Type}
    (func : nat -> outcome V * nat) (ft rt : Z) (ee : string)
    (ts : list (float * float)) (now now_failure : float) :
  (forall n, exists e, func n = (Raise e, S n) /\ isinstance e ee = true) ->
  1 <= ft ->
  Z.of_nat (length ts) = ft ->
  (forall t, snd <$> last ts = Some t ->
             PrimFloat.leb (Binary64.float_of_Z rt) (PrimFloat.sub now t) = false) ->
  exists os cb,
    Binary64Breaker.circuit_breaker_all func (Binary64Breaker.init ft rt ee) ts 0%nat
    = (os, length ts, cb)
    /\ Forall (fun o => is_raise o = true) os
    /\ Binary64Breaker.state cb = CircuitBreaker.OPEN
    /\ Binary64Breaker.circuit_breaker func cb now now_failure (length ts)
       = (Raise (Exception ("Circuit breaker is OPEN, waiting " +:+ pretty rt
                            +:+ "s for recovery")),
          length ts, cb).
Proof.
  intros Hfail Hft Hlen Hsoon.
  destruct (circuit_breaker_all_failing func ee Hfail ts (Binary64Breaker.init ft rt ee) 0%nat)
    as (os & cb & Hrun & Hos & Hst & Hc & Hrt & Hl).
  - reflexivity.
  - reflexivity.
  - intros ->. simpl in Hlen. lia.
  - simpl. lia.
  - exists os, cb. simpl in Hrun, Hrt.
    split; [exact Hrun|]. split; [exact Hos|]. split; [exact Hst|].
    unfold Binary64Breaker.circuit_breaker.
    rewrite (b64_can_execute_open_early cb now Hst).
    + cbn [negb]. rewrite Hst, Hrt. reflexivity.
    + unfold Binary64Breaker.recovered, Binary64Breaker.elapsed.
      rewrite Hrt. apply Hsoon. symmetry. exact Hl.
Qed.

Lemma circuit_breaker_trips_witness :
  exists os cb,
    Binary64Breaker.circuit_breaker_all (always_raise (ValueError "bad"))
      (Binary64Breaker.init 2 60 "Exception")
      [(1%float, 2%float); (3%float, 4.5%float)] 0%nat
    = (os, 2%nat, cb)
    /\ Forall (fun o => is_raise o = true) os
    /\ Binary64Breaker.state cb = CircuitBreaker.OPEN
    /\ Binary64Breaker.circuit_breaker (always_raise (ValueError "bad")) cb
         63.25%float 64%float 2%nat
       = (Raise (Exception ("Circuit breaker is OPEN, waiting " +:+ pretty 60
                            +:+ "s for recovery")),
          2%nat, cb).
Proof.
  apply (circuit_breaker_trips (always_raise (ValueError "bad")) 2 60 "Exception"
           [(1%float, 2%float); (3%float, 4.5%float)] 63.25%float 64%float).
  - intros n. exists (ValueError "bad"). split; reflexivity.
  - lia.
  - reflexivity.
  - intros t Ht. simpl in Ht. inversion Ht; subst. vm_compute. reflexivity.
Defined.

(** ** More on the client *)

(** X15.  [post_tweet] never retries: on a limiter with complete
    dictionaries and non-zero periods its body is called exactly once and
    nothing is slept, whatever the platform does.  The limiter is left as
    [acquire] leaves it, also when the request fails; a request is sent
    exactly when the bucket admits; and a tweet id is returned exactly when
    the bucket admits and the platform answers with one. *)
Theorem post_tweet_single_attempt
    (api : nat -> outcome (option string)) (w : XAPIClient.World) :
  NoDup (map fst (Utils.limits (XAPIClient.rate_limiter w))) ->
  Forall (fun wl => Utils.time_window (snd wl) <> 0)
         (Utils.limits (XAPIClient.rate_limiter w)) ->
  has_keys (Utils.limits (XAPIClient.rate_limiter w))
           (Utils.tokens (XAPIClient.rate_limiter w))
           (Utils.last_update (XAPIClient.rate_limiter w)) ->
  exists o w',
    XAPIClient.post_tweet api w = (o, w', [Utils.Invoke])
    /\ XAPIClient.rate_limiter w'
       = snd (Utils.acquire (XAPIClient.rate_limiter w) (XAPIClient.clock w))
    /\ XAPIClient.api_calls w'
       = (if all_ok (XAPIClient.rate_limiter w) (XAPIClient.clock w)
          then S (XAPIClient.api_calls w) else XAPIClient.api_calls w)
    /\ forall tweet_id,
         o = Return (Some tweet_id)
         <-> all_ok (XAPIClient.rate_limiter w) (XAPIClient.clock w) = true
             /\ api (XAPIClient.api_calls w) = Return (Some tweet_id).
Proof.
  intros Hnd Hper Hkeys.
  destruct (acquire_spec (XAPIClient.rate_limiter w) (XAPIClient.clock w) Hnd Hper Hkeys)
    as (rl1 & Hrun & _ & _).
  unfold XAPIClient.post_tweet, Utils.retry_with_backoff, XAPIClient.MAX_RETRIES.
  change (Z.to_nat 3) with 3%nat. cbn [Utils.retry_loop].
  unfold XAPIClient.post_tweet_body. rewrite Hrun. cbn [snd].
  destruct (all_ok (XAPIClient.rate_limiter w) (XAPIClient.clock w)).
  - destruct (api (XAPIClient.api_calls w)) as [[tweet_id|]|e] eqn:Hapi.
    + do 2 eexists. split; [reflexivity|]. split; [reflexivity|]. split; [reflexivity|].
      intros id. split; [intros H; inversion H; auto | intros [_ H]; exact H].
    + do 2 eexists. split; [reflexivity|]. split; [reflexivity|]. split; [reflexivity|].
      intros id. split; [discriminate | intros [_ H]; discriminate].
    + destruct (isinstance e "Exception") eqn:He.
      * do 2 eexists. split; [reflexivity|]. split; [reflexivity|]. split; [reflexivity|].
        intros id. split; [discriminate | intros [_ H]; discriminate].
      * rewrite He. do 2 eexists. split; [reflexivity|]. split; [reflexivity|].
        split; [reflexivity|].
        intros id. split; [discriminate | intros [_ H]; discriminate].
  - do 2 eexists. split; [reflexivity|]. split; [reflexivity|]. split; [reflexivity|].
    intros id. split; [discriminate | intros [H _]; discriminate].
Qed.

Lemma post_tweet_single_attempt_witness :
  let w := XAPIClient.Build_World 5
             (Utils.init XAPIClient.client_limits (fun _ => 0%Q)) 0 in
  exists o w',
    XAPIClient.post_tweet (fun _ => Raise (Exception "503")) w = (o, w', [Utils.Invoke])
    /\ XAPIClient.rate_limiter w'
       = snd (Utils.acquire (XAPIClient.rate_limiter w) (XAPIClient.clock w))
    /\ XAPIClient.api_calls w'
       = (if all_ok (XAPIClient.rate_limiter w) (XAPIClient.clock w)
          then S (XAPIClient.api_calls w) else XAPIClient.api_calls w)
    /\ forall tweet_id,
         o = Return (Some tweet_id)
         <-> all_ok (XAPIClient.rate_limiter w) (XAPIClient.clock w) = true
             /\ @Raise (option string) (Exception "503") = Return (Some tweet_id).
Proof.
  intros w.
  apply (post_tweet_single_attempt (fun _ => Raise (Exception "503")) w).
  - nodup_names.
  - repeat constructor; simpl; lia.
  - repeat constructor; vm_compute; eexists; reflexivity.
Defined.

Section GuardedFacts.
Import Utils XAPIClient.
Context {V : Type}.
Variable api : nat -> outcome V.

(** Every call of the body is one request, and sleeping sends none. *)
Lemma request_loop_api_calls : forall fuel attempt delay last_exception w,
  api_calls (snd (fst (Utils.retry_loop (request_body api) time_sleep MAX_RETRIES
                         fuel attempt delay last_exception w)))
  = (api_calls w
     + invocations (snd (Utils.retry_loop (request_body api) time_sleep MAX_RETRIES
                           fuel attempt delay last_exception w)))%nat.
Proof.
  induction fuel as [|fuel IH]; intros attempt delay lst w.
  - simpl. destruct lst; simpl; lia.
  - cbn [Utils.retry_loop].
    assert (Hb : api_calls (snd (request_body api w)) = S (api_calls w)) by reflexivity.
    destruct (request_body api w) as [[v|e] w1]; simpl in Hb; [simpl; lia|].
    destruct (isinstance e "Exception"); [|simpl; lia].
    destruct (attempt <? MAX_RETRIES - 1).
    + destruct (delay <? 0); [simpl; lia|].
      specialize (IH (attempt + 1) (delay * 2) (Some e) (time_sleep (inject_Z delay) w1)).
      destruct (Utils.retry_loop _ _ _ fuel _ _ _ _) as [[o w2] tr].
      simpl in *. lia.
    + specialize (IH (attempt + 1) delay (Some e) w1).
      destruct (Utils.retry_loop _ _ _ fuel _ _ _ _) as [[o w2] tr].
      simpl in *. lia.
Qed.
End GuardedFacts.

(** The loop of utils.py calls the function as soon as it is entered. *)
Lemma utils_retry_loop_invoked {St V : Type}
    (func : St -> outcome V * St) (time_sleep : Q -> St -> St) (max_retries : Z)
    (fuel : nat) (attempt delay : Z) (last_exception : option exn) (st : St) :
  (1 <= Utils.invocations
          (snd (Utils.retry_loop func time_sleep max_retries (S fuel) attempt delay
                  last_exception st)))%nat.
Proof.
  cbn [Utils.retry_loop].
  destruct (func st) as [[v|e] st1]; [simpl; lia|].
  destruct (isinstance e "Exception"); [|simpl; lia].
  destruct (attempt <? max_retries - 1).
  - destruct (delay <? 0); [simpl; lia|].
    destruct (Utils.retry_loop _ _ _ fuel _ _ _ _) as [[o st2] tr]. simpl. lia.
  - destruct (Utils.retry_loop _ _ _ fuel _ _ _ _) as [[o st2] tr]. simpl. lia.
Qed.

(** X16.  A method of the client decorated with [rate_limit] around
    [retry_with_backoff] ([search_tweets], [like_tweet], [retweet],
    [reply_to_tweet]): a call refused by the rate limit raises
    [Exception("Rate limit exceeded for <name>")] at once, sends no request
    and is not retried; an admitted call takes one entry of the limit and
    sends at least one and at most [MAX_RETRIES] requests. *)
Theorem guarded_call_requests {V : Type}
    (api : nat -> outcome V) (name : string) (requests : list Q)
    (w : XAPIClient.World) :
  let kept := Utils.drop_old (XAPIClient.clock w) 3600 requests in
  let r := XAPIClient.guarded api name requests w in
  (XAPIClient.X_RATE_LIMIT <= Z.of_nat (length kept) ->
   r = (Raise (Exception ("Rate limit exceeded for " +:+ name)), (w, []), kept))
  /\ (Z.of_nat (length kept) < XAPIClient.X_RATE_LIMIT ->
      snd r = kept ++ [XAPIClient.clock w]
      /\ XAPIClient.api_calls (fst (snd (fst r)))
         = (XAPIClient.api_calls w + Utils.invocations (snd (snd (fst r))))%nat
      /\ (1 <= Utils.invocations (snd (snd (fst r))))%nat
      /\ Z.of_nat (Utils.invocations (snd (snd (fst r)))) <= XAPIClient.MAX_RETRIES).
Proof.
  intros kept r. unfold r, XAPIClient.guarded, Utils.rate_limit. fold kept. split.
  - intros Hfull.
    assert (E : (Z.of_nat (length kept) >=? XAPIClient.X_RATE_LIMIT) = true).
    { rewrite Z.geb_leb. apply Z.leb_le. exact Hfull. }
    rewrite E. reflexivity.
  - intros Hroom.
    assert (E : (Z.of_nat (length kept) >=? XAPIClient.X_RATE_LIMIT) = false).
    { rewrite Z.geb_leb. apply Z.leb_gt. exact Hroom. }
    rewrite E. unfold XAPIClient.retried. cbn [fst snd].
    pose proof (utils_retry_call_bound (XAPIClient.request_body api) XAPIClient.time_sleep
                  XAPIClient.MAX_RETRIES 1 w) as Hbound.
    pose proof (request_loop_api_calls api (Z.to_nat XAPIClient.MAX_RETRIES) 0 1 None w)
      as Hcalls.
    pose proof (utils_retry_loop_invoked (XAPIClient.request_body api)
                  XAPIClient.time_sleep XAPIClient.MAX_RETRIES 2 0 1 None w) as Hone.
    change (S 2) with (Z.to_nat XAPIClient.MAX_RETRIES) in Hone.
    fold (Utils.retry_with_backoff (XAPIClient.request_body api) XAPIClient.time_sleep
            XAPIClient.MAX_RETRIES 1 w) in Hcalls, Hone.
    destruct (Utils.retry_with_backoff (XAPIClient.request_body api)
                XAPIClient.time_sleep XAPIClient.MAX_RETRIES 1 w) as [[o w1] tr].
    simpl in *. split; [reflexivity|]. split; [exact Hcalls|]. split; [exact Hone|].
    destruct Hbound as [Hb _]. unfold XAPIClient.MAX_RETRIES in *. lia.
Qed.

Lemma guarded_call_requests_witness :
  let w := XAPIClient.Build_World 100
             (Utils.init XAPIClient.client_limits (fun _ => 0%Q)) 0 in
  let failing := fun _ : nat => @Raise unit (Exception "503") in
  let r := XAPIClient.guarded failing "like_tweet" [1%Q; 2%Q] w in
  XAPIClient.guarded failing "like_tweet" (repeat 99%Q 50) w
  = (Raise (Exception ("Rate limit exceeded for " +:+ "like_tweet")), (w, []),
     Utils.drop_old 100 3600 (repeat 99%Q 50))
  /\ snd r = Utils.drop_old 100 3600 [1%Q; 2%Q] ++ [100%Q]
  /\ XAPIClient.api_calls (fst (snd (fst r)))
     = (0 + Utils.invocations (snd (snd (fst r))))%nat
  /\ (1 <= Utils.invocations (snd (snd (fst r))))%nat
  /\ Z.of_nat (Utils.invocations (snd (snd (fst r)))) <= XAPIClient.MAX_RETRIES.
Proof.
  intros w failing r. split.
  - refine (proj1 (guarded_call_requests failing "like_tweet" (repeat 99%Q 50) w) _).
    vm_compute. discriminate.
  - refine (proj2 (guarded_call_requests failing "like_tweet" [1%Q; 2%Q] w) _).
    vm_compute. reflexivity.
Defined.

(** ** More on the token bucket *)

Section BucketErrors.
Import Utils.

Lemma has_keys_init lims clock :
  NoDup (map fst lims) ->
  has_keys lims (tokens (init lims clock)) (last_update (init lims clock)).
Proof.
  intros Hnd. apply Forall_forall. intros [w lim] Hin.
  apply list_elem_of_In in Hin.
  destruct (init_lookup lims clock w lim Hnd Hin) as [Ht [i Hl]].
  simpl fst. rewrite Ht, Hl. split; eexists; reflexivity.
Qed.

Lemma has_keys_acquire rl now :
  NoDup (map fst (limits rl)) ->
  Forall (fun wl => time_window (snd wl) <> 0) (limits rl) ->
  has_keys (limits rl) (tokens rl) (last_update rl) ->
  limits (snd (acquire rl now)) = limits rl
  /\ has_keys (limits rl) (tokens (snd (acquire rl now)))
              (last_update (snd (acquire rl now))).
Proof.
  intros Hnd Hper Hkeys.
  destruct (acquire_spec rl now Hnd Hper Hkeys) as (rl' & Hrun & Hlims & Hwin).
  rewrite Hrun. simpl. split; [exact Hlims|].
  apply Forall_forall. intros [w lim] Hin. apply list_elem_of_In in Hin.
  destruct (has_keys_in _ _ _ w lim Hkeys Hin) as (t & l & Ht & Hl).
  specialize (Hwin w lim t l Hin Ht Hl). simpl fst.
  destruct (all_ok rl now).
  - destruct Hwin as [E1 E2]. rewrite E1, E2. split; eexists; reflexivity.
  - destruct Hwin as [[E1 E2]|[E1 E2]]; rewrite E1, E2; split; eexists; reflexivity.
Qed.

Lemma acquire_all_no_raise : forall ts rl,
  NoDup (map fst (limits rl)) ->
  Forall (fun wl => time_window (snd wl) <> 0) (limits rl) ->
  has_keys (limits rl) (tokens rl) (last_update rl) ->
  Forall (fun o => is_raise o = false) (fst (acquire_all rl ts)).
Proof.
  induction ts as [|t ts IH]; intros rl Hnd Hper Hkeys; [constructor|].
  cbn [acquire_all].
  destruct (acquire_spec rl t Hnd Hper Hkeys) as (rl' & Hrun & Hlims & _).
  destruct (has_keys_acquire rl t Hnd Hper Hkeys) as [_ Hkeys'].
  rewrite Hrun in *. simpl in Hkeys'.
  specialize (IH rl'). rewrite Hlims in IH. specialize (IH Hnd Hper Hkeys').
  destruct (acquire_all rl' ts) as [os rl2]. simpl in *.
  constructor; [reflexivity | exact IH].
Qed.

(** The first loop answers [True] only after dividing by every period. *)
Lemma acquire_check_true_periods now : forall ls tk lu tk' lu',
  acquire_check now ls tk lu = (Return true, tk', lu') ->
  Forall (fun wl => time_window (snd wl) <> 0) ls.
Proof.
  induction ls as [|[w lim] rest IH]; intros tk lu tk' lu' Hrun; [constructor|].
  cbn [acquire_check] in Hrun.
  destruct (lu !! w) as [l|]; [|discriminate].
  destruct (tk !! w) as [t|]; [|discriminate].
  destruct (time_window lim =? 0) eqn:E; [discriminate|].
  destruct (Qltb (refill lim t l now) 1); [discriminate|].
  constructor; [simpl; apply Z.eqb_neq; exact E | eapply IH; exact Hrun].
Qed.
End BucketErrors.

(** X17.  On a limiter built by [__init__] from windows with distinct
    names and non-zero periods, [acquire] never raises: every call of any
    series, at any clock readings, returns [True] or [False]. *)
Theorem acquire_never_raises
    (lims : list (string * Utils.Limit)) (clock : nat -> Q) (ts : list Q) :
  NoDup (map fst lims) ->
  Forall (fun wl => Utils.time_window (snd wl) <> 0) lims ->
  Forall (fun o => is_raise o = false)
         (fst (Utils.acquire_all (Utils.init lims clock) ts)).
Proof.
  intros Hnd Hper. apply acquire_all_no_raise; simpl; try assumption.
  apply has_keys_init. exact Hnd.
Qed.

Lemma acquire_never_raises_witness :
  Forall (fun o => is_raise o = false)
         (fst (Utils.acquire_all (Utils.init XAPIClient.client_limits (fun _ => 7%Q))
                 [9%Q; 8%Q; 1000%Q])).
Proof.
  apply (acquire_never_raises XAPIClient.client_limits (fun _ => 7%Q) [9%Q; 8%Q; 1000%Q]).
  - nodup_names.
  - repeat constructor; simpl; lia.
Defined.

(** X18.  A window with [time_window = 0] is not rejected at construction,
    but a limiter that has one never admits a call: [acquire] returns
    [False] or raises, never [True]. *)
Theorem zero_period_never_admits
    (rl : Utils.RateLimiter) (now : Q) (w : string) (lim : Utils.Limit) :
  In (w, lim) (Utils.limits rl) ->
  Utils.time_window lim = 0 ->
  fst (Utils.acquire rl now) <> Return true.
Proof.
  intros Hin Hzero. unfold Utils.acquire.
  destruct (Utils.acquire_check now (Utils.limits rl) (Utils.tokens rl)
              (Utils.last_update rl)) as [[o tk] lu] eqn:Hrun.
  destruct o as [[|]|e]; try (simpl; discriminate).
  pose proof (acquire_check_true_periods now _ _ _ _ _ Hrun) as Hper.
  rewrite Forall_forall in Hper.
  specialize (Hper (w, lim) ltac:(apply list_elem_of_In; exact Hin)).
  simpl in Hper. contradiction.
Qed.

Lemma zero_period_never_admits_witness :
  fst (Utils.acquire
         (Utils.init [("a"%string, Utils.Build_Limit 5 10);
                      ("b"%string, Utils.Build_Limit 5 0)] (fun _ => 0%Q)) 1)
  <> Return true.
Proof.
  apply (zero_period_never_admits _ 1 "b" (Utils.Build_Limit 5 0)).
  - right. left. reflexivity.
  - reflexivity.
Defined.

(** X19.  The bucket recovers in full: on a limiter reached from
    construction whose windows all hold at least one request, a call made
    at least a whole [time_window] of every window after the last reading
    is admitted, and leaves every window with [max_requests - 1] tokens. *)
Theorem acquire_after_full_period
    (lims : list (string * Utils.Limit)) (T now : Q) (rl : Utils.RateLimiter) :
  wf_limits lims ->
  reachable lims T rl ->
  (forall w lim, In (w, lim) lims ->
     1 <= Utils.max_requests lim /\ (T + inject_Z (Utils.time_window lim) <= now)%Q) ->
  fst (Utils.acquire rl now) = Return true
  /\ forall w lim, In (w, lim) lims ->
       exists t, Utils.tokens (snd (Utils.acquire rl now)) !! w = Some t
                 /\ (t == inject_Z (Utils.max_requests lim) - 1)%Q.
Proof.
  intros Hwf Hreach Hlong.
  destruct (reachable_inv lims T rl Hwf Hreach) as [Hl Hinv].
  pose proof (bucket_inv_has_keys T rl Hinv) as Hkeys.
  rewrite <- Hl in Hwf.
  assert (Hfull : forall w lim t l,
             In (w, lim) (Utils.limits rl) ->
             Utils.tokens rl !! w = Some t -> Utils.last_update rl !! w = Some l ->
             (Utils.refill lim t l now == inject_Z (Utils.max_requests lim))%Q
             /\ (1 <= inject_Z (Utils.max_requests lim))%Q).
  { intros w lim t l Hin Ht Hlu.
    destruct (Hinv w lim Hin) as (t' & l' & Ht' & Hl' & H0 & Hc & Hle).
    assert (t' = t) as -> by congruence. assert (l' = l) as -> by congruence.
    destruct (wf_limits_in _ w lim Hwf Hin) as [Hcap Hper].
    rewrite Hl in Hin. destruct (Hlong w lim Hin) as [Hone Hwait].
    pose proof (gain_mono lim Hcap Hper (inject_Z (Utils.time_window lim)) (now - l)
                  ltac:(lra)) as Hgain.
    pose proof (period_pos_Q lim Hper) as Hpos.
    assert (He : (inject_Z (Utils.time_window lim) * inject_Z (Utils.max_requests lim)
                  / inject_Z (Utils.time_window lim)
                  == inject_Z (Utils.max_requests lim))%Q) by (field; lra).
    rewrite He in Hgain.
    split.
    - unfold Utils.refill. apply Q.min_l. lra.
    - change 1%Q with (inject_Z 1). rewrite <- Zle_Qle. exact Hone. }
  destruct (acquire_spec rl now (wf_limits_nodup _ Hwf) (wf_limits_period _ Hwf) Hkeys)
    as (rl' & Hrun & _ & Hwin).
  assert (Hok : all_ok rl now = true).
  { apply (all_ok_true_iff rl now Hkeys). intros w lim t l Hin Ht Hlu.
    destruct (Hfull w lim t l Hin Ht Hlu) as [E H1]. rewrite E. exact H1. }
  rewrite Hrun, Hok in *. simpl. split; [reflexivity|].
  intros w lim Hin. rewrite <- Hl in Hin.
  destruct (has_keys_in _ _ _ w lim Hkeys Hin) as (t & l & Ht & Hlu).
  destruct (Hwin w lim t l Hin Ht Hlu) as [E _].
  destruct (Hfull w lim t l Hin Ht Hlu) as [Efull _].
  eexists. split; [exact E|]. rewrite Efull. reflexivity.
Qed.

Lemma acquire_after_full_period_witness :
  let lims := [("a"%string, Utils.Build_Limit 5 10);
               ("b"%string, Utils.Build_Limit 1 100)] in
  let rl := snd (Utils.acquire (Utils.init lims (fun _ => 0%Q)) 0) in
  fst (Utils.acquire rl 100) = Return true
  /\ forall w lim, In (w, lim) lims ->
       exists t, Utils.tokens (snd (Utils.acquire rl 100)) !! w = Some t
                 /\ (t == inject_Z (Utils.max_requests lim) - 1)%Q.
Proof.
  intros lims rl.
  apply (acquire_after_full_period lims 0 100 rl).
  - split.
    + nodup_names.
    + repeat constructor; simpl; lia.
  - apply (reachable_acquire lims 0 0).
    + apply reachable_init. intros i. apply Qle_refl.
    + apply Qle_refl.
  - intros w lim [Heq|[Heq|[]]]; inversion Heq; subst; simpl;
      (split; [lia | vm_compute; discriminate]).
Defined.

Lemma all_above_later (ls : list (string * Utils.Limit)) (a k : nat) :
  (a <= k)%nat -> all_above ls a = false -> all_above ls k = false.
Proof.
  unfold all_above. intros Hak. induction ls as [|wl ls IH]; simpl; [discriminate|].
  intros H. apply andb_false_iff in H. apply andb_false_iff.
  destruct H as [H|H]; [left | right; apply IH; exact H].
  apply Z.ltb_ge in H. apply Z.ltb_ge. lia.
Qed.

Section Burst.
Import Utils.
Variable lims : list (string * Limit).
Variable T : Q.
Hypothesis lims_wf : wf_limits lims.

Local Abbreviation burst_inv := (burst_state lims T).

Lemma above_as_tokens (m : Z) (a : nat) (x : Q) :
  (x == inject_Z m - inject_Z (Z.of_nat a))%Q ->
  negb (Qltb x 1) = (Z.of_nat a <? m).
Proof.
  intros Hx. rewrite (Qltb_proper x _ 1 Hx).
  destruct (Z.of_nat a <? m) eqn:E.
  - apply Z.ltb_lt in E.
    assert (H : (inject_Z (Z.of_nat a + 1) <= inject_Z m)%Q)
      by (rewrite <- Zle_Qle; lia).
    rewrite inject_Z_plus in H. change (inject_Z 1) with 1%Q in H.
    apply negb_true_iff, Qltb_false_iff. lra.
  - apply Z.ltb_ge in E.
    assert (H : (inject_Z m <= inject_Z (Z.of_nat a))%Q)
      by (rewrite <- Zle_Qle; lia).
    apply negb_false_iff, Qltb_true_iff. lra.
Qed.

Lemma burst_inv_init clock :
  (forall i, (clock i <= T)%Q) -> burst_inv 0 (init lims clock).
Proof.
  intros Hclock. split; [reflexivity|]. split; [apply bucket_inv_init; assumption|].
  intros w lim t l Hin Ht Hl.
  destruct (init_lookup lims clock w lim (wf_limits_nodup _ lims_wf) Hin) as [Ht' [i Hl']].
  assert (t = inject_Z (max_requests lim)) as -> by congruence.
  assert (l = clock i) as -> by congruence.
  destruct (wf_limits_in lims w lim lims_wf Hin) as [Hcap Hper].
  pose proof (gain_nonneg lim Hcap Hper (T - clock i) ltac:(specialize (Hclock i); lra)).
  unfold refill. change (inject_Z (Z.of_nat 0)) with 0%Q. rewrite Q.min_l; lra.
Qed.

Lemma burst_inv_acquire a rl :
  burst_inv a rl ->
  fst (acquire rl T) = Return (all_above lims a)
  /\ burst_inv (if all_above lims a then S a else a) (snd (acquire rl T)).
Proof.
  intros (Hl & Hinv & Hfill).
  pose proof (bucket_inv_has_keys T rl Hinv) as Hkeys.
  assert (Hwf : wf_limits (limits rl)) by (rewrite Hl; exact lims_wf).
  destruct (acquire_spec rl T (wf_limits_nodup _ Hwf) (wf_limits_period _ Hwf) Hkeys)
    as (rl' & Hrun & Hlims & Hwin).
  destruct (bucket_inv_acquire T T rl Hwf Hinv (Qle_refl T)) as [_ Hinv'].
  assert (Hok : all_ok rl T = all_above lims a).
  { unfold all_ok, all_above. rewrite Hl. apply forallb_eq_on. intros [w lim] Hin.
    rewrite <- Hl in Hin.
    destruct (has_keys_in _ _ _ w lim Hkeys Hin) as (t & l & Ht & Hlu).
    unfold window_ok. simpl. rewrite Ht, Hlu.
    apply above_as_tokens. rewrite Hl in Hin. exact (Hfill w lim t l Hin Ht Hlu). }
  rewrite Hrun in *. simpl in *. rewrite Hok in *.
  split; [reflexivity|]. split; [congruence|]. split; [exact Hinv'|].
  intros w lim t' l' Hin Ht' Hl'.
  rewrite <- Hl in Hin.
  destruct (has_keys_in _ _ _ w lim Hkeys Hin) as (t & l & Ht & Hlu).
  destruct (wf_limits_in _ w lim Hwf Hin) as [Hcap Hper].
  pose proof (refill_le_cap lim t l T) as Hle.
  specialize (Hwin w lim t l Hin Ht Hlu).
  rewrite Hl in Hin. pose proof (Hfill w lim t l Hin Ht Hlu) as Hval.
  destruct (all_above lims a).
  - destruct Hwin as [E1 E2].
    assert (t' = (refill lim t l T - 1)%Q) as -> by congruence.
    assert (l' = T) as -> by congruence.
    rewrite (refill_same_time lim Hper) by lra.
    rewrite nat_Q_succ. lra.
  - destruct Hwin as [[E1 E2]|[E1 E2]].
    + assert (t' = refill lim t l T) as -> by congruence.
      assert (l' = T) as -> by congruence.
      rewrite (refill_same_time lim Hper) by lra. exact Hval.
    + assert (t' = t) as -> by congruence. assert (l' = l) as -> by congruence.
      exact Hval.
Qed.

Lemma burst_run : forall n a k rl,
  burst_inv a rl ->
  (a <= k)%nat ->
  a = k \/ all_above lims a = false ->
  fst (acquire_all rl (repeat T n))
  = map (fun j => Return (all_above lims j)) (seq k n).
Proof.
  induction n as [|n IH]; intros a k rl Hinv Hak Hcase; [reflexivity|].
  destruct (burst_inv_acquire a rl Hinv) as [Hres Hinv'].
  assert (Hk : all_above lims a = all_above lims k).
  { destruct Hcase as [->|Hf]; [reflexivity|].
    rewrite Hf. symmetry. apply (all_above_later lims a k Hak Hf). }
  cbn [repeat acquire_all seq map].
  destruct (acquire rl T) as [o rl1]. simpl in Hres, Hinv'. subst o.
  specialize (IH (if all_above lims a then S a else a) (S k) rl1 Hinv').
  destruct (acquire_all rl1 (repeat T n)) as [os rl2]. simpl in *.
  rewrite Hk. f_equal. apply IH.
  - destruct (all_above lims a); lia.
  - destruct (all_above lims a) eqn:E; [left | right; exact E].
    destruct Hcase as [->|Hf]; [reflexivity | congruence].
Qed.
End Burst.

(** X20.  The burst a fresh bucket admits is its smallest capacity: of the
    calls made in immediate succession at a reading [T] no earlier than
    construction, the one number [j + 1] returns [True] exactly when every
    window has [max_requests > j]; so the first [min max_requests] calls
    are admitted and all the others refused. *)
Theorem burst_is_smallest_capacity
    (lims : list (string * Utils.Limit)) (clock : nat -> Q) (T : Q) (n : nat) :
  wf_limits lims ->
  (forall i, (clock i <= T)%Q) ->
  fst (Utils.acquire_all (Utils.init lims clock) (repeat T n))
  = map (fun j => Return (all_above lims j)) (seq 0 n).
Proof.
  intros Hwf Hclock.
  apply (burst_run lims T Hwf n 0%nat 0%nat).
  - apply burst_inv_init; assumption.
  - lia.
  - left. reflexivity.
Qed.

Lemma burst_is_smallest_capacity_witness :
  fst (Utils.acquire_all
         (Utils.init [("a"%string, Utils.Build_Limit 3 10);
                      ("b"%string, Utils.Build_Limit 2 100)] (fun _ => 0%Q))
         (repeat 4%Q 4))
  = [Return true; Return true; Return false; Return false].
Proof.
  apply (burst_is_smallest_capacity
           [("a"%string, Utils.Build_Limit 3 10); ("b"%string, Utils.Build_Limit 2 100)]
           (fun _ => 0%Q) 4 4).
  - split.
    + nodup_names.
    + repeat constructor; simpl; lia.
  - intros i. vm_compute. discriminate.
Defined.
